(** * git-ai: commit-message synthesis pipeline

    A shallow embedding of the prompt builder, the response interpreter,
    the formatter, the validator and the command-line flow of git-ai
    ([src/ai.ts], [src/utils.ts], [src/config.ts], [src/index.ts]),
    together with the properties stated about them.

    JavaScript strings are sequences of UTF-16 code units; they are
    modelled as lists of code units, so that [length], [substring],
    [split] and the regular expressions count and classify exactly what
    the program counts and classifies. *)

From Stdlib Require Import String Ascii DecimalString.
From Stdlib Require Import NArith ZArith Bool Lia PrimFloat.
From Stdlib Require Import List.
Import ListNotations.
Local Open Scope list_scope.

Set Implicit Arguments.
Set Warnings "-inexact-float".

(** ** Strings *)

Module JS.

Definition code_unit := N.
Definition jsstring := list code_unit.

(** A program literal, as code units. *)
Definition lit (s : string) : jsstring :=
  List.map N_of_ascii (list_ascii_of_string s).

Definition NL : code_unit := 10%N.        (* '\n' *)
Definition BACKTICK : code_unit := 96%N.  (* '`' *)
Definition DOT : code_unit := 46%N.       (* '.' *)
Definition COLON : code_unit := 58%N.     (* ':' *)
Definition LPAREN : code_unit := 40%N.    (* '(' *)
Definition RPAREN : code_unit := 41%N.    (* ')' *)
Definition BANG : code_unit := 33%N.      (* '!' *)
Definition SPACE : code_unit := 32%N.     (* ' ' *)

(** [String.prototype.substring]: both indices are clamped to
    [0, length], and swapped when the first is the larger. *)
Definition clamp (len : nat) (i : Z) : nat :=
  Z.to_nat (Z.min (Z.max i 0) (Z.of_nat len)).

Definition substring (s : jsstring) (a b : Z) : jsstring :=
  let a' := clamp (length s) a in
  let b' := clamp (length s) b in
  firstn (Nat.max a' b' - Nat.min a' b') (skipn (Nat.min a' b') s).

(** [s.lastIndexOf(c)] for a one-unit search string: the index of the
    last occurrence, or -1. *)
Fixpoint lastIndexOf (c : code_unit) (s : jsstring) : Z :=
  match s with
  | [] => (-1)%Z
  | x :: s' =>
      let r := lastIndexOf c s' in
      if (0 <=? r)%Z then (r + 1)%Z
      else if (x =? c)%N then 0%Z else (-1)%Z
  end.

(** [s.split(c)] for a one-unit separator. *)
Fixpoint split (c : code_unit) (s : jsstring) : list jsstring :=
  match s with
  | [] => [[]]
  | x :: s' =>
      if (x =? c)%N then [] :: split c s'
      else match split c s' with
           | l :: ls => (x :: l) :: ls
           | [] => [[x]]
           end
  end.

(** [lines.join(sep)]. *)
Fixpoint join (sep : jsstring) (ls : list jsstring) : jsstring :=
  match ls with
  | [] => []
  | [l] => l
  | l :: ls' => l ++ sep ++ join sep ls'
  end.

Definition endsWith (s : jsstring) (c : code_unit) : bool :=
  match rev s with
  | x :: _ => (x =? c)%N
  | [] => false
  end.

Definition includes (s : jsstring) (c : code_unit) : bool :=
  existsb (fun x => (x =? c)%N) s.

(** White space and line terminators of ECMAScript: what [trim] strips
    and what the class [\s] matches. *)
Definition is_space (c : code_unit) : bool :=
  ((9 <=? c) && (c <=? 13) || (c =? 32) || (c =? 160) || (c =? 5760)
   || (8192 <=? c) && (c <=? 8202) || (c =? 8232) || (c =? 8233)
   || (c =? 8239) || (c =? 8287) || (c =? 12288) || (c =? 65279))%N.

(** Line terminators: what [.] does not match. *)
Definition is_line_terminator (c : code_unit) : bool :=
  ((c =? 10) || (c =? 13) || (c =? 8232) || (c =? 8233))%N.

(** The class [\w]. *)
Definition is_word (c : code_unit) : bool :=
  ((48 <=? c) && (c <=? 57) || (65 <=? c) && (c <=? 90)
   || (c =? 95) || (97 <=? c) && (c <=? 122))%N.

Fixpoint dropWhile (p : code_unit -> bool) (s : jsstring) : jsstring :=
  match s with
  | [] => []
  | x :: s' => if p x then dropWhile p s' else s
  end.

Definition dropWhileEnd (p : code_unit -> bool) (s : jsstring) : jsstring :=
  rev (dropWhile p (rev s)).

Definition trim (s : jsstring) : jsstring :=
  dropWhileEnd is_space (dropWhile is_space s).

(** Truthiness of a string: the empty string is falsy. *)
Definition truthy (s : jsstring) : bool :=
  match s with [] => false | _ :: _ => true end.

End JS.
Import JS.

(** ** [ai.ts]: truncation of the raw diff *)

Definition truncation_marker : jsstring := NL :: lit "... (diff truncated)".

Definition truncateDiff (diff : jsstring) (maxLength : Z) : jsstring :=
  if (Z.of_nat (length diff) <=? maxLength)%Z then diff
  else
    let truncated := substring diff 0 maxLength in
    let lastNewline := lastIndexOf NL truncated in
    substring truncated 0 lastNewline ++ truncation_marker.

(** ** Regular expressions

    The regular expressions of the program are kept as syntax and run by
    a backtracking matcher that follows the ECMAScript semantics for the
    constructs the program uses: alternatives are tried left to right, a
    greedy star tries one more iteration before it tries its
    continuation, a lazy star the other way round, an iteration that
    consumes nothing is rejected, and a capture group records the text it
    matched on the path that succeeds. *)

Module Regex.

Inductive regex : Type :=
| Eps : regex                                (* the empty pattern *)
| Sym : (code_unit -> bool) -> regex         (* a class, a literal, [.] *)
| Cat : regex -> regex -> regex
| Alt : regex -> regex -> regex              (* r1|r2 *)
| Star : bool -> regex -> regex              (* r* if greedy, else r*? *)
| Group : nat -> regex -> regex              (* capture group number n *)
| Bol : regex                                (* ^ without the m flag *)
| Eol : regex.                               (* $ without the m flag *)

Definition Unit (c : code_unit) : regex := Sym (N.eqb c).
Definition Plus (greedy : bool) (r : regex) : regex := Cat r (Star greedy r).
Definition Opt (r : regex) : regex := Alt r Eps.

Fixpoint Seq (rs : list regex) : regex :=
  match rs with
  | [] => Eps
  | r :: rs' => Cat r (Seq rs')
  end.

Fixpoint OneOf (rs : list regex) : regex :=
  match rs with
  | [] => Sym (fun _ => false)
  | [r] => r
  | r :: rs' => Alt r (OneOf rs')
  end.

Definition Text (s : jsstring) : regex := Seq (List.map Unit s).

(** The character classes of the program's patterns. *)
Definition any_unit (c : code_unit) : bool := is_space c || negb (is_space c).
Definition dot (c : code_unit) : bool := negb (is_line_terminator c).
Definition not_rparen (c : code_unit) : bool := negb (c =? RPAREN)%N.
Definition lower (c : code_unit) : bool := ((97 <=? c) && (c <=? 122))%N.

(** Captures, most recent first. *)
Definition captures := list (nat * jsstring).

Fixpoint capture (n : nat) (caps : captures) : option jsstring :=
  match caps with
  | [] => None
  | (m, s) :: caps' => if Nat.eqb m n then Some s else capture n caps'
  end.

(** A match ends with the input that remains and the captures. *)
Definition outcome := (jsstring * captures)%type.
Definition cont := bool -> jsstring -> captures -> option outcome.

Definition or_else (a b : option outcome) : option outcome :=
  match a with
  | Some x => Some x
  | None => b
  end.

(** [exec r b s caps k]: match [r] against the input [s] that remains,
    [b] telling whether [s] is the whole input, then continue with [k]. *)
Fixpoint exec (r : regex) (b : bool) (s : jsstring) (caps : captures)
    (k : cont) {struct r} : option outcome :=
  match r with
  | Eps => k b s caps
  | Sym p =>
      match s with
      | c :: s' => if p c then k false s' caps else None
      | [] => None
      end
  | Cat r1 r2 => exec r1 b s caps (fun b' s' caps' => exec r2 b' s' caps' k)
  | Alt r1 r2 => or_else (exec r1 b s caps k) (exec r2 b s caps k)
  | Star greedy r1 =>
      (fix loop (fuel : nat) (b : bool) (s : jsstring) (caps : captures)
           {struct fuel} : option outcome :=
         match fuel with
         | 0 => None
         | S fuel' =>
             if greedy then
               or_else
                 (exec r1 b s caps (fun b' s' caps' =>
                    if length s' <? length s then loop fuel' b' s' caps'
                    else None))
                 (k b s caps)
             else
               or_else
                 (k b s caps)
                 (exec r1 b s caps (fun b' s' caps' =>
                    if length s' <? length s then loop fuel' b' s' caps'
                    else None))
         end) (S (length s)) b s caps
  | Group n r1 =>
      exec r1 b s caps (fun b' s' caps' =>
        k b' s' ((n, firstn (length s - length s') s) :: caps'))
  | Bol => if b then k b s caps else None
  | Eol => match s with [] => k b s caps | _ :: _ => None end
  end.

Definition match_here (r : regex) (b : bool) (s : jsstring) : option outcome :=
  exec r b s [] (fun _ s' caps => Some (s', caps)).

(** A pattern without the g and y flags is tried at every index from the
    left; the result is the text before the match, the text after it and
    the captures. *)
Fixpoint search (r : regex) (b : bool) (s : jsstring)
    : option (jsstring * jsstring * captures) :=
  match match_here r b s with
  | Some (post, caps) => Some ([], post, caps)
  | None =>
      match s with
      | [] => None
      | c :: s' =>
          match search r false s' with
          | Some (pre, post, caps) => Some (c :: pre, post, caps)
          | None => None
          end
      end
  end.

(** [s.replace(r, repl)], [r.test(s)] and [s.match(r)]. *)
Definition replace (r : regex) (s repl : jsstring) : jsstring :=
  match search r true s with
  | Some (pre, post, _) => pre ++ repl ++ post
  | None => s
  end.

Definition test (r : regex) (s : jsstring) : bool :=
  match search r true s with Some _ => true | None => false end.

Definition match_ (r : regex) (s : jsstring) : option captures :=
  match search r true s with Some (_, _, caps) => Some caps | None => None end.

End Regex.
Import Regex.

(** ** [types.ts] *)

Inductive FileStatus := added | modified | deleted | renamed | copied.

Record GitFile := {
  path : jsstring;
  status : FileStatus;
  insertions : N;
  deletions : N;
  fileDiff : jsstring;            (* the field [diff] of a file *)
  oldPath : option jsstring
}.

Record DiffTotals := {
  totalInsertions : N;
  totalDeletions : N;
  filesChanged : N
}.

Record GitDiff := {
  files : list GitFile;
  summary : DiffTotals;
  raw : jsstring
}.

Inductive CommitStyle := conventional | standard | detailed.

(** [type] is declared as one of eleven tags, but the interpreter stores
    whatever word it read, so the field holds a string. *)
Record CommitMessage := {
  title : jsstring;
  body : option jsstring;
  type : option jsstring;
  scope : option jsstring;
  breaking : option bool;
  footer : option jsstring
}.

Record AIConfig := {
  apiKey : jsstring;
  model : jsstring;
  maxTokens : float;
  temperature : float;
  organization : option jsstring
}.

Record AIPromptContext := {
  diff : GitDiff;
  style : CommitStyle;
  repoName : option jsstring;
  branch : option jsstring;
  previousCommits : option (list jsstring)
}.

Record GeneratedCommit := {
  message : CommitMessage;
  confidence : float
}.

(** An optional string in a condition: [undefined] and the empty string
    are both falsy. *)
Definition present (o : option jsstring) : bool :=
  match o with
  | Some s => truthy s
  | None => false
  end.

Definition style_name (s : CommitStyle) : jsstring :=
  match s with
  | conventional => lit "conventional"
  | standard => lit "standard"
  | detailed => lit "detailed"
  end.

Definition status_name (s : FileStatus) : jsstring :=
  match s with
  | added => lit "added"
  | modified => lit "modified"
  | deleted => lit "deleted"
  | renamed => lit "renamed"
  | copied => lit "copied"
  end.

(** A count inside a template literal: its decimal digits. *)
Definition number_text (n : N) : jsstring :=
  lit (DecimalString.NilZero.string_of_uint (N.to_uint n)).

(** ** [ai.ts]: the prompt *)

Definition file_line (prompt : jsstring) (file : GitFile) : jsstring :=
  prompt ++ lit "- " ++ status_name (status file) ++ lit ": " ++ path file
    ++ lit " (+" ++ number_text (insertions file) ++ lit "/-"
    ++ number_text (deletions file) ++ lit ")" ++ [NL].

Definition commit_line (prompt : jsstring) (commit : jsstring) : jsstring :=
  prompt ++ lit "- " ++ commit ++ [NL].

(** [slice(0, 3)]. *)
Definition slice0 (n : nat) (A : Type) (l : list A) : list A := firstn n l.

Definition buildPrompt (context : AIPromptContext) : jsstring :=
  let prompt :=
    lit "Analyze this git diff and generate a " ++ style_name (style context)
      ++ lit " commit message:" ++ [NL; NL] in
  let prompt :=
    match repoName context with
    | Some r => if truthy r then prompt ++ lit "Repository: " ++ r ++ [NL]
                else prompt
    | None => prompt
    end in
  let prompt :=
    match branch context with
    | Some b => if truthy b then prompt ++ lit "Branch: " ++ b ++ [NL]
                else prompt
    | None => prompt
    end in
  let prompt :=
    prompt ++ [NL] ++ lit "Files changed ("
      ++ number_text (filesChanged (summary (diff context))) ++ lit "):"
      ++ [NL] in
  let prompt := fold_left file_line (files (diff context)) prompt in
  let prompt :=
    match previousCommits context with
    | Some (c :: cs) =>
        fold_left commit_line (slice0 3 (c :: cs))
          (prompt ++ [NL] ++ lit "Recent commits for context:" ++ [NL])
    | _ => prompt
    end in
  let prompt := prompt ++ [NL] ++ lit "Git diff:" ++ [NL] ++ lit "```diff" ++ [NL] in
  let truncatedDiff := truncateDiff (raw (diff context)) 3000 in
  let prompt := prompt ++ truncatedDiff in
  let prompt := prompt ++ [NL] ++ lit "```" ++ [NL] in
  prompt ++ [NL] ++ lit "Generate a " ++ style_name (style context)
    ++ lit " commit message. Respond with ONLY the commit message, no additional text.".

(** ** [ai.ts]: the response *)

(** [/^```[\s\S]*?\n/] *)
Definition fence_open_re : regex :=
  Seq [Bol; Text (lit "```"); Star false (Sym any_unit); Unit NL].

(** [/\n```$/] *)
Definition fence_close_re : regex :=
  Seq [Unit NL; Text (lit "```"); Eol].

(** [/^`+/] and [/`+$/] *)
Definition leading_ticks_re : regex := Seq [Bol; Plus true (Unit BACKTICK)].
Definition trailing_ticks_re : regex := Seq [Plus true (Unit BACKTICK); Eol].

(** [/^(\w+)(?:\(([^)]+)\))?(!)?:\s*(.+)$/] *)
Definition conventional_re : regex :=
  Seq [Bol;
       Group 1 (Plus true (Sym is_word));
       Opt (Seq [Unit LPAREN; Group 2 (Plus true (Sym not_rparen)); Unit RPAREN]);
       Opt (Group 3 (Unit BANG));
       Unit COLON;
       Star true (Sym is_space);
       Group 4 (Plus true (Sym dot));
       Eol].

(** [/^[a-z]/] *)
Definition lowercase_re : regex := Seq [Bol; Sym lower].

Definition Math_min (x y : float) : float :=
  if (is_nan x || is_nan y)%bool then nan
  else if (x <? y)%float then x else y.

Definition calculateConfidence (title : jsstring) (body : option jsstring)
    : float :=
  let confidence := 0.5%float in
  let confidence :=
    if ((10 <? length title) && (length title <=? 50))%nat
    then (confidence + 0.2)%float else confidence in
  let confidence :=
    if test lowercase_re title then (confidence + 0.1)%float else confidence in
  let confidence :=
    if negb (endsWith title DOT) then (confidence + 0.1)%float
    else confidence in
  let confidence :=
    if includes title COLON then (confidence + 0.1)%float else confidence in
  let confidence :=
    match body with
    | Some b =>
        if (truthy b && (20 <? length b)%nat)%bool
        then (confidence + 0.1)%float else confidence
    | None => confidence
    end in
  Math_min confidence 1.0%float.

Inductive ParseError := EmptyResponse.   (* 'Empty response from AI' *)

Definition cleanContent (content : jsstring) : jsstring :=
  let cleanContent := trim content in
  let cleanContent :=
    replace fence_close_re (replace fence_open_re cleanContent []) [] in
  replace trailing_ticks_re (replace leading_ticks_re cleanContent []) [].

Definition nonblank_lines (cleanContent : jsstring) : list jsstring :=
  filter (fun line => truthy (trim line)) (split NL cleanContent).

Definition parseAIResponse (content : jsstring) (style : CommitStyle)
    : ParseError + GeneratedCommit :=
  match nonblank_lines (cleanContent content) with
  | [] => inl EmptyResponse
  | line0 :: more =>
      let title := trim line0 in
      let body :=
        let joined := trim (join [NL] more) in
        if truthy joined then Some joined else None in
      let '(type, scope, breaking) :=
        match style with
        | conventional =>
            match match_ conventional_re title with
            | Some conventionalMatch =>
                (capture 1 conventionalMatch,
                 capture 2 conventionalMatch,
                 present (capture 3 conventionalMatch))
            | None => (None, None, false)
            end
        | _ => (None, None, false)
        end in
      inr {| message := {| title := title; body := body; type := type;
                           scope := scope; breaking := Some breaking;
                           footer := None |};
             confidence := calculateConfidence title body |}
  end.

(** ** [utils.ts]: formatting and validation *)

Definition formatConventionalCommit (message : CommitMessage) : jsstring :=
  let formatted := [] in
  let formatted :=
    match type message with
    | Some t =>
        if truthy t then
          let formatted := formatted ++ t in
          let formatted :=
            match scope message with
            | Some s =>
                if truthy s then formatted ++ lit "(" ++ s ++ lit ")"
                else formatted
            | None => formatted
            end in
          let formatted :=
            match breaking message with
            | Some true => formatted ++ lit "!"
            | _ => formatted
            end in
          formatted ++ lit ": "
        else formatted
    | None => formatted
    end in
  let formatted := formatted ++ title message in
  let formatted :=
    match body message with
    | Some b => if truthy b then formatted ++ [NL; NL] ++ b else formatted
    | None => formatted
    end in
  match footer message with
  | Some f => if truthy f then formatted ++ [NL; NL] ++ f else formatted
  | None => formatted
  end.

Definition formatDetailedCommit (message : CommitMessage) : jsstring :=
  let formatted := title message in
  match body message with
  | Some b => if truthy b then formatted ++ [NL; NL] ++ b else formatted
  | None => formatted
  end.

Definition formatStandardCommit (message : CommitMessage) : jsstring :=
  title message.

Definition formatCommitMessage (message : CommitMessage) (style : CommitStyle)
    : jsstring :=
  match style with
  | conventional => formatConventionalCommit message
  | detailed => formatDetailedCommit message
  | standard => formatStandardCommit message
  end.

(** The eleven tags of [CommitType], in the order of the pattern. *)
Definition commit_types : list jsstring :=
  [lit "feat"; lit "fix"; lit "docs"; lit "style"; lit "refactor"; lit "test";
   lit "chore"; lit "perf"; lit "ci"; lit "build"; lit "revert"].

(** [/^(feat|fix|docs|style|refactor|test|chore|perf|ci|build|revert)(\(.+\))?!?:\s.+/] *)
Definition conventionalPattern : regex :=
  Seq [Bol;
       Group 1 (OneOf (List.map Text commit_types));
       Opt (Group 2 (Seq [Unit LPAREN; Plus true (Sym dot); Unit RPAREN]));
       Opt (Unit BANG);
       Unit COLON;
       Sym is_space;
       Plus true (Sym dot)].

Definition validateConventionalCommit (message : jsstring) : bool :=
  test conventionalPattern message.

Definition validateStandardCommit (message : jsstring) : bool :=
  let lines := split NL message in
  let title := hd [] lines in
  (length title <=? 50)%nat && negb (endsWith title DOT).

Definition validateCommitMessage (message : jsstring) (style : CommitStyle)
    : bool :=
  if negb (truthy (trim message)) then false
  else
    match style with
    | conventional => validateConventionalCommit message
    | _ => validateStandardCommit message
    end.

(** ** [config.ts] *)

Record GitSettings := {
  defaultStyle : CommitStyle;
  maxDiffSize : N;
  excludeFiles : list jsstring
}.

Record AppConfig := {
  ai : AIConfig;
  git : GitSettings
}.

(** What the program throws, by throw site. *)
Inductive GenerationCause :=
| ProviderUnreachable          (* the provider call rejected *)
| NoResponseGenerated           (* 'No response generated from AI' *)
| EmptyResponseFromAI.          (* 'Empty response from AI' *)

Inductive Failure :=
| ApiKeyNotFound                (* getAIConfig *)
| MaxTokensOutOfRange           (* 'maxTokens must be between 10 and 4000' *)
| TemperatureOutOfRange         (* 'temperature must be between 0 and 2' *)
| NotARepository
| NoStagedChanges
| StagedDiffFailed
| OpenAIAPIError (msg : jsstring)
| GenerationFailed (cause : GenerationCause)
| CommitFailed.

Definition getAIConfig (config : AppConfig) : Failure + AIConfig :=
  if negb (truthy (apiKey (ai config))) then inl ApiKeyNotFound
  else inr (ai config).

Definition validateConfig (config : AppConfig) : Failure + bool :=
  if negb (truthy (apiKey (ai config))) then inr false
  else if ((maxTokens (ai config) <? 10) || (4000 <? maxTokens (ai config)))%float
  then inl MaxTokensOutOfRange
  else if ((temperature (ai config) <? 0) || (2 <? temperature (ai config)))%float
  then inl TemperatureOutOfRange
  else inr true.

(** ** [index.ts]: the command-line flow

    The collaborators (version control, provider, terminal) are scripted:
    one [Round] holds what they answer during one run of
    [generateCommitMessage]; a regeneration starts the next round.  The
    trace records the provider calls, what is shown as the generated
    message, the answers given at the prompts and the commits. *)

Module CLI.
Record Options := {
  commit : bool;
  interactive : bool;
  style : option CommitStyle;
  dryRun : bool;
  verbose : bool
}.
End CLI.

Inductive Action := ActCommit | ActEdit | ActRegenerate | ActCancel.

Inductive ProviderReply :=
| ReplyAPIError (msg : jsstring)
| ReplyRejected
| ReplyContent (content : option jsstring).

Record GitBackend := {
  isValidRepository : bool;
  hasStagedChanges : bool;
  getStagedDiff : option GitDiff;          (* [None]: it throws *)
  getCurrentBranch : option jsstring;      (* [None]: it throws *)
  getRepoName : option jsstring;
  getRecentCommits : list jsstring;
  commitSucceeds : jsstring -> bool
}.

Record Round := {
  repo : GitBackend;
  reply : ProviderReply;
  action : Action;                         (* promptForAction *)
  editedMessage : jsstring                 (* the input given to promptForEdit *)
}.

Record Request := {
  req_model : jsstring;
  req_prompt : jsstring;
  req_max_tokens : float;
  req_temperature : float
}.

Inductive Event :=
| SetupRequired
| ProviderCall (request : Request)
| Generated (result : GeneratedCommit)     (* the message is displayed *)
| Asked (answer : Action)
| EditAnswer (input : jsstring)
| GitCommit (message : jsstring).

Inductive Outcome :=
| Returned
| Threw (failure : Failure)
| Pending.                                 (* the script has no further round *)

(** [AIService.generateCommitMessage] *)
Definition AIService_generateCommitMessage (config : AIConfig)
    (context : AIPromptContext) (reply : ProviderReply)
    : list Event * (Failure + GeneratedCommit) :=
  let prompt := buildPrompt context in
  let call :=
    ProviderCall {| req_model := model config; req_prompt := prompt;
                    req_max_tokens := maxTokens config;
                    req_temperature := temperature config |} in
  match reply with
  | ReplyAPIError msg => ([call], inl (OpenAIAPIError msg))
  | ReplyRejected => ([call], inl (GenerationFailed ProviderUnreachable))
  | ReplyContent content =>
      match content with
      | Some c =>
          if truthy c then
            match parseAIResponse c (style context) with
            | inl EmptyResponse =>
                ([call], inl (GenerationFailed EmptyResponseFromAI))
            | inr result => ([call], inr result)
            end
          else ([call], inl (GenerationFailed NoResponseGenerated))
      | None => ([call], inl (GenerationFailed NoResponseGenerated))
      end
  end.

Definition promptForEdit (input : jsstring) : option jsstring :=
  if negb (truthy (trim input)) then None else Some (trim input).

Definition performCommit (backend : GitBackend) (message : jsstring)
    : list Event * Outcome :=
  ([GitCommit message],
   if commitSucceeds backend message then Returned else Threw CommitFailed).

Definition with_interactive (options : CLI.Options) : CLI.Options :=
  {| CLI.commit := CLI.commit options; CLI.interactive := true;
     CLI.style := CLI.style options; CLI.dryRun := CLI.dryRun options;
     CLI.verbose := CLI.verbose options |}.

Definition promptContext (config : AppConfig) (options : CLI.Options)
    (backend : GitBackend) (diff : GitDiff) : AIPromptContext :=
  let commitStyle :=
    match CLI.style options with
    | Some s => s
    | None => defaultStyle (git config)
    end in
  {| diff := diff;
     style := commitStyle;
     repoName := getRepoName backend;
     branch := Some (match getCurrentBranch backend with
                     | Some b => b
                     | None => lit "main"
                     end);
     previousCommits := Some (getRecentCommits backend) |}.

Fixpoint generateCommitMessage (config : AppConfig) (options : CLI.Options)
    (world : list Round) {struct world} : list Event * Outcome :=
  match getAIConfig config with
  | inl _ => ([SetupRequired], Returned)
  | inr aiConfig =>
      match world with
      | [] => ([], Pending)
      | round :: later =>
          let backend := repo round in
          if negb (isValidRepository backend) then ([], Threw NotARepository)
          else if negb (hasStagedChanges backend) then ([], Threw NoStagedChanges)
          else
            match getStagedDiff backend with
            | None => ([], Threw StagedDiffFailed)
            | Some diff =>
                let context := promptContext config options backend diff in
                match AIService_generateCommitMessage aiConfig context
                        (reply round) with
                | (events, inl failure) => (events, Threw failure)
                | (events, inr result) =>
                    let events := events ++ [Generated result] in
                    if CLI.dryRun options then (events, Returned)
                    else if (CLI.interactive options
                             || (negb (CLI.commit options)
                                 && negb (CLI.dryRun options)))%bool then
                      let events := events ++ [Asked (action round)] in
                      match action round with
                      | ActCommit =>
                          let (e, o) :=
                            performCommit backend (title (message result)) in
                          (events ++ e, o)
                      | ActEdit =>
                          let events :=
                            events ++ [EditAnswer (editedMessage round)] in
                          match promptForEdit (editedMessage round) with
                          | Some edited =>
                              let (e, o) := performCommit backend edited in
                              (events ++ e, o)
                          | None => (events, Returned)
                          end
                      | ActRegenerate =>
                          let (e, o) :=
                            generateCommitMessage config
                              (with_interactive options) later in
                          (events ++ e, o)
                      | ActCancel => (events, Returned)
                      end
                    else if CLI.commit options then
                      let (e, o) :=
                        performCommit backend (title (message result)) in
                      (events ++ e, o)
                    else (events, Returned)
                end
            end
      end
  end.

(** ** [utils.ts]: shortening and escaping *)

Definition truncateText (text : jsstring) (maxLength : Z) : jsstring :=
  if (Z.of_nat (length text) <=? maxLength)%Z then text
  else substring text 0 (maxLength - 3) ++ lit "...".

(** [s.replace(r, repl)] for a pattern with the g flag: the pattern is
    searched again from the end of each match, an empty match moves the
    search one unit on, and [repl] receives the matched text (the [$&]
    of a replacement string). *)
Fixpoint replace_all_loop (fuel : nat) (r : regex) (b : bool) (s : jsstring)
    (repl : jsstring -> jsstring) {struct fuel} : jsstring :=
  match fuel with
  | 0 => s
  | S fuel' =>
      match search r b s with
      | None => s
      | Some (pre, post, _) =>
          match firstn (length s - length pre - length post)
                  (skipn (length pre) s) with
          | [] =>
              match post with
              | [] => pre ++ repl []
              | c :: post' =>
                  pre ++ repl [] ++ c :: replace_all_loop fuel' r false post' repl
              end
          | (_ :: _) as matched =>
              pre ++ repl matched ++ replace_all_loop fuel' r false post repl
          end
      end
  end.

Definition replace_all (r : regex) (s : jsstring)
    (repl : jsstring -> jsstring) : jsstring :=
  replace_all_loop (S (length s)) r true s repl.

Definition BACKSLASH : code_unit := 92%N.
Definition DOLLAR : code_unit := 36%N.

(** The class of [/[`$\\]/g]. *)
Definition shell_special (c : code_unit) : bool :=
  ((c =? BACKTICK) || (c =? DOLLAR) || (c =? BACKSLASH))%N.

Definition sanitizeCommitMessage (message : jsstring) : jsstring :=
  trim
    (replace_all (Unit NL)
       (replace_all (Sym shell_special) message (fun m => BACKSLASH :: m))
       (fun _ => [NL; NL])).

(** ** [git.ts]

    The answers of simple-git are inputs: whether the directory is a
    repository, the staged paths, the raw staged diff, the summary and
    the diff of each file.  A call that rejects for a reason of its own
    is not modelled. *)

(** [s.startsWith(prefix)], [s.includes(needle)] and [a === b]. *)
Fixpoint startsWith (s prefix : jsstring) : bool :=
  match prefix with
  | [] => true
  | p :: prefix' =>
      match s with
      | c :: s' => (c =? p)%N && startsWith s' prefix'
      | [] => false
      end
  end.

Fixpoint includesText (s needle : jsstring) : bool :=
  match s with
  | [] => startsWith [] needle
  | _ :: s' => startsWith s needle || includesText s' needle
  end.

Fixpoint equal_text (a b : jsstring) : bool :=
  match a, b with
  | [], [] => true
  | x :: a', y :: b' => (x =? y)%N && equal_text a' b'
  | _, _ => false
  end.

(** One file of simple-git's summary: a text file with its counts, or a
    binary file, which has none. *)
Inductive DiffEntry :=
| TextFile (file : jsstring) (changes insertions deletions : N)
| BinaryFile (file : jsstring) (before after : N).

Definition entry_file (e : DiffEntry) : jsstring :=
  match e with
  | TextFile f _ _ _ => f
  | BinaryFile f _ _ => f
  end.

Record DiffResult := {
  result_files : list DiffEntry;
  result_insertions : N;
  result_deletions : N
}.

Record GitAnswers := {
  checkIsRepo : bool;                      (* [false]: it rejects *)
  stagedPaths : list jsstring;             (* status().staged *)
  stagedDiffText : jsstring;               (* diff(['--staged']) *)
  stagedSummary : DiffResult;              (* diffSummary(['--staged']) *)
  diffOfFile : jsstring -> jsstring        (* diff(['--staged', '--', file]) *)
}.

Definition parseGitFile (git : GitAnswers) (file : DiffEntry) : GitFile :=
  let fileDiff := diffOfFile git (entry_file file) in
  let status := modified in
  let hasStats := match file with TextFile _ _ _ _ => true | _ => false end in
  let insertions := match file with TextFile _ _ i _ => i | _ => 0%N end in
  let deletions := match file with TextFile _ _ _ d => d | _ => 0%N end in
  let status :=
    if hasStats then
      if ((0 <? insertions) && (deletions =? 0))%N then added
      else if ((insertions =? 0) && (0 <? deletions))%N then deleted
      else status
    else status in
  let status :=
    if includesText fileDiff (lit "similarity index")
       || includesText fileDiff (lit "rename from")
    then renamed else status in
  {| path := entry_file file; status := status; insertions := insertions;
     deletions := deletions; fileDiff := fileDiff; oldPath := None |}.

Definition parseGitFiles (git : GitAnswers) (diffSummary : DiffResult)
    : list GitFile :=
  fold_left (fun files file => files ++ [parseGitFile git file])
    (result_files diffSummary) [].

(** What [getStagedDiff] throws, each wrapped in 'Failed to get git
    diff: '. *)
Inductive StagedDiffError :=
| NotInRepository                          (* 'Not in a git repository' *)
| NoStagedFiles                            (* 'No staged changes found. ...' *)
| EmptyStagedDiff.                         (* 'No staged changes found' *)

Definition GitService_getStagedDiff (git : GitAnswers)
    : StagedDiffError + GitDiff :=
  if negb (checkIsRepo git) then inl NotInRepository
  else
    match stagedPaths git with
    | [] => inl NoStagedFiles
    | _ :: _ =>
        let rawDiff := stagedDiffText git in
        if negb (truthy (trim rawDiff)) then inl EmptyStagedDiff
        else
          let diffSummary := stagedSummary git in
          let files := parseGitFiles git diffSummary in
          inr {| files := files;
                 summary :=
                   {| totalInsertions := result_insertions diffSummary;
                      totalDeletions := result_deletions diffSummary;
                      filesChanged :=
                        N.of_nat (length (result_files diffSummary)) |};
                 raw := rawDiff |}
    end.

Definition GitService_hasStagedChanges (git : option GitAnswers) : bool :=
  match git with
  | Some g => match stagedPaths g with [] => false | _ :: _ => true end
  | None => false                          (* status() rejected *)
  end.

(** [/\/([^\/]+)\.git$/] *)
Definition SLASH : code_unit := 47%N.
Definition not_slash (c : code_unit) : bool := negb (c =? SLASH)%N.

Definition repo_name_re : regex :=
  Seq [Unit SLASH; Group 1 (Plus true (Sym not_slash)); Unit DOT;
       Text (lit "git"); Eol].

Record Remote := {
  remote_name : jsstring;
  remote_fetch : jsstring                  (* refs.fetch *)
}.

(** [getRemotes(true)] answers a list of remotes, or rejects ([None]). *)
Definition GitService_getRepoName (remotes : option (list Remote))
    : option jsstring :=
  match remotes with
  | None => None
  | Some remotes =>
      match find (fun remote => equal_text (remote_name remote) (lit "origin"))
              remotes with
      | Some origin =>
          if truthy (remote_fetch origin) then
            match match_ repo_name_re (remote_fetch origin) with
            | Some m => capture 1 m
            | None => None
            end
          else None
      | None => None
      end
  end.

(** ** [parseChangedLines]

    The line counter is a JavaScript number, read by [parseInt] from
    the digits of a hunk header and advanced by [++].  The number
    type, its zero, its increment and [parseInt] are left open, so that
    what is proved holds of the numbers of JavaScript. *)

(** [\d] and [/@@ -(\d+),?\d* \+(\d+),?\d* @@/] *)
Definition COMMA : code_unit := 44%N.
Definition digit (c : code_unit) : bool := ((48 <=? c) && (c <=? 57))%N.

Definition hunk_re : regex :=
  Seq [Text (lit "@@ -"); Group 1 (Plus true (Sym digit)); Opt (Unit COMMA);
       Star true (Sym digit); Text (lit " +");
       Group 2 (Plus true (Sym digit)); Opt (Unit COMMA);
       Star true (Sym digit); Text (lit " @@")].

Section ChangedLines.

Variable number : Type.
Variable zero : number.                      (* 0 *)
Variable increment : number -> number.       (* n + 1 *)
Variable parseInt : jsstring -> number.

Record ChangedLines := {
  addedLines : list number;                  (* added *)
  removedLines : list number                 (* removed *)
}.

(** The state of the loop: [added], [removed] and [currentLine]; the
    primes keep the lists apart from the file status of the same name. *)
Definition LineState := (list number * list number * number)%type.

Definition changed_line (state : LineState) (line : jsstring) : LineState :=
  let '(added', removed', currentLine) := state in
  if startsWith line (lit "@@") then
    match match_ hunk_re line with
    | Some m =>
        (added', removed',
         parseInt (match capture 2 m with
                   | Some digits => digits
                   | None => lit "undefined"
                   end))
    | None => state
    end
  else if startsWith line (lit "+") && negb (startsWith line (lit "+++")) then
    (added' ++ [currentLine], removed', increment currentLine)
  else if startsWith line (lit "-") && negb (startsWith line (lit "---")) then
    (added', removed' ++ [currentLine], currentLine)
  else if negb (startsWith line [BACKSLASH]) then
    (added', removed', increment currentLine)
  else state.

Definition parseChangedLines (diff : jsstring) : ChangedLines :=
  let lines := split NL diff in
  let '(added', removed', _) := fold_left changed_line lines ([], [], zero) in
  {| addedLines := added'; removedLines := removed' |}.

End ChangedLines.

(** ** The service that [index.ts] uses

    [gitService] is the one [GitService] of [git.ts]: each of its
    methods over the answers of simple-git, which are taken to be the
    same for every call of one round. *)
Record SimpleGit := {
  stagedAnswers : GitAnswers;
  getRemotes : option (list Remote);       (* getRemotes(true) *)
  branchLocal : option jsstring;           (* branchLocal().current *)
  logMessages : option (list jsstring);    (* the messages of log().all *)
  commitResolves : jsstring -> bool        (* commit(message) *)
}.

Definition gitService (git : SimpleGit) : GitBackend :=
  {| isValidRepository := checkIsRepo (stagedAnswers git);
     hasStagedChanges := GitService_hasStagedChanges (Some (stagedAnswers git));
     getStagedDiff :=
       match GitService_getStagedDiff (stagedAnswers git) with
       | inr diff => Some diff
       | inl _ => None
       end;
     getCurrentBranch := branchLocal git;
     getRepoName := GitService_getRepoName (getRemotes git);
     getRecentCommits :=
       match logMessages git with
       | Some messages => messages
       | None => []
       end;
     commitSucceeds := commitResolves git |}.

(** * Vocabulary of the statements *)

(** A text is blank when it holds nothing but white space. *)
Definition blank (s : jsstring) : bool := forallb is_space s.

(** The first line of a text: what precedes its first line break. *)
Fixpoint first_line (s : jsstring) : jsstring :=
  match s with
  | [] => []
  | x :: s' => if (x =? NL)%N then [] else x :: first_line s'
  end.

(** The conventional header of a formatted message: nothing when the
    message has no type, and otherwise the type, the scope in
    parentheses when there is one, [!] when the change is breaking, a
    colon and a space. *)
Definition conventional_prefix (m : CommitMessage) : jsstring :=
  match type m with
  | Some t =>
      if truthy t then
        t ++ (match scope m with
              | Some s => if truthy s then lit "(" ++ s ++ lit ")" else []
              | None => []
              end)
          ++ (match breaking m with Some true => lit "!" | _ => [] end)
          ++ lit ": "
      else []
  | None => []
  end.

(** A trailing section: a blank line and the text, when there is one. *)
Definition trailing_section (o : option jsstring) : jsstring :=
  match o with
  | Some s => if truthy s then [NL; NL] ++ s else []
  | None => []
  end.

(** The parts of the user prompt, in the order they are emitted. *)
Definition task_header (s : CommitStyle) : jsstring :=
  lit "Analyze this git diff and generate a " ++ style_name s
    ++ lit " commit message:" ++ [NL; NL].

Definition repository_line (o : option jsstring) : jsstring :=
  match o with
  | Some r => if truthy r then lit "Repository: " ++ r ++ [NL] else []
  | None => []
  end.

Definition branch_line (o : option jsstring) : jsstring :=
  match o with
  | Some b => if truthy b then lit "Branch: " ++ b ++ [NL] else []
  | None => []
  end.

(** [<status>: <path> (+<insertions>/-<deletions>)] *)
Definition rendered_file (f : GitFile) : jsstring :=
  status_name (status f) ++ lit ": " ++ path f ++ lit " (+"
    ++ number_text (insertions f) ++ lit "/-" ++ number_text (deletions f)
    ++ lit ")".

Definition files_section (d : GitDiff) : jsstring :=
  [NL] ++ lit "Files changed (" ++ number_text (filesChanged (summary d))
    ++ lit "):" ++ [NL]
    ++ concat (List.map (fun f => lit "- " ++ rendered_file f ++ [NL]) (files d)).

Definition commits_section (o : option (list jsstring)) : jsstring :=
  match o with
  | Some (c :: cs) =>
      [NL] ++ lit "Recent commits for context:" ++ [NL]
        ++ concat (List.map (fun s => lit "- " ++ s ++ [NL]) (firstn 3 (c :: cs)))
  | _ => []
  end.

Definition diff_block (embedded : jsstring) : jsstring :=
  [NL] ++ lit "Git diff:" ++ [NL] ++ lit "```diff" ++ [NL] ++ embedded
    ++ [NL] ++ lit "```" ++ [NL].

Definition closing_instruction (s : CommitStyle) : jsstring :=
  [NL] ++ lit "Generate a " ++ style_name s
    ++ lit " commit message. Respond with ONLY the commit message, no additional text.".

(** The five conditions of the confidence score. *)
Definition title_length_ok (title : jsstring) : bool :=
  ((10 <? length title) && (length title <=? 50))%nat.

Definition starts_lowercase (title : jsstring) : bool :=
  match title with
  | c :: _ => lower c
  | [] => false
  end.

Definition no_final_period (title : jsstring) : bool :=
  negb (endsWith title DOT).

Definition has_colon (title : jsstring) : bool := includes title COLON.

Definition long_body (body : option jsstring) : bool :=
  match body with
  | Some b => (20 <? length b)%nat
  | None => false
  end.

(** [min(1.0, 0.5 + ...)], each condition adding its weight or nothing,
    in binary64 arithmetic as the program computes it. *)
Definition weight (c : bool) (w : float) : float := if c then w else 0%float.

Definition score (c1 c2 c3 c4 c5 : bool) : float :=
  Math_min
    (0.5 + weight c1 0.2 + weight c2 0.1 + weight c3 0.1 + weight c4 0.1
     + weight c5 0.1)%float
    1.0%float.

(** Whether the position is still the start of the input once [w] has
    been read. *)
Definition after (b : bool) (w : jsstring) : bool :=
  match w with [] => b | _ :: _ => false end.

(** The suffixes of a text, longest first, the empty one included. *)
Fixpoint tails (s : jsstring) : list jsstring :=
  match s with
  | [] => [[]]
  | _ :: s' => s :: tails s'
  end.

(** [s] without its longest suffix that [q] accepts, when there is one. *)
Fixpoint cut_at (q : jsstring -> bool) (s : jsstring) : jsstring :=
  match s with
  | [] => []
  | c :: s' => if q s then [] else c :: cut_at q s'
  end.

(** The cleanup of a response, said directly: the opening fence is three
    backticks at the very start together with the rest of their line, if
    that line ends; the closing fence is a line break and three
    backticks at the very end; then the backticks that still start or
    end the text go. *)
Definition is_tick (c : code_unit) : bool := (BACKTICK =? c)%N.

Fixpoint after_line_break (s : jsstring) : option jsstring :=
  match s with
  | [] => None
  | c :: s' => if (NL =? c)%N then Some s' else after_line_break s'
  end.

Definition strip_open_fence (s : jsstring) : jsstring :=
  match s with
  | a :: b :: c :: t =>
      if is_tick a && is_tick b && is_tick c then
        match after_line_break t with
        | Some t' => t'
        | None => s
        end
      else s
  | _ => s
  end.

Definition is_closing_fence (s : jsstring) : bool :=
  match s with
  | [a; b; c; d] => (NL =? a)%N && is_tick b && is_tick c && is_tick d
  | _ => false
  end.

Definition strip_close_fence (s : jsstring) : jsstring :=
  cut_at is_closing_fence s.

Definition all_ticks (s : jsstring) : bool := truthy s && forallb is_tick s.

Definition strip_ticks (s : jsstring) : jsstring :=
  dropWhileEnd is_tick (dropWhile is_tick s).

Definition cleanup (content : jsstring) : jsstring :=
  strip_ticks (strip_close_fence (strip_open_fence (trim content))).

(** The lines of a text that are not blank. *)
Definition remaining_lines (text : jsstring) : list jsstring :=
  filter (fun line => negb (blank line)) (split NL text).

(** The grammar of a conventional title: a word, a scope in parentheses
    or nothing, [!] or nothing, a colon, white space or nothing, and a
    rest that is not empty and stays on the line. *)
Definition scope_text (sc : option jsstring) : jsstring :=
  match sc with
  | Some s => LPAREN :: s ++ [RPAREN]
  | None => []
  end.

Definition bang_text (bang : bool) : jsstring :=
  if bang then [BANG] else [].

Definition conventional_title (t w : jsstring) (sc : option jsstring)
    (bang : bool) : Prop :=
  exists ws rest,
    t = w ++ scope_text sc ++ bang_text bang ++ COLON :: ws ++ rest /\
    w <> [] /\ forallb is_word w = true /\
    match sc with
    | Some s => s <> [] /\ forallb not_rparen s = true
    | None => True
    end /\
    forallb is_space ws = true /\
    rest <> [] /\ forallb dot rest = true.

(** [conventional_re] from its third, fourth, fifth and seventh item on. *)
Definition conv_tail4 : list regex := [Group 4 (Plus true (Sym dot)); Eol].
Definition conv_tail3 : list regex :=
  Unit COLON :: Star true (Sym is_space) :: conv_tail4.
Definition conv_tail2 : list regex := Opt (Group 3 (Unit BANG)) :: conv_tail3.
Definition conv_tail1 : list regex :=
  Opt (Seq [Unit LPAREN; Group 2 (Plus true (Sym not_rparen)); Unit RPAREN])
    :: conv_tail2.

(** The captures a match of [conventional_re] leaves. *)
Definition bang_caps (bang : bool) (caps : captures) : captures :=
  if bang then (3, [BANG]) :: caps else caps.

Definition scope_caps (sc : option jsstring) (caps : captures) : captures :=
  match sc with
  | Some s => (2, s) :: caps
  | None => caps
  end.

(** Whether a text holds a colon that a space follows. *)
Fixpoint has_colon_space (s : jsstring) : bool :=
  match s with
  | a :: s' =>
      match s' with
      | b :: _ => ((a =? COLON)%N && (b =? SPACE)%N) || has_colon_space s'
      | [] => false
      end
  | [] => false
  end.

(** The response of the interpreter's example. *)
Definition example_response : jsstring :=
  lit "fix(parser)!: handle edge case" ++ [NL; NL] ++ lit "Details here.".

(** [conventionalPattern] from its third, fourth and fifth item on. *)
Definition val_tail3 : list regex :=
  [Unit COLON; Sym is_space; Plus true (Sym dot)].
Definition val_tail2 : list regex := Opt (Unit BANG) :: val_tail3.
Definition val_tail1 : list regex :=
  Opt (Group 2 (Seq [Unit LPAREN; Plus true (Sym dot); Unit RPAREN]))
    :: val_tail2.

(** The scope and the breaking flag as the formatter reads them. *)
Definition scope_shown (m : CommitMessage) : option jsstring :=
  match scope m with
  | Some s => if truthy s then Some s else None
  | None => None
  end.

Definition breaking_shown (m : CommitMessage) : bool :=
  match breaking m with
  | Some true => true
  | _ => false
  end.

(** Events that are commits. *)
Definition is_commit (e : Event) : bool :=
  match e with
  | GitCommit _ => true
  | _ => false
  end.

Definition no_commit (l : list Event) : bool :=
  forallb (fun e => negb (is_commit e)) l.

(** The request a configuration and a prompt context lead to. *)
Definition request_of (config : AIConfig) (context : AIPromptContext)
    : Request :=
  {| req_model := model config; req_prompt := buildPrompt context;
     req_max_tokens := maxTokens config;
     req_temperature := temperature config |}.

(** A repository with staged changes, for the runs below. *)
Definition sample_diff : GitDiff :=
  {| files := [{| path := lit "src/parser.ts"; status := modified;
                  insertions := 4; deletions := 1; fileDiff := [];
                  oldPath := None |}];
     summary := {| totalInsertions := 4; totalDeletions := 1;
                   filesChanged := 1 |};
     raw := lit "diff --git a/src/parser.ts b/src/parser.ts" |}.

Definition sample_backend : GitBackend :=
  {| isValidRepository := true; hasStagedChanges := true;
     getStagedDiff := Some sample_diff;
     getCurrentBranch := Some (lit "main"); getRepoName := Some (lit "git-ai");
     getRecentCommits := []; commitSucceeds := fun _ => true |}.

Definition sample_round (a : Action) : Round :=
  {| repo := sample_backend; reply := ReplyContent (Some example_response);
     action := a; editedMessage := [] |}.

Definition sample_config (tokens temp : float) : AppConfig :=
  {| ai := {| apiKey := lit "sk-test"; model := lit "gpt-4o-mini";
              maxTokens := tokens; temperature := temp;
              organization := None |};
     git := {| defaultStyle := conventional; maxDiffSize := 50000;
               excludeFiles := [] |} |}.

Definition commit_options : CLI.Options :=
  {| CLI.commit := true; CLI.interactive := false;
     CLI.style := Some conventional; CLI.dryRun := false;
     CLI.verbose := false |}.

(** What [sanitizeCommitMessage] writes for one unit, how the escapes
    are read back, and whether every special unit of a text is
    escaped. *)
Definition escape_unit (c : code_unit) : jsstring :=
  if shell_special c then [BACKSLASH; c]
  else if (c =? NL)%N then [NL; NL]
  else [c].

Fixpoint unescape (s : jsstring) : jsstring :=
  match s with
  | [] => []
  | c :: s' =>
      if (c =? BACKSLASH)%N then
        match s' with
        | d :: s'' => d :: unescape s''
        | [] => [c]
        end
      else if (c =? NL)%N then
        match s' with
        | d :: s'' => if (d =? NL)%N then NL :: unescape s''
                      else NL :: unescape s'
        | [] => [NL]
        end
      else c :: unescape s'
  end.

Fixpoint escaped (s : jsstring) : bool :=
  match s with
  | [] => true
  | c :: s' =>
      if (c =? BACKSLASH)%N then
        match s' with
        | _ :: s'' => escaped s''
        | [] => false
        end
      else negb (shell_special c) && escaped s'
  end.

(** Whether a text holds an empty line inside: two line breaks in a
    row. *)
Fixpoint has_blank_line (s : jsstring) : bool :=
  match s with
  | a :: s' =>
      match s' with
      | b :: _ => ((a =? NL)%N && (b =? NL)%N) || has_blank_line s'
      | [] => false
      end
  | [] => false
  end.

(** Words for the runs of the flow: the failures of the generation
    service, a message that came out of the interpreter, the two ways a
    commit ends, and whether the user is asked before a commit. *)
Definition service_failure (f : Failure) : Prop :=
  match f with
  | OpenAIAPIError _ | GenerationFailed _ => True
  | _ => False
  end.

Definition parsed (g : GeneratedCommit) : Prop :=
  exists content style,
    content <> [] /\ parseAIResponse content style = inr g.

Definition commit_outcome (o : Outcome) : Prop :=
  o = Returned \/ o = Threw CommitFailed.

Definition asks (options : CLI.Options) : bool :=
  CLI.interactive options || negb (CLI.commit options).

Definition count_calls (l : list Event) : nat :=
  length (filter (fun e => match e with ProviderCall _ => true | _ => false end) l).


Definition is_prompt (e : Event) : bool :=
  match e with
  | Asked _ | EditAnswer _ => true
  | _ => false
  end.

(** What the interpreter makes of [example_response]. *)
Definition sample_generated : GeneratedCommit :=
  {| message := {| title := lit "fix(parser)!: handle edge case";
                   body := Some (lit "Details here.");
                   type := Some (lit "fix"); scope := Some (lit "parser");
                   breaking := Some true; footer := None |};
     confidence := 0x1.fffffffffffffp-1 |}.

Definition dry_options : CLI.Options :=
  {| CLI.commit := true; CLI.interactive := true;
     CLI.style := Some conventional; CLI.dryRun := true;
     CLI.verbose := false |}.

Definition sample_request : Request :=
  request_of (ai (sample_config 100 0.7))
    (promptContext (sample_config 100 0.7) commit_options sample_backend
       sample_diff).

(** A prompt context with another raw diff, or other prior commits. *)
Definition with_raw (context : AIPromptContext) (r : jsstring)
    : AIPromptContext :=
  {| diff := {| files := files (diff context);
                summary := summary (diff context); raw := r |};
     style := style context; repoName := repoName context;
     branch := branch context;
     previousCommits := previousCommits context |}.

Definition with_commits (context : AIPromptContext) (cs : list jsstring)
    : AIPromptContext :=
  {| diff := diff context; style := style context;
     repoName := repoName context; branch := branch context;
     previousCommits := Some cs |}.

(** The lines of a diff that [parseChangedLines] tells apart: a hunk
    header begins with '@@'; an added line begins with '+' but not with
    '+++', a removed line with '-' but not with '---'. *)
Definition hunk_line (line : jsstring) : bool := startsWith line (lit "@@").

Definition added_line (line : jsstring) : bool :=
  startsWith line (lit "+") && negb (startsWith line (lit "+++")).

Definition removed_line (line : jsstring) : bool :=
  startsWith line (lit "-") && negb (startsWith line (lit "---")).

(** A line that stands for a line of the new file as far as the counter
    goes: neither a header, nor removed, nor a '\' remark. *)
Definition counted_line (line : jsstring) : bool :=
  negb (hunk_line line) && negb (removed_line line)
  && negb (startsWith line [BACKSLASH]).

Definition count_lines (p : jsstring -> bool) (lines : list jsstring) : nat :=
  length (filter p lines).

(** A range of a hunk header after its start: nothing, or a comma and
    digits. *)
Definition hunk_range (s : jsstring) : Prop :=
  s = [] \/ exists n, s = COMMA :: n /\ forallb digit n = true.

(** The decimal value of a text of digits. *)
Definition decimal (s : jsstring) : N :=
  fold_left (fun n c => (10 * n + (c - 48))%N) s 0%N.

(** The requests of a trace, in order. *)
Definition calls (l : list Event) : list Request :=
  flat_map (fun e => match e with ProviderCall r => [r] | _ => [] end) l.

Definition sample_git : SimpleGit :=
  {| stagedAnswers :=
       {| checkIsRepo := true; stagedPaths := [lit "src/parser.ts"];
          stagedDiffText := lit "diff --git a/src/parser.ts b/src/parser.ts";
          stagedSummary :=
            {| result_files := [TextFile (lit "src/parser.ts") 5 4 1];
               result_insertions := 4; result_deletions := 1 |};
          diffOfFile := fun _ => lit "@@ -1,2 +1,5 @@" |};
     getRemotes :=
       Some [{| remote_name := lit "origin";
                remote_fetch := lit "https://github.com/hauran/git-ai.git" |}];
     branchLocal := Some (lit "main");
     logMessages := Some [];
     commitResolves := fun _ => true |}.

(** * Properties *)

(** Two concatenations of the same pieces, bracketed differently. *)
Ltac same_text :=
  repeat (progress (simpl; repeat rewrite <- app_assoc;
                    repeat rewrite app_nil_r));
  reflexivity.

(** ** Lists of code units *)

Section StringFacts.

Lemma clamp_nat (len n : nat) : clamp len (Z.of_nat n) = Nat.min n len.
Proof. unfold clamp. lia. Qed.

Lemma clamp_neg (len : nat) (i : Z) : (i <= 0)%Z -> clamp len i = 0.
Proof. unfold clamp. lia. Qed.

Lemma substring_prefix (s : jsstring) (n : nat) :
  substring s 0 (Z.of_nat n) = firstn n s.
Proof.
  unfold substring. rewrite clamp_nat, (clamp_neg _ (i:=0%Z)) by lia.
  rewrite Nat.min_0_l, Nat.max_0_l, Nat.sub_0_r. simpl.
  destruct (Nat.le_ge_cases n (length s)) as [H | H].
  - now rewrite Nat.min_l.
  - rewrite Nat.min_r by assumption.
    now rewrite !firstn_all2 by lia.
Qed.

Lemma substring_to_negative (s : jsstring) (i : Z) :
  (i <= 0)%Z -> substring s 0 i = [].
Proof.
  intros H. unfold substring.
  rewrite (clamp_neg _ (i:=0%Z)), (clamp_neg _ H) by lia. reflexivity.
Qed.

Lemma lastIndexOf_range (c : code_unit) (s : jsstring) :
  (-1 <= lastIndexOf c s < Z.of_nat (length s))%Z.
Proof.
  induction s as [| x s IH]; simpl; [lia |].
  destruct (0 <=? lastIndexOf c s)%Z eqn:E; [lia |].
  destruct (x =? c)%N; lia.
Qed.

Lemma lastIndexOf_found (c : code_unit) (s : jsstring) :
  (0 <= lastIndexOf c s)%Z ->
  exists a b, s = a ++ c :: b /\ Z.of_nat (length a) = lastIndexOf c s.
Proof.
  induction s as [| x s IH]; simpl; [lia |].
  destruct (0 <=? lastIndexOf c s)%Z eqn:E.
  - intros _. apply Z.leb_le in E. destruct (IH E) as (a & b & -> & Hl).
    exists (x :: a), b. split; [reflexivity | simpl length; lia].
  - destruct (x =? c)%N eqn:Ex; [| lia].
    intros _. apply N.eqb_eq in Ex. subst x. now exists [], s.
Qed.

Lemma lastIndexOf_absent (c : code_unit) (s : jsstring) :
  (lastIndexOf c s < 0)%Z -> ~ In c s.
Proof.
  induction s as [| x s IH]; simpl; [tauto |].
  destruct (0 <=? lastIndexOf c s)%Z eqn:E.
  - pose proof (lastIndexOf_range c s). lia.
  - apply Z.leb_gt in E. destruct (x =? c)%N eqn:Ex; [lia |].
    apply N.eqb_neq in Ex. intros _ [H | H]; [congruence | now apply IH].
Qed.

Lemma split_nonempty (c : code_unit) (s : jsstring) : split c s <> [].
Proof.
  destruct s as [| x s]; simpl; [discriminate |].
  destruct (x =? c)%N; [discriminate |].
  destruct (split c s); discriminate.
Qed.

Lemma split_app (c : code_unit) (a b : jsstring) :
  split c (a ++ c :: b) = split c a ++ split c b.
Proof.
  induction a as [| x a IH]; simpl.
  - now rewrite N.eqb_refl.
  - destruct (x =? c)%N; [now rewrite IH |].
    rewrite IH. pose proof (split_nonempty c a).
    destruct (split c a); [congruence | reflexivity].
Qed.

Lemma join_split (c : code_unit) (s : jsstring) : join [c] (split c s) = s.
Proof.
  induction s as [| x s IH]; simpl; [reflexivity |].
  destruct (x =? c)%N eqn:E.
  - apply N.eqb_eq in E. subst x. pose proof (split_nonempty c s).
    simpl. destruct (split c s); [congruence |]. simpl in *. now rewrite IH.
  - pose proof (split_nonempty c s).
    destruct (split c s) as [| l ls]; [congruence |].
    destruct ls; simpl in *; now rewrite <- IH.
Qed.

Lemma split_no_sep (c : code_unit) (s : jsstring) :
  Forall (fun l => ~ In c l) (split c s).
Proof.
  induction s as [| x s IH]; simpl.
  - constructor; [tauto | constructor].
  - destruct (x =? c)%N eqn:E.
    + constructor; [tauto | assumption].
    + apply N.eqb_neq in E. pose proof (split_nonempty c s) as Hne.
      destruct (split c s) as [| l ls]; [congruence |].
      inversion IH as [| ? ? Hl Hls]; subst. constructor; [| assumption].
      intros [Hx | Hx]; [congruence | tauto].
Qed.

End StringFacts.

(** ** Truncation of the diff *)

Section Truncation.

Lemma truncateDiff_short (diff : jsstring) (maxLength : Z) :
  (Z.of_nat (length diff) <= maxLength)%Z -> truncateDiff diff maxLength = diff.
Proof.
  intros H. unfold truncateDiff. apply Z.leb_le in H. now rewrite H.
Qed.

(** The text kept by a truncation: it stops right before a line break of
    the diff, or it is empty. *)
Lemma truncateDiff_long (diff : jsstring) (maxLength : nat) :
  maxLength < length diff ->
  exists kept,
    truncateDiff diff (Z.of_nat maxLength) = kept ++ truncation_marker /\
    ((exists rest, diff = kept ++ NL :: rest /\ length kept < maxLength) \/
     (kept = [] /\ ~ In NL (firstn maxLength diff))).
Proof.
  intros H. unfold truncateDiff.
  destruct (Z.of_nat (length diff) <=? Z.of_nat maxLength)%Z eqn:E;
    [apply Z.leb_le in E; lia |].
  cbv zeta. rewrite substring_prefix.
  set (truncated := firstn maxLength diff).
  destruct (Z_lt_le_dec (lastIndexOf NL truncated) 0) as [Hn | Hp].
  - exists []. rewrite substring_to_negative by lia. split; [reflexivity |].
    right. split; [reflexivity |]. now apply lastIndexOf_absent.
  - destruct (lastIndexOf_found NL truncated Hp) as (a & b & Ht & Hl).
    exists a. rewrite <- Hl, substring_prefix. rewrite Ht at 1.
    rewrite firstn_app, firstn_all, Nat.sub_diag. simpl. rewrite app_nil_r.
    split; [reflexivity |]. left. exists (b ++ skipn maxLength diff). split.
    + rewrite <- (firstn_skipn maxLength diff) at 1. fold truncated.
      rewrite Ht, <- app_assoc. reflexivity.
    + assert (length truncated <= maxLength) by apply firstn_le_length.
      rewrite Ht, length_app in H0. simpl in H0. lia.
Qed.

Lemma whole_lines (kept rest : jsstring) :
  kept = join [NL] (firstn (length (split NL kept))
                      (split NL (kept ++ NL :: rest))).
Proof.
  rewrite split_app, firstn_app, Nat.sub_diag, firstn_all. simpl.
  now rewrite app_nil_r, join_split.
Qed.

End Truncation.

(** C1. A diff no longer than the maximum is embedded unchanged.  A longer
    one is embedded as a text [kept] followed by the truncation marker,
    where [kept] stops exactly at a line break of the diff (or is empty
    when the first [maxLength] units hold no line break), is made of the
    first [k] whole lines of the diff and of nothing else, and the result
    is no longer than the maximum plus the length of the marker; it is
    shorter than that as soon as the maximum is not zero, so the bound
    also holds when the line break that starts the marker is not counted
    with it. *)
Theorem truncateDiff_spec (diff : jsstring) (maxLength : nat) :
  (length diff <= maxLength ->
   truncateDiff diff (Z.of_nat maxLength) = diff) /\
  (maxLength < length diff ->
   exists kept,
     truncateDiff diff (Z.of_nat maxLength) = kept ++ truncation_marker /\
     ((exists rest, diff = kept ++ NL :: rest) \/
      (kept = [] /\ ~ In NL (firstn maxLength diff))) /\
     (exists k, kept = join [NL] (firstn k (split NL diff))) /\
     length (truncateDiff diff (Z.of_nat maxLength))
       <= maxLength + length truncation_marker /\
     (0 < maxLength ->
      length (truncateDiff diff (Z.of_nat maxLength))
        < maxLength + length truncation_marker)).
Proof.
  split.
  - intros H. apply truncateDiff_short. lia.
  - intros H. destruct (truncateDiff_long diff H) as (kept & Hk & Hb).
    exists kept. split; [assumption |].
    destruct Hb as [(rest & Hd & Hl) | (Hd & Hn)].
    + split; [left; now exists rest |]. split.
      * exists (length (split NL kept)). rewrite Hd. apply whole_lines.
      * rewrite Hk, length_app. lia.
    + split; [right; now split |]. split.
      * exists 0. now subst kept.
      * rewrite Hk, length_app. subst kept. simpl. lia.
Qed.

(** The default bound of [buildPrompt] as an instance: two runs, one
    short and one cut after its second line. *)
Lemma truncateDiff_spec_witness :
  truncateDiff (lit "a") (Z.of_nat 3000) = lit "a" /\
  exists kept,
    truncateDiff (lit "ab" ++ NL :: lit "cd" ++ NL :: lit "efgh") (Z.of_nat 7)
      = kept ++ truncation_marker /\
    ((exists rest,
        lit "ab" ++ NL :: lit "cd" ++ NL :: lit "efgh" = kept ++ NL :: rest) \/
     (kept = [] /\
      ~ In NL (firstn 7 (lit "ab" ++ NL :: lit "cd" ++ NL :: lit "efgh")))) /\
    (exists k,
        kept = join [NL]
                 (firstn k (split NL
                    (lit "ab" ++ NL :: lit "cd" ++ NL :: lit "efgh")))) /\
    length (truncateDiff (lit "ab" ++ NL :: lit "cd" ++ NL :: lit "efgh")
              (Z.of_nat 7))
      <= 7 + length truncation_marker /\
    (0 < 7 ->
     length (truncateDiff (lit "ab" ++ NL :: lit "cd" ++ NL :: lit "efgh")
               (Z.of_nat 7))
       < 7 + length truncation_marker).
Proof.
  split.
  - apply (proj1 (truncateDiff_spec (lit "a") 3000)). simpl. lia.
  - apply (proj2 (truncateDiff_spec
                    (lit "ab" ++ NL :: lit "cd" ++ NL :: lit "efgh") 7)).
    simpl. lia.
Defined.

(** ** Blank texts, first lines, final periods *)

Section Validation.

Lemma dropWhile_nil (p : code_unit -> bool) (s : jsstring) :
  dropWhile p s = [] <-> forallb p s = true.
Proof.
  induction s as [| x s IH]; simpl; [tauto |].
  destruct (p x); simpl; [assumption |].
  split; discriminate.
Qed.

Lemma dropWhile_head (p : code_unit -> bool) (s : jsstring) :
  match dropWhile p s with
  | [] => True
  | x :: _ => p x = false
  end.
Proof.
  induction s as [| x s IH]; simpl; [exact I |].
  destruct (p x) eqn:E; [assumption | exact E].
Qed.

Lemma forallb_rev (p : code_unit -> bool) (s : jsstring) :
  forallb p (rev s) = forallb p s.
Proof.
  induction s as [| x s IH]; simpl; [reflexivity |].
  rewrite forallb_app, IH. simpl. rewrite andb_true_r. apply andb_comm.
Qed.

Lemma trim_nil (s : jsstring) : trim s = [] <-> blank s = true.
Proof.
  unfold trim, dropWhileEnd, blank. split.
  - intros H. apply (f_equal (@rev code_unit)) in H.
    rewrite rev_involutive in H. simpl in H.
    apply dropWhile_nil in H. rewrite forallb_rev in H.
    pose proof (dropWhile_head is_space s) as Hh.
    destruct (dropWhile is_space s) as [| x d] eqn:E.
    + now apply dropWhile_nil.
    + simpl in H. rewrite Hh in H. discriminate.
  - intros H. apply dropWhile_nil in H. now rewrite H.
Qed.

Lemma truthy_trim (s : jsstring) : truthy (trim s) = negb (blank s).
Proof.
  destruct (blank s) eqn:E.
  - apply trim_nil in E. now rewrite E.
  - destruct (trim s) eqn:T; [| reflexivity].
    apply trim_nil in T. congruence.
Qed.

Lemma hd_split (s : jsstring) : hd [] (split NL s) = first_line s.
Proof.
  induction s as [| x s IH]; simpl; [reflexivity |].
  destruct (x =? NL)%N; [reflexivity |].
  pose proof (split_nonempty NL s) as Hne.
  destruct (split NL s); [congruence |]. simpl in *. now rewrite IH.
Qed.

Lemma endsWith_iff (s : jsstring) (c : code_unit) :
  endsWith s c = true <-> exists pre, s = pre ++ [c].
Proof.
  unfold endsWith. split.
  - intros H. destruct (rev s) as [| x r] eqn:E; [discriminate |].
    apply N.eqb_eq in H. subst x. exists (rev r).
    apply (f_equal (@rev code_unit)) in E. rewrite rev_involutive in E.
    exact E.
  - intros [pre ->]. rewrite rev_app_distr. simpl. apply N.eqb_refl.
Qed.

End Validation.

(** C7. A blank text is refused under every style.  Under the standard
    style a text that is not blank is refused exactly when its first
    line is longer than 50 units or ends with a period, and accepted
    otherwise. *)
Theorem validateCommitMessage_spec (text : jsstring) :
  (blank text = true ->
   forall style, validateCommitMessage text style = false) /\
  (blank text = false ->
   (validateCommitMessage text standard = false <->
    50 < length (first_line text) \/ exists pre, first_line text = pre ++ [DOT]) /\
   (validateCommitMessage text standard = true <->
    length (first_line text) <= 50 /\
    ~ exists pre, first_line text = pre ++ [DOT])).
Proof.
  unfold validateCommitMessage, validateStandardCommit.
  rewrite truthy_trim, hd_split. split.
  - intros ->. reflexivity.
  - intros ->. simpl. rewrite <- endsWith_iff.
    destruct (Nat.leb_spec (length (first_line text)) 50) as [Hl | Hl];
      destruct (endsWith (first_line text) DOT) eqn:He; simpl;
      intuition (try discriminate; try lia; try congruence).
Qed.

Lemma validateCommitMessage_spec_witness :
  (forall style, validateCommitMessage (lit "  ") style = false) /\
  (validateCommitMessage (lit "Add parser.") standard = false <->
   50 < length (first_line (lit "Add parser.")) \/
   exists pre, first_line (lit "Add parser.") = pre ++ [DOT]).
Proof.
  split.
  - apply (proj1 (validateCommitMessage_spec (lit "  "))). reflexivity.
  - apply (proj2 (validateCommitMessage_spec (lit "Add parser."))).
    reflexivity.
Defined.

(** ** The formatter *)

(** A message that has a scope and is breaking but has no type: the
    formatted text is the title alone, without the scope and without
    the [!].  A message that has a title and nothing else: the formatted
    text is the title alone, without [: ] before it. *)
Lemma format_scope_without_type :
  let m := {| title := lit "x"; body := None; type := None;
              scope := Some (lit "api"); breaking := Some true;
              footer := None |} in
  let m0 := {| title := lit "x"; body := None; type := None;
               scope := None; breaking := Some false; footer := None |} in
  present (scope m) = true /\ breaking m = Some true /\
  formatCommitMessage m conventional = lit "x" /\
  includes (formatCommitMessage m conventional) LPAREN = false /\
  includes (formatCommitMessage m conventional) BANG = false /\
  formatCommitMessage m0 conventional = lit "x".
Proof. repeat split. Qed.

(** C9, amended. The conventional format is the header, the title, then
    a blank line and the body when there is a body, then a blank line
    and the footer when there is a footer.  The header is empty when the
    message has no type, whatever its scope and breaking flag; with a
    type it is the type, [(scope)] when there is a scope, [!] when the
    change is breaking, and [: ]. *)
Theorem formatConventional_spec (m : CommitMessage) :
  formatCommitMessage m conventional
  = conventional_prefix m ++ title m ++ trailing_section (body m)
      ++ trailing_section (footer m).
Proof.
  unfold formatCommitMessage, formatConventionalCommit, conventional_prefix,
    trailing_section.
  destruct (type m) as [t |]; [destruct (truthy t) |];
    destruct (scope m) as [s |]; try destruct (truthy s);
    destruct (breaking m) as [[|] |];
    destruct (body m) as [b |]; try destruct (truthy b);
    destruct (footer m) as [f |]; try destruct (truthy f);
    same_text.
Qed.

(** ** The prompt *)

Section Prompt.

Lemma fold_file_line (fs : list GitFile) (prompt : jsstring) :
  fold_left file_line fs prompt
  = prompt ++ concat (List.map (fun f => lit "- " ++ rendered_file f ++ [NL]) fs).
Proof.
  revert prompt. induction fs as [| f fs IH]; intros prompt; simpl.
  - now rewrite app_nil_r.
  - rewrite IH. unfold file_line, rendered_file. same_text.
Qed.

Lemma fold_commit_line (cs : list jsstring) (prompt : jsstring) :
  fold_left commit_line cs prompt
  = prompt ++ concat (List.map (fun s => lit "- " ++ s ++ [NL]) cs).
Proof.
  revert prompt. induction cs as [| c cs IH]; intros prompt; simpl.
  - now rewrite app_nil_r.
  - rewrite IH. unfold commit_line. same_text.
Qed.

Lemma truncateDiff_length (diff : jsstring) (maxLength : nat) :
  length (truncateDiff diff (Z.of_nat maxLength))
    <= maxLength + length truncation_marker.
Proof.
  destruct (Nat.le_gt_cases (length diff) maxLength) as [H | H].
  - rewrite truncateDiff_short by lia. lia.
  - destruct (truncateDiff_long diff H) as (kept & -> & [(r & _ & Hl) | (-> & _)]);
      rewrite length_app; simpl; lia.
Qed.

End Prompt.

(** C5. The user prompt is, in this order: the task header naming the
    style, the repository line if there is a repository name, the branch
    line if there is a branch, the files section with one line per file
    change in the order of the input, the section of the first three
    prior commits if any was supplied, the raw diff truncated at 3000
    units inside a code fence, and the closing instruction.  The
    embedded diff is no longer than 3000 units plus the marker. *)
Theorem buildPrompt_spec (context : AIPromptContext) :
  buildPrompt context
  = task_header (style context)
      ++ repository_line (repoName context)
      ++ branch_line (branch context)
      ++ files_section (diff context)
      ++ commits_section (previousCommits context)
      ++ diff_block (truncateDiff (raw (diff context)) 3000)
      ++ closing_instruction (style context)
  /\ length (truncateDiff (raw (diff context)) 3000)
       <= 3000 + length truncation_marker.
Proof.
  split; [| apply (truncateDiff_length (raw (diff context)) 3000)].
  unfold buildPrompt, task_header, repository_line, branch_line,
    files_section, commits_section, diff_block, closing_instruction, slice0.
  cbv zeta. rewrite fold_file_line.
  destruct (repoName context) as [r |]; [destruct (truthy r) |];
    (destruct (branch context) as [b |]; [destruct (truthy b) |]);
    (destruct (previousCommits context) as [[| c cs] |];
     [| rewrite fold_commit_line |]);
    same_text.
Qed.

(** ** The matcher *)

Section RegexFacts.

Lemma or_else_None_r (o : option outcome) : or_else o None = o.
Proof. now destruct o. Qed.

Lemma exec_star_sym (g : bool) (p : code_unit -> bool) (b : bool)
    (s : jsstring) (caps : captures) (k : cont) :
  exec (Star g (Sym p)) b s caps k
  = match s with
    | c :: s' =>
        if p c then
          if g then or_else (exec (Star g (Sym p)) false s' caps k) (k b s caps)
          else or_else (k b s caps) (exec (Star g (Sym p)) false s' caps k)
        else k b s caps
    | [] => k b s caps
    end.
Proof.
  destruct s as [| c s']; simpl.
  - destruct g; simpl; [reflexivity | apply or_else_None_r].
  - destruct (p c) eqn:E.
    + assert ((length s' <? S (length s')) = true) as Hlt
        by (apply Nat.ltb_lt; lia).
      destruct g; simpl; rewrite Hlt; reflexivity.
    + destruct g; simpl; [reflexivity | apply or_else_None_r].
Qed.

Lemma exec_Eps b s caps k : exec Eps b s caps k = k b s caps.
Proof. reflexivity. Qed.

Lemma exec_Sym_cons p b c s caps k :
  exec (Sym p) b (c :: s) caps k = if p c then k false s caps else None.
Proof. reflexivity. Qed.

Lemma exec_Sym_nil p b caps k : exec (Sym p) b [] caps k = None.
Proof. reflexivity. Qed.

Lemma exec_Unit_cons u b c s caps k :
  exec (Unit u) b (c :: s) caps k = if (u =? c)%N then k false s caps else None.
Proof. reflexivity. Qed.

Lemma exec_Unit_nil u b caps k : exec (Unit u) b [] caps k = None.
Proof. reflexivity. Qed.

Lemma exec_Cat r1 r2 b s caps k :
  exec (Cat r1 r2) b s caps k
  = exec r1 b s caps (fun b' s' caps' => exec r2 b' s' caps' k).
Proof. reflexivity. Qed.

Lemma exec_Seq_cons r rs b s caps k :
  exec (Seq (r :: rs)) b s caps k
  = exec r b s caps (fun b' s' caps' => exec (Seq rs) b' s' caps' k).
Proof. reflexivity. Qed.

Lemma exec_Seq_nil b s caps k : exec (Seq []) b s caps k = k b s caps.
Proof. reflexivity. Qed.

Lemma exec_Plus g r b s caps k :
  exec (Plus g r) b s caps k
  = exec r b s caps (fun b' s' caps' => exec (Star g r) b' s' caps' k).
Proof. reflexivity. Qed.

Lemma exec_Alt r1 r2 b s caps k :
  exec (Alt r1 r2) b s caps k
  = or_else (exec r1 b s caps k) (exec r2 b s caps k).
Proof. reflexivity. Qed.

Lemma exec_Opt r b s caps k :
  exec (Opt r) b s caps k = or_else (exec r b s caps k) (k b s caps).
Proof. reflexivity. Qed.

Lemma exec_Group n r b s caps k :
  exec (Group n r) b s caps k
  = exec r b s caps (fun b' s' caps' =>
      k b' s' ((n, firstn (length s - length s') s) :: caps')).
Proof. reflexivity. Qed.

Lemma exec_Bol b s caps k :
  exec Bol b s caps k = if b then k b s caps else None.
Proof. reflexivity. Qed.

Lemma exec_Eol_nil b caps k : exec Eol b [] caps k = k b [] caps.
Proof. reflexivity. Qed.

Lemma exec_Eol_cons b c s caps k : exec Eol b (c :: s) caps k = None.
Proof. reflexivity. Qed.

End RegexFacts.

Arguments exec : simpl never.

Create Rewrite HintDb re.
#[local] Hint Rewrite exec_Eps exec_Sym_cons exec_Sym_nil exec_Unit_cons
  exec_Unit_nil exec_Cat exec_Seq_cons exec_Seq_nil exec_Plus exec_Alt exec_Opt
  exec_Group exec_Bol exec_Eol_nil exec_Eol_cons : re.

(** Run the matcher over the part of the input that is known. *)
Ltac re_steps := repeat (autorewrite with re; cbv beta).

Section StarFacts.

Variable p : code_unit -> bool.

(** Whatever a star over a class returns, its continuation returned it
    after a run of units of the class. *)
Lemma star_elim (g b : bool) (s : jsstring) (caps : captures) (k : cont)
    (y : outcome) :
  exec (Star g (Sym p)) b s caps k = Some y ->
  exists w r, s = w ++ r /\ forallb p w = true /\ k (after b w) r caps = Some y.
Proof.
  revert b. induction s as [| c s IH]; intros b; rewrite exec_star_sym.
  - intros H. now exists [], [].
  - destruct (p c) eqn:E.
    + intros H.
      assert (exec (Star g (Sym p)) false s caps k = Some y \/
              k b (c :: s) caps = Some y) as [H1 | H1].
      { revert H. destruct g; unfold or_else;
          [destruct (exec (Star true (Sym p)) false s caps k)
          |destruct (k b (c :: s) caps)]; intros H; auto. }
      * destruct (IH false H1) as (w & r & -> & Hw & Hk).
        exists (c :: w), r. simpl. rewrite E, Hw.
        repeat split. destruct w; exact Hk.
      * now exists [], (c :: s).
    + intros H. now exists [], (c :: s).
Qed.

(** A greedy star hands its whole run to a continuation that accepts
    it. *)
Lemma star_greedy_longest (b : bool) (w r : jsstring) (caps : captures)
    (k : cont) (y : outcome) :
  forallb p w = true ->
  match r with c :: _ => p c = false | [] => True end ->
  k (after b w) r caps = Some y ->
  exec (Star true (Sym p)) b (w ++ r) caps k = Some y.
Proof.
  revert b. induction w as [| c w IH]; intros b Hw Hr Hk;
    rewrite exec_star_sym; simpl in *.
  - destruct r as [| c r]; [exact Hk |]. now rewrite Hr.
  - apply andb_prop in Hw. destruct Hw as [Hc Hw]. rewrite Hc.
    rewrite (IH false Hw Hr); [reflexivity |]. destruct w; exact Hk.
Qed.

(** A star succeeds as soon as its continuation accepts one of the
    runs. *)
Lemma star_some (g b : bool) (w r : jsstring) (caps : captures) (k : cont) :
  forallb p w = true ->
  k (after b w) r caps <> None ->
  exec (Star g (Sym p)) b (w ++ r) caps k <> None.
Proof.
  revert b. induction w as [| c w IH]; intros b Hw Hk;
    rewrite exec_star_sym; simpl in *.
  - destruct r as [| c r]; [exact Hk |].
    destruct (p c); [| exact Hk].
    destruct g; unfold or_else;
      destruct (exec _ false r caps k); destruct (k b (c :: r) caps);
      congruence.
  - apply andb_prop in Hw. destruct Hw as [Hc Hw]. rewrite Hc.
    assert (exec (Star g (Sym p)) false (w ++ r) caps k <> None) as Hs
      by (apply IH; [assumption | destruct w; exact Hk]).
    destruct g; unfold or_else;
      destruct (exec _ false (w ++ r) caps k);
      destruct (k b (c :: w ++ r) caps); congruence.
Qed.

End StarFacts.

Section SearchFacts.

Lemma search_bol_false (r : regex) (s : jsstring) :
  search (Cat Bol r) false s = None.
Proof.
  induction s as [| c s IH]; simpl; [reflexivity | now rewrite IH].
Qed.

(** A pattern that starts with [^] matches at index 0 or nowhere. *)
Lemma search_bol (r : regex) (s : jsstring) :
  search (Cat Bol r) true s
  = match match_here (Cat Bol r) true s with
    | Some (post, caps) => Some ([], post, caps)
    | None => None
    end.
Proof.
  destruct s as [| c s]; simpl.
  - now destruct (match_here (Cat Bol r) true []) as [[? ?] |].
  - destruct (match_here (Cat Bol r) true (c :: s)) as [[? ?] |];
      [reflexivity |].
    now rewrite search_bol_false.
Qed.

(** A pattern that matches exactly the texts [q] accepts, and only up
    to the end of the input, matches at the first index whose suffix
    [q] accepts. *)
Lemma search_suffix (r : regex) (q : jsstring -> bool) (caps : captures) :
  (forall b s, match_here r b s = if q s then Some ([], caps) else None) ->
  forall b s,
    search r b s
    = if existsb q (tails s) then Some (cut_at q s, [], caps) else None.
Proof.
  intros H b s. revert b.
  induction s as [| c s IH]; intros b; simpl; rewrite H.
  - destruct (q []); reflexivity.
  - destruct (q (c :: s)); simpl; [reflexivity |].
    rewrite IH. destruct (existsb q (tails s)); reflexivity.
Qed.

End SearchFacts.

(** ** The patterns of the cleanup *)

Section CleanupPatterns.

(** A lazy star over every unit, followed by a line break, reads up to
    the first line break. *)
Lemma lazy_until_line_break (b : bool) (s : jsstring) (caps : captures)
    (k : cont) :
  (forall b' s' c', k b' s' c' =
     match s' with
     | x :: t => if (NL =? x)%N then Some (t, c') else None
     | [] => None
     end) ->
  exec (Star false (Sym any_unit)) b s caps k
  = match after_line_break s with
    | Some t => Some (t, caps)
    | None => None
    end.
Proof.
  intros Hk. revert b.
  induction s as [| c s IH]; intros b; rewrite exec_star_sym, Hk;
    [reflexivity |].
  assert (any_unit c = true) as -> by (unfold any_unit; apply orb_negb_r).
  cbn [after_line_break]. destruct (NL =? c)%N; cbn [or_else];
    [reflexivity | apply IH].
Qed.

(** A greedy star before the end of the pattern reads its whole run. *)
Lemma greedy_then_done (p : code_unit -> bool) (b : bool) (s : jsstring)
    (caps : captures) (k : cont) :
  (forall b' s' c', k b' s' c' = Some (s', c')) ->
  exec (Star true (Sym p)) b s caps k = Some (dropWhile p s, caps).
Proof.
  intros Hk. revert b.
  induction s as [| c s IH]; intros b; rewrite exec_star_sym;
    [apply Hk |].
  cbn [dropWhile]. destruct (p c); [now rewrite IH | apply Hk].
Qed.

(** A greedy star before [$] needs its run to reach the end. *)
Lemma greedy_then_eol (p : code_unit -> bool) (b : bool) (s : jsstring)
    (caps : captures) (k : cont) :
  (forall b' s' c', k b' s' c' =
     match s' with [] => Some ([], c') | _ :: _ => None end) ->
  exec (Star true (Sym p)) b s caps k
  = if forallb p s then Some ([], caps) else None.
Proof.
  intros Hk. revert b.
  induction s as [| c s IH]; intros b; rewrite exec_star_sym;
    [apply Hk |].
  cbn [forallb]. destruct (p c); cbn [andb]; [| apply Hk].
  rewrite IH, Hk. now destruct (forallb p s).
Qed.

Lemma replace_fence_open (s : jsstring) :
  replace fence_open_re s [] = strip_open_fence s.
Proof.
  unfold replace, fence_open_re, Seq. rewrite search_bol. unfold match_here.
  rewrite exec_Cat, exec_Bol.
  destruct s as [| a [| b [| c t]]]; unfold Text;
    cbn [lit list_ascii_of_string List.map Seq]; re_steps;
    change (N_of_ascii "`") with BACKTICK; cbn [strip_open_fence].
  - reflexivity.
  - now destruct (BACKTICK =? a)%N.
  - now destruct (BACKTICK =? a)%N, (BACKTICK =? b)%N.
  - unfold is_tick.
    destruct (BACKTICK =? a)%N, (BACKTICK =? b)%N, (BACKTICK =? c)%N;
      cbn [andb]; try reflexivity.
    rewrite lazy_until_line_break
      by (intros b' [| x s'] c'; reflexivity).
    now destruct (after_line_break t).
Qed.

Lemma match_fence_close (b : bool) (s : jsstring) :
  match_here fence_close_re b s
  = if is_closing_fence s then Some ([], []) else None.
Proof.
  unfold match_here, fence_close_re, Text.
  cbn [lit list_ascii_of_string List.map Seq]. unfold Seq.
  change (N_of_ascii "`") with BACKTICK.
  destruct s as [| x [| y [| z [| u [| v t]]]]]; re_steps;
    cbn [is_closing_fence]; unfold is_tick;
    repeat match goal with
           | |- context [(?a =? ?c)%N] => destruct (a =? c)%N; re_steps
           end;
    reflexivity.
Qed.

Lemma cut_at_none (q : jsstring -> bool) (s : jsstring) :
  existsb q (tails s) = false -> cut_at q s = s.
Proof.
  induction s as [| c s IH]; [reflexivity |].
  cbn [tails existsb cut_at]. intros E. apply orb_false_elim in E.
  destruct E as [-> E]. now rewrite IH.
Qed.

Lemma replace_fence_close (s : jsstring) :
  replace fence_close_re s [] = strip_close_fence s.
Proof.
  unfold replace, strip_close_fence.
  rewrite (@search_suffix fence_close_re is_closing_fence [])
    by (intros; apply match_fence_close).
  destruct (existsb is_closing_fence (tails s)) eqn:E.
  - now rewrite app_nil_r.
  - now rewrite cut_at_none.
Qed.

Lemma replace_leading_ticks (s : jsstring) :
  replace leading_ticks_re s [] = dropWhile is_tick s.
Proof.
  unfold replace, leading_ticks_re, Seq. rewrite search_bol.
  unfold match_here. rewrite exec_Cat, exec_Bol.
  destruct s as [| c s]; re_steps; [reflexivity |].
  cbn [dropWhile]. fold (is_tick c). destruct (is_tick c); [| reflexivity].
  now rewrite (@greedy_then_done (N.eqb BACKTICK)) by reflexivity.
Qed.

Lemma match_trailing_ticks (b : bool) (s : jsstring) :
  match_here trailing_ticks_re b s
  = if all_ticks s then Some ([], []) else None.
Proof.
  unfold match_here, trailing_ticks_re, Seq, all_ticks.
  destruct s as [| c s]; re_steps; [reflexivity |].
  cbn [truthy forallb andb]. fold (is_tick c).
  destruct (is_tick c); [| reflexivity].
  now rewrite (@greedy_then_eol (N.eqb BACKTICK))
    by (intros b' [| x s'] c'; reflexivity).
Qed.

Lemma dropWhile_app (p : code_unit -> bool) (a b : jsstring) :
  dropWhile p (a ++ b)
  = if forallb p a then dropWhile p b else dropWhile p a ++ b.
Proof.
  induction a as [| x a IH]; [reflexivity |].
  cbn [app dropWhile forallb]. destruct (p x); [exact IH | reflexivity].
Qed.

Lemma dropWhileEnd_cons (p : code_unit -> bool) (c : code_unit) (s : jsstring) :
  dropWhileEnd p (c :: s)
  = if p c && forallb p s then [] else c :: dropWhileEnd p s.
Proof.
  unfold dropWhileEnd. cbn [rev]. rewrite dropWhile_app, forallb_rev.
  destruct (forallb p s) eqn:E.
  - assert (dropWhile p (rev s) = []) as ->
      by (apply dropWhile_nil; now rewrite forallb_rev).
    cbn [dropWhile]. now destruct (p c).
  - rewrite rev_app_distr, andb_false_r. reflexivity.
Qed.

Lemma cut_at_all_ticks (s : jsstring) :
  cut_at all_ticks s = dropWhileEnd is_tick s.
Proof.
  induction s as [| c s IH]; [reflexivity |].
  rewrite dropWhileEnd_cons. cbn [cut_at all_ticks truthy forallb andb].
  now rewrite IH.
Qed.

Lemma replace_trailing_ticks (s : jsstring) :
  replace trailing_ticks_re s [] = dropWhileEnd is_tick s.
Proof.
  unfold replace.
  rewrite (@search_suffix trailing_ticks_re all_ticks [])
    by (intros; apply match_trailing_ticks).
  rewrite <- cut_at_all_ticks.
  destruct (existsb all_ticks (tails s)) eqn:E.
  - now rewrite app_nil_r.
  - now rewrite cut_at_none.
Qed.

(** The closing fence, as [strip_close_fence] cuts it. *)
Lemma is_closing_fence_eq (s : jsstring) :
  is_closing_fence s = true <-> s = NL :: lit "```".
Proof.
  split.
  - destruct s as [| a [| b [| c [| d [| e s]]]]]; try discriminate.
    cbn [is_closing_fence]. unfold is_tick. intros H.
    repeat (apply andb_prop in H; destruct H as [H ?]).
    repeat match goal with
           | E : (_ =? _)%N = true |- _ => apply N.eqb_eq in E
           end.
    now subst.
  - intros ->. reflexivity.
Qed.

Lemma strip_close_fence_found (pre : jsstring) :
  strip_close_fence (pre ++ NL :: lit "```") = pre.
Proof.
  unfold strip_close_fence.
  induction pre as [| c pre IH]; [reflexivity |].
  cbn [app cut_at].
  destruct (is_closing_fence (c :: pre ++ NL :: lit "```")) eqn:E.
  - apply is_closing_fence_eq in E. apply (f_equal (@length code_unit)) in E.
    cbn [length] in E. rewrite length_app in E. cbn [length] in E. lia.
  - now rewrite IH.
Qed.

Lemma strip_close_fence_absent (s : jsstring) :
  (forall pre, s <> pre ++ NL :: lit "```") -> strip_close_fence s = s.
Proof.
  unfold strip_close_fence. induction s as [| c s IH]; [reflexivity |].
  intros H. cbn [cut_at].
  destruct (is_closing_fence (c :: s)) eqn:E.
  - apply is_closing_fence_eq in E. exfalso. now apply (H []).
  - rewrite IH; [reflexivity |].
    intros pre ->. now apply (H (c :: pre)).
Qed.

(** The pipeline of replacements is the cleanup said directly. *)
Lemma cleanContent_cleanup (content : jsstring) :
  cleanContent content = cleanup content.
Proof.
  unfold cleanContent, cleanup, strip_ticks.
  now rewrite replace_fence_open, replace_fence_close, replace_leading_ticks,
    replace_trailing_ticks.
Qed.

Lemma nonblank_lines_remaining (text : jsstring) :
  nonblank_lines text = remaining_lines text.
Proof.
  unfold nonblank_lines, remaining_lines. apply filter_ext.
  intros line. apply truthy_trim.
Qed.

End CleanupPatterns.

(** ** A capture group around a greedy [+] over a class *)

Section GroupPlus.

Variables (n : nat) (p : code_unit -> bool).

Lemma firstn_app_minus (x r : jsstring) :
  firstn (length (x ++ r) - length r) (x ++ r) = x.
Proof.
  rewrite length_app, Nat.add_sub, firstn_app, Nat.sub_diag, firstn_all.
  simpl. apply app_nil_r.
Qed.

Lemma group_plus_elim (b : bool) (s : jsstring) (caps : captures) (k : cont)
    (y : outcome) :
  exec (Group n (Plus true (Sym p))) b s caps k = Some y ->
  exists x r, s = x ++ r /\ x <> [] /\ forallb p x = true /\
              k false r ((n, x) :: caps) = Some y.
Proof.
  rewrite exec_Group, exec_Plus.
  destruct s as [| c s]; [discriminate |].
  rewrite exec_Sym_cons. destruct (p c) eqn:E; [| discriminate].
  intros H. apply star_elim in H. destruct H as (w & r & -> & Hw & Hk).
  exists (c :: w), r. repeat split.
  - discriminate.
  - simpl. now rewrite E, Hw.
  - change (c :: w ++ r) with ((c :: w) ++ r) in Hk.
    rewrite firstn_app_minus in Hk. now destruct w.
Qed.

Lemma group_plus_longest (b : bool) (x r : jsstring) (caps : captures)
    (k : cont) (y : outcome) :
  x <> [] -> forallb p x = true ->
  match r with c :: _ => p c = false | [] => True end ->
  k false r ((n, x) :: caps) = Some y ->
  exec (Group n (Plus true (Sym p))) b (x ++ r) caps k = Some y.
Proof.
  intros Hx Hp Hr Hk. rewrite exec_Group, exec_Plus.
  destruct x as [| c w]; [congruence |].
  simpl in Hp. apply andb_prop in Hp. destruct Hp as [Hc Hw].
  change ((c :: w) ++ r) with (c :: w ++ r). rewrite exec_Sym_cons, Hc.
  apply star_greedy_longest; [assumption | assumption |].
  change (c :: w ++ r) with ((c :: w) ++ r). rewrite firstn_app_minus.
  now destruct w.
Qed.

Lemma group_plus_some (b : bool) (x r : jsstring) (caps : captures) (k : cont) :
  x <> [] -> forallb p x = true ->
  k false r ((n, x) :: caps) <> None ->
  exec (Group n (Plus true (Sym p))) b (x ++ r) caps k <> None.
Proof.
  intros Hx Hp Hk. rewrite exec_Group, exec_Plus.
  destruct x as [| c w]; [congruence |].
  simpl in Hp. apply andb_prop in Hp. destruct Hp as [Hc Hw].
  change ((c :: w) ++ r) with (c :: w ++ r). rewrite exec_Sym_cons, Hc.
  apply star_some; [assumption |].
  change (c :: w ++ r) with ((c :: w) ++ r). rewrite firstn_app_minus.
  now destruct w.
Qed.

End GroupPlus.

(** ** The conventional pattern *)

Section ConventionalPattern.

Variable k : cont.
Hypothesis k_done : forall b s caps, k b s caps = Some (s, caps).

Lemma or_else_some (a b : option outcome) (y : outcome) :
  or_else a b = Some y -> a = Some y \/ (a = None /\ b = Some y).
Proof. destruct a; simpl; intros H; [left | right]; auto. Qed.

Lemma tail4_elim (b : bool) (s : jsstring) (caps : captures) (y : outcome) :
  exec (Seq conv_tail4) b s caps k = Some y ->
  s <> [] /\ forallb dot s = true /\ y = ([], (4, s) :: caps).
Proof.
  unfold conv_tail4. rewrite exec_Seq_cons. intros H.
  apply group_plus_elim in H. destruct H as (x & r & -> & Hx & Hd & H).
  rewrite exec_Seq_cons in H. destruct r as [| c r].
  - rewrite exec_Eol_nil, exec_Seq_nil, k_done in H.
    rewrite app_nil_r. injection H as <-. auto.
  - rewrite exec_Eol_cons in H. discriminate.
Qed.

Lemma tail4_some (b : bool) (s : jsstring) (caps : captures) :
  s <> [] -> forallb dot s = true ->
  exec (Seq conv_tail4) b s caps k = Some ([], (4, s) :: caps).
Proof.
  intros Hs Hd. unfold conv_tail4. rewrite exec_Seq_cons.
  rewrite <- (app_nil_r s) at 1.
  apply group_plus_longest; [assumption | assumption | exact I |].
  now rewrite exec_Seq_cons, exec_Eol_nil, exec_Seq_nil, k_done.
Qed.

Lemma tail3_elim (b : bool) (s : jsstring) (caps : captures) (y : outcome) :
  exec (Seq conv_tail3) b s caps k = Some y ->
  exists ws rest,
    s = COLON :: ws ++ rest /\ forallb is_space ws = true /\
    rest <> [] /\ forallb dot rest = true /\ y = ([], (4, rest) :: caps).
Proof.
  unfold conv_tail3. rewrite exec_Seq_cons.
  destruct s as [| c s]; [discriminate |].
  rewrite exec_Unit_cons. destruct (COLON =? c)%N eqn:E; [| discriminate].
  apply N.eqb_eq in E. subst c. rewrite exec_Seq_cons. intros H.
  apply star_elim in H. destruct H as (ws & rest & -> & Hws & H).
  apply tail4_elim in H. destruct H as (Hr & Hd & ->).
  now exists ws, rest.
Qed.

Lemma tail3_some (b : bool) (ws rest : jsstring) (caps : captures) :
  forallb is_space ws = true -> rest <> [] -> forallb dot rest = true ->
  exists x, exec (Seq conv_tail3) b (COLON :: ws ++ rest) caps k
            = Some ([], (4, x) :: caps).
Proof.
  intros Hws Hr Hd.
  destruct (exec (Seq conv_tail3) b (COLON :: ws ++ rest) caps k) as [y |] eqn:E.
  - apply tail3_elim in E. destruct E as (ws' & rest' & _ & _ & _ & _ & ->).
    now exists rest'.
  - exfalso. revert E. unfold conv_tail3.
    rewrite exec_Seq_cons, exec_Unit_cons, N.eqb_refl, exec_Seq_cons.
    apply star_some; [assumption |]. now rewrite tail4_some.
Qed.

Lemma tail2_elim (b : bool) (s : jsstring) (caps : captures) (y : outcome) :
  exec (Seq conv_tail2) b s caps k = Some y ->
  exists bang ws rest,
    s = bang_text bang ++ COLON :: ws ++ rest /\
    forallb is_space ws = true /\ rest <> [] /\ forallb dot rest = true /\
    y = ([], (4, rest) :: bang_caps bang caps).
Proof.
  unfold conv_tail2. rewrite exec_Seq_cons, exec_Opt. intros H.
  apply or_else_some in H. destruct H as [H | [_ H]].
  - rewrite exec_Group in H. destruct s as [| c s]; [discriminate |].
    rewrite exec_Unit_cons in H.
    destruct (BANG =? c)%N eqn:E; [| discriminate].
    apply N.eqb_eq in E. subst c.
    replace (length (BANG :: s) - length s) with 1 in H by (cbn [length]; lia).
    apply tail3_elim in H. destruct H as (ws & rest & -> & Hws & Hr & Hd & ->).
    now exists true, ws, rest.
  - apply tail3_elim in H. destruct H as (ws & rest & -> & Hws & Hr & Hd & ->).
    now exists false, ws, rest.
Qed.

Lemma tail2_some (b bang : bool) (ws rest : jsstring) (caps : captures) :
  forallb is_space ws = true -> rest <> [] -> forallb dot rest = true ->
  exists x,
    exec (Seq conv_tail2) b (bang_text bang ++ COLON :: ws ++ rest) caps k
    = Some ([], (4, x) :: bang_caps bang caps).
Proof.
  intros Hws Hr Hd. unfold conv_tail2. rewrite exec_Seq_cons, exec_Opt.
  destruct bang; cbn [bang_text bang_caps app].
  - rewrite exec_Group, exec_Unit_cons, N.eqb_refl.
    replace (length (BANG :: COLON :: ws ++ rest)
             - length (COLON :: ws ++ rest)) with 1 by (cbn [length]; lia).
    destruct (@tail3_some false ws rest
                ((3, firstn 1 (BANG :: COLON :: ws ++ rest)) :: caps)
                Hws Hr Hd) as (x & ->).
    now exists x.
  - rewrite exec_Group, exec_Unit_cons.
    change (BANG =? COLON)%N with false. cbn [or_else].
    apply tail3_some; assumption.
Qed.

Lemma tail1_elim (b : bool) (s : jsstring) (caps : captures) (y : outcome) :
  exec (Seq conv_tail1) b s caps k = Some y ->
  exists sc bang ws rest,
    s = scope_text sc ++ bang_text bang ++ COLON :: ws ++ rest /\
    match sc with
    | Some s0 => s0 <> [] /\ forallb not_rparen s0 = true
    | None => True
    end /\
    forallb is_space ws = true /\ rest <> [] /\ forallb dot rest = true /\
    y = ([], (4, rest) :: bang_caps bang (scope_caps sc caps)).
Proof.
  unfold conv_tail1. rewrite exec_Seq_cons, exec_Opt. intros H.
  apply or_else_some in H. destruct H as [H | [_ H]].
  - rewrite exec_Seq_cons in H. destruct s as [| c s]; [discriminate |].
    rewrite exec_Unit_cons in H.
    destruct (LPAREN =? c)%N eqn:E; [| discriminate].
    apply N.eqb_eq in E. subst c. rewrite exec_Seq_cons in H.
    apply group_plus_elim in H. destruct H as (s0 & r & -> & Hs0 & Hp & H).
    rewrite exec_Seq_cons in H. destruct r as [| c r]; [discriminate |].
    rewrite exec_Unit_cons in H.
    destruct (RPAREN =? c)%N eqn:E; [| discriminate].
    apply N.eqb_eq in E. subst c. rewrite exec_Seq_nil in H.
    apply tail2_elim in H.
    destruct H as (bang & ws & rest & -> & Hws & Hr & Hd & ->).
    exists (Some s0), bang, ws, rest. cbn [scope_text scope_caps].
    repeat split; try assumption. cbn [app]. now rewrite <- app_assoc.
  - apply tail2_elim in H.
    destruct H as (bang & ws & rest & -> & Hws & Hr & Hd & ->).
    now exists None, bang, ws, rest.
Qed.

Lemma tail1_some (b : bool) (sc : option jsstring) (bang : bool)
    (ws rest : jsstring) (caps : captures) :
  match sc with
  | Some s0 => s0 <> [] /\ forallb not_rparen s0 = true
  | None => True
  end ->
  forallb is_space ws = true -> rest <> [] -> forallb dot rest = true ->
  exists x,
    exec (Seq conv_tail1) b
      (scope_text sc ++ bang_text bang ++ COLON :: ws ++ rest) caps k
    = Some ([], (4, x) :: bang_caps bang (scope_caps sc caps)).
Proof.
  intros Hsc Hws Hr Hd. unfold conv_tail1. rewrite exec_Seq_cons, exec_Opt.
  destruct sc as [s0 |]; cbn [scope_text scope_caps app].
  - destruct Hsc as [Hs0 Hp].
    destruct (@tail2_some false bang ws rest ((2, s0) :: caps) Hws Hr Hd)
      as (x & Hx).
    exists x. rewrite exec_Seq_cons, exec_Unit_cons, N.eqb_refl, exec_Seq_cons.
    rewrite <- app_assoc.
    rewrite (@group_plus_longest 2 not_rparen false s0
               ([RPAREN] ++ bang_text bang ++ COLON :: ws ++ rest) caps _
               ([], (4, x) :: bang_caps bang ((2, s0) :: caps)));
      try assumption; reflexivity.
  - destruct (@tail2_some b bang ws rest caps Hws Hr Hd) as (x & Hx).
    exists x. rewrite Hx.
    assert (exec (Seq [Unit LPAREN; Group 2 (Plus true (Sym not_rparen));
                       Unit RPAREN]) b
              (bang_text bang ++ COLON :: ws ++ rest) caps
              (fun b' s' caps' => exec (Seq conv_tail2) b' s' caps' k) = None)
      as ->; [| reflexivity].
    rewrite exec_Seq_cons. destruct bang; reflexivity.
Qed.

End ConventionalPattern.

Section ConventionalMatch.

Lemma conventional_re_eq :
  conventional_re
  = Cat Bol (Seq (Group 1 (Plus true (Sym is_word)) :: conv_tail1)).
Proof. reflexivity. Qed.

Lemma match_conventional (t : jsstring) :
  match_ conventional_re t
  = match exec (Seq (Group 1 (Plus true (Sym is_word)) :: conv_tail1)) true t []
            (fun _ s' caps => Some (s', caps)) with
    | Some (_, caps) => Some caps
    | None => None
    end.
Proof.
  unfold match_. rewrite conventional_re_eq, search_bol. unfold match_here.
  rewrite exec_Cat, exec_Bol.
  now destruct (exec _ true t [] _) as [[post caps] |].
Qed.

(** What the pattern captures is a reading of the title by the grammar. *)
Lemma conventional_sound (t : jsstring) (caps : captures) :
  match_ conventional_re t = Some caps ->
  exists w sc bang,
    conventional_title t w sc bang /\
    capture 1 caps = Some w /\ capture 2 caps = sc /\
    present (capture 3 caps) = bang.
Proof.
  rewrite match_conventional.
  destruct (exec _ true t [] _) as [[post caps'] |] eqn:E; [| discriminate].
  intros H. injection H as ->. rewrite exec_Seq_cons in E.
  apply group_plus_elim in E. destruct E as (w & r & -> & Hw & Hp & E).
  apply tail1_elim in E; [| reflexivity].
  destruct E as (sc & bang & ws & rest & -> & Hsc & Hws & Hr & Hd & E).
  injection E as -> ->. exists w, sc, bang. split.
  - exists ws, rest. repeat split; assumption.
  - destruct sc, bang; repeat split.
Qed.

(** Every reading of the title by the grammar is what the pattern
    captures. *)
Lemma conventional_complete (t w : jsstring) (sc : option jsstring)
    (bang : bool) :
  conventional_title t w sc bang ->
  exists caps,
    match_ conventional_re t = Some caps /\
    capture 1 caps = Some w /\ capture 2 caps = sc /\
    present (capture 3 caps) = bang.
Proof.
  intros (ws & rest & -> & Hw & Hp & Hsc & Hws & Hr & Hd).
  rewrite match_conventional, exec_Seq_cons.
  destruct (@tail1_some (fun _ s' caps => Some (s', caps))
              (fun _ _ _ => eq_refl) false sc bang ws rest [(1, w)]
              Hsc Hws Hr Hd) as (x & Hx).
  assert (match scope_text sc ++ bang_text bang ++ COLON :: ws ++ rest with
          | c :: _ => is_word c = false
          | [] => True
          end) as Hhead by (destruct sc, bang; reflexivity).
  rewrite (@group_plus_longest 1 is_word true w
             (scope_text sc ++ bang_text bang ++ COLON :: ws ++ rest) []
             (fun b' s' caps' =>
                exec (Seq conv_tail1) b' s' caps'
                  (fun _ s'' caps'' => Some (s'', caps'')))
             _ Hw Hp Hhead Hx).
  eexists. split; [reflexivity |]. destruct sc, bang; repeat split.
Qed.

End ConventionalMatch.

(** ** The response interpreter *)

(** C3. Parsing fails, with [EmptyResponse], exactly when the cleanup
    (trimming, then the opening fence, the closing fence and the
    backticks left at either end) leaves no line that is not blank; any
    other input is parsed.  The empty text and a text of white space and
    line breaks fail under every style. *)
Theorem parseAIResponse_empty (content : jsstring) (style : CommitStyle) :
  (parseAIResponse content style = inl EmptyResponse <->
   remaining_lines (cleanup content) = []) /\
  (remaining_lines (cleanup content) <> [] <->
   exists g, parseAIResponse content style = inr g) /\
  parseAIResponse [] style = inl EmptyResponse /\
  parseAIResponse (lit "   " ++ [NL; NL] ++ lit "  ") style = inl EmptyResponse.
Proof.
  assert (forall c, parseAIResponse c style = inl EmptyResponse <->
                    remaining_lines (cleanup c) = []) as Hiff.
  { intros c. unfold parseAIResponse.
    rewrite cleanContent_cleanup, nonblank_lines_remaining.
    destruct (remaining_lines (cleanup c)) as [| line more];
      [tauto |].
    destruct style; try destruct (match_ _ _); split; discriminate. }
  split; [apply Hiff |]. split; [| split; apply Hiff; reflexivity].
  rewrite <- Hiff.
  destruct (parseAIResponse content style) as [[] | g]; split.
  - tauto.
  - intros [g H]. discriminate.
  - intros _. now exists g.
  - discriminate.
Qed.

Section Interpreter.

Lemma parse_conventional_fields (content : jsstring) (g : GeneratedCommit) :
  parseAIResponse content conventional = inr g ->
  exists line more,
    remaining_lines (cleanup content) = line :: more /\
    title (message g) = trim line /\
    match match_ conventional_re (trim line) with
    | Some caps =>
        type (message g) = capture 1 caps /\
        scope (message g) = capture 2 caps /\
        breaking (message g) = Some (present (capture 3 caps))
    | None =>
        type (message g) = None /\ scope (message g) = None /\
        breaking (message g) = Some false
    end.
Proof.
  unfold parseAIResponse.
  rewrite cleanContent_cleanup, nonblank_lines_remaining.
  destruct (remaining_lines (cleanup content)) as [| line more];
    [discriminate |].
  intros H. exists line, more. split; [reflexivity |].
  destruct (match_ conventional_re (trim line)) as [caps |];
    injection H as <-; repeat split.
Qed.

Lemma has_colon_space_found (pre rest : jsstring) :
  has_colon_space (pre ++ COLON :: SPACE :: rest) = true.
Proof.
  induction pre as [| a pre IH]; [reflexivity |].
  cbn [app has_colon_space]. destruct (pre ++ COLON :: SPACE :: rest) eqn:E.
  - destruct pre; discriminate.
  - rewrite IH. apply orb_true_r.
Qed.

End Interpreter.

(** The title [feat:x] has no space after its colon, so it is not of the
    form [word: rest]; the interpreter reads the type [feat] from it all
    the same. *)
Lemma parse_colon_without_space :
  (exists g,
     parseAIResponse (lit "feat:x") conventional = inr g /\
     title (message g) = lit "feat:x" /\
     type (message g) = Some (lit "feat")) /\
  has_colon_space (lit "feat:x") = false /\
  (forall pre rest, lit "feat:x" <> pre ++ lit ": " ++ rest).
Proof.
  split; [| split].
  - eexists. split; [vm_compute; reflexivity | split; reflexivity].
  - reflexivity.
  - intros pre rest H.
    assert (has_colon_space (lit "feat:x") = true) as Hc
      by (rewrite H; apply has_colon_space_found).
    discriminate.
Qed.

(** C2, amended. Under the conventional style a response that is parsed
    keeps as title its first remaining line, trimmed, whether the title
    follows the grammar or not.  When the title reads as a word, an
    optional scope in parentheses, an optional [!], a colon, {e optional
    white space} and a rest, the type is the word, the scope the text in
    the parentheses, and breaking tells whether the [!] is there; when
    it does not, type and scope are undefined and breaking is false.  The
    example of the interpreter is an instance. *)
Theorem parseAIResponse_conventional (content : jsstring) :
  (forall g, parseAIResponse content conventional = inr g ->
     (exists line more,
        remaining_lines (cleanup content) = line :: more /\
        title (message g) = trim line) /\
     (forall w sc bang,
        conventional_title (title (message g)) w sc bang ->
        type (message g) = Some w /\ scope (message g) = sc /\
        breaking (message g) = Some bang) /\
     ((forall w sc bang, ~ conventional_title (title (message g)) w sc bang) ->
      type (message g) = None /\ scope (message g) = None /\
      breaking (message g) = Some false) /\
     (forall w,
        type (message g) = Some w ->
        exists bang,
          conventional_title (title (message g)) w (scope (message g)) bang /\
          breaking (message g) = Some bang)) /\
  (exists g,
     parseAIResponse example_response conventional = inr g /\
     title (message g) = lit "fix(parser)!: handle edge case" /\
     type (message g) = Some (lit "fix") /\
     scope (message g) = Some (lit "parser") /\
     breaking (message g) = Some true /\
     body (message g) = Some (lit "Details here.")).
Proof.
  split.
  - intros g H. apply parse_conventional_fields in H.
    destruct H as (line & more & Hl & Ht & Hm). rewrite Ht.
    split; [now exists line, more |].
    destruct (match_ conventional_re (trim line)) as [caps |] eqn:E.
    + destruct Hm as (Hty & Hsc & Hbr).
      destruct (conventional_sound _ E) as (w0 & sc0 & bang0 & Hg & H1 & H2 & H3).
      split; [| split].
      * intros w sc bang Hg'.
        destruct (conventional_complete Hg') as (caps' & E' & H1' & H2' & H3').
        rewrite E in E'. injection E' as <-.
        rewrite Hty, Hsc, Hbr, H1', H2', H3'. repeat split.
      * intros Hno. exfalso. exact (Hno _ _ _ Hg).
      * intros w Hw. rewrite Hty, H1 in Hw. injection Hw as <-.
        exists bang0. rewrite Hsc, Hbr, H2, H3. split; [assumption | reflexivity].
    + destruct Hm as (Hty & Hsc & Hbr). split; [| split].
      * intros w sc bang Hg'.
        destruct (conventional_complete Hg') as (caps' & E' & _).
        congruence.
      * intros _. repeat split; assumption.
      * intros w Hw. congruence.
  - eexists. split; [vm_compute; reflexivity | repeat split].
Qed.

(** The example read through the grammar. *)
Lemma parseAIResponse_conventional_witness :
  exists g,
    parseAIResponse example_response conventional = inr g /\
    type (message g) = Some (lit "fix") /\
    scope (message g) = Some (lit "parser") /\
    breaking (message g) = Some true.
Proof.
  destruct (proj2 (parseAIResponse_conventional example_response))
    as (g & Hg & Ht & _).
  exists g. split; [exact Hg |].
  apply (proj1 (parseAIResponse_conventional example_response) g Hg).
  rewrite Ht. exists [SPACE], (lit "handle edge case").
  repeat split; discriminate.
Defined.

(** ** The confidence score *)

Section Confidence.

Lemma test_lowercase (t : jsstring) :
  test lowercase_re t = starts_lowercase t.
Proof.
  unfold test, lowercase_re, Seq. rewrite search_bol. unfold match_here.
  rewrite exec_Cat, exec_Bol.
  destruct t as [| c t]; re_steps; [reflexivity |].
  cbn [starts_lowercase]. now destruct (lower c).
Qed.

Lemma body_condition (body : option jsstring) :
  match body with
  | Some b => (truthy b && (20 <? length b)%nat)%bool
  | None => false
  end = long_body body.
Proof. destruct body as [[| x b] |]; reflexivity. Qed.

Lemma score_monotone (c1 c2 c3 c4 c5 d1 d2 d3 d4 d5 : bool) :
  implb c1 d1 = true -> implb c2 d2 = true -> implb c3 d3 = true ->
  implb c4 d4 = true -> implb c5 d5 = true ->
  (score c1 c2 c3 c4 c5 <=? score d1 d2 d3 d4 d5)%float = true.
Proof.
  destruct c1, d1; try discriminate; intros _;
    destruct c2, d2; try discriminate; intros _;
    destruct c3, d3; try discriminate; intros _;
    destruct c4, d4; try discriminate; intros _;
    destruct c5, d5; try discriminate; intros _;
    vm_compute; reflexivity.
Qed.

Lemma score_capped (c1 c2 c3 c4 c5 : bool) :
  (score c1 c2 c3 c4 c5 <=? 1)%float = true.
Proof. destruct c1, c2, c3, c4, c5; vm_compute; reflexivity. Qed.

End Confidence.

(** C4. The confidence is [min(1.0, 0.5 + ...)] with 0.2 for a title of
    more than 10 and at most 50 units, and 0.1 each for a title that
    starts with a lowercase letter, a title that does not end with a
    period, a title that holds a colon and a body of more than 20 units,
    the sum being taken in binary64 arithmetic from left to right as the
    program takes it.  It is at most 1.0, and satisfying more of the
    conditions never lowers it. *)
Theorem calculateConfidence_spec (t : jsstring) (b : option jsstring) :
  calculateConfidence t b
  = score (title_length_ok t) (starts_lowercase t) (no_final_period t)
      (has_colon t) (long_body b) /\
  (calculateConfidence t b <=? 1)%float = true /\
  (forall c1 c2 c3 c4 c5 d1 d2 d3 d4 d5 : bool,
     implb c1 d1 = true -> implb c2 d2 = true -> implb c3 d3 = true ->
     implb c4 d4 = true -> implb c5 d5 = true ->
     (score c1 c2 c3 c4 c5 <=? score d1 d2 d3 d4 d5)%float = true).
Proof.
  assert (calculateConfidence t b
          = score (title_length_ok t) (starts_lowercase t) (no_final_period t)
              (has_colon t) (long_body b)) as Heq.
  { unfold calculateConfidence. cbv zeta.
    rewrite test_lowercase, <- (body_condition b).
    unfold title_length_ok, no_final_period, has_colon.
    destruct ((10 <? length t)%nat && (length t <=? 50)%nat)%bool,
      (starts_lowercase t), (negb (endsWith t DOT)), (includes t COLON);
      (destruct b as [b |];
       [destruct (truthy b && (20 <? length b)%nat)%bool |]);
      vm_compute; reflexivity. }
  split; [exact Heq |]. split; [| exact score_monotone].
  rewrite Heq. apply score_capped.
Qed.

(** ** Formatting, then validating *)

Section RoundTrip.

Variable k : cont.
Hypothesis k_done : forall b s caps, k b s caps = Some (s, caps).

Lemma or_else_l (a b : option outcome) : a <> None -> or_else a b <> None.
Proof. now destruct a. Qed.

Lemma or_else_r (a b : option outcome) : b <> None -> or_else a b <> None.
Proof. destruct a; [discriminate | trivial]. Qed.

Lemma text_exact (t r : jsstring) (b : bool) (caps : captures) (k' : cont) :
  exec (Text t) b (t ++ r) caps k' = k' (after b t) r caps.
Proof.
  unfold Text. revert b. induction t as [| c t IH]; intros b;
    cbn [List.map app]; [apply exec_Seq_nil |].
  rewrite exec_Seq_cons, exec_Unit_cons, N.eqb_refl, IH.
  now destruct t.
Qed.

Lemma oneof_some (r : regex) (rs : list regex) (b : bool) (s : jsstring)
    (caps : captures) (k' : cont) :
  In r rs -> exec r b s caps k' <> None ->
  exec (OneOf rs) b s caps k' <> None.
Proof.
  intros Hin Hr. induction rs as [| r0 rs IH]; [contradiction |].
  destruct rs as [| r1 rs].
  - destruct Hin as [-> | []]. exact Hr.
  - change (OneOf (r0 :: r1 :: rs)) with (Alt r0 (OneOf (r1 :: rs))).
    rewrite exec_Alt. destruct Hin as [-> | Hin].
    + now apply or_else_l.
    + apply or_else_r. now apply IH.
Qed.

Lemma val3_some (b : bool) (c : code_unit) (rest : jsstring) (caps : captures) :
  dot c = true ->
  exec (Seq val_tail3) b (COLON :: SPACE :: c :: rest) caps k <> None.
Proof.
  intros Hc. unfold val_tail3.
  rewrite exec_Seq_cons, exec_Unit_cons, N.eqb_refl, exec_Seq_cons,
    exec_Sym_cons.
  change (is_space SPACE) with true. cbv iota.
  rewrite exec_Seq_cons, exec_Plus, exec_Sym_cons, Hc.
  apply (@star_some dot true false [] rest caps); [reflexivity |].
  cbn [after]. rewrite exec_Seq_nil, k_done. discriminate.
Qed.

Lemma val2_some (b bang : bool) (c : code_unit) (rest : jsstring)
    (caps : captures) :
  dot c = true ->
  exec (Seq val_tail2) b (bang_text bang ++ COLON :: SPACE :: c :: rest) caps k
  <> None.
Proof.
  intros Hc. unfold val_tail2. rewrite exec_Seq_cons, exec_Opt.
  destruct bang; cbn [bang_text app].
  - apply or_else_l. rewrite exec_Unit_cons, N.eqb_refl.
    now apply val3_some.
  - apply or_else_r. now apply val3_some.
Qed.

Lemma val1_some (b : bool) (sc : option jsstring) (bang : bool)
    (c : code_unit) (rest : jsstring) (caps : captures) :
  match sc with
  | Some s => s <> [] /\ forallb dot s = true
  | None => True
  end ->
  dot c = true ->
  exec (Seq val_tail1) b
    (scope_text sc ++ bang_text bang ++ COLON :: SPACE :: c :: rest) caps k
  <> None.
Proof.
  intros Hsc Hc. unfold val_tail1. rewrite exec_Seq_cons, exec_Opt.
  destruct sc as [s |]; cbn [scope_text app].
  - destruct Hsc as [Hs Hd]. apply or_else_l.
    rewrite exec_Group, exec_Seq_cons, exec_Unit_cons, N.eqb_refl,
      exec_Seq_cons, exec_Plus.
    destruct s as [| x s]; [congruence |].
    cbn [forallb] in Hd. apply andb_prop in Hd. destruct Hd as [Hx Hd].
    rewrite <- app_assoc. cbn [app]. rewrite exec_Sym_cons, Hx.
    apply star_some; [exact Hd |].
    cbn [app]. rewrite exec_Seq_cons, exec_Unit_cons, N.eqb_refl, exec_Seq_nil.
    now apply val2_some.
  - apply or_else_r. now apply val2_some.
Qed.

Lemma conventionalPattern_some (t : jsstring) (sc : option jsstring)
    (bang : bool) (c : code_unit) (rest : jsstring) :
  In t commit_types ->
  match sc with
  | Some s => s <> [] /\ forallb dot s = true
  | None => True
  end ->
  dot c = true ->
  exec (Seq (Group 1 (OneOf (List.map Text commit_types)) :: val_tail1)) true
    (t ++ scope_text sc ++ bang_text bang ++ COLON :: SPACE :: c :: rest) [] k
  <> None.
Proof.
  intros Ht Hsc Hc. rewrite exec_Seq_cons, exec_Group.
  apply (@oneof_some (Text t)); [now apply in_map |].
  rewrite text_exact. now apply val1_some.
Qed.

End RoundTrip.

Section RoundTripMessage.

Lemma commit_type_not_blank (t rest : jsstring) :
  In t commit_types -> blank (t ++ rest) = false.
Proof.
  unfold commit_types. cbn [In]. intros H.
  repeat (destruct H as [<- | H]; [reflexivity |]). contradiction.
Qed.

Lemma commit_type_truthy (t : jsstring) : In t commit_types -> truthy t = true.
Proof.
  unfold commit_types. cbn [In]. intros H.
  repeat (destruct H as [<- | H]; [reflexivity |]). contradiction.
Qed.

(** The formatted text of a message that has a type. *)
Lemma format_with_type (m : CommitMessage) (t : jsstring) :
  type m = Some t -> truthy t = true ->
  formatCommitMessage m conventional
  = t ++ scope_text (scope_shown m) ++ bang_text (breaking_shown m)
      ++ COLON :: SPACE :: title m
      ++ trailing_section (body m) ++ trailing_section (footer m).
Proof.
  intros Ht Htr.
  unfold formatCommitMessage, formatConventionalCommit, scope_shown,
    breaking_shown, trailing_section.
  rewrite Ht, Htr.
  destruct (scope m) as [s |]; try destruct (truthy s);
    destruct (breaking m) as [[|] |];
    destruct (body m) as [b |]; try destruct (truthy b);
    destruct (footer m) as [f |]; try destruct (truthy f);
    same_text.
Qed.

Lemma validate_conventional_test (text : jsstring) :
  blank text = false ->
  validateCommitMessage text conventional
  = match exec (Seq (Group 1 (OneOf (List.map Text commit_types)) :: val_tail1))
            true text [] (fun _ s' caps => Some (s', caps)) with
    | Some _ => true
    | None => false
    end.
Proof.
  intros Hb. unfold validateCommitMessage, validateConventionalCommit, test.
  rewrite truthy_trim, Hb. cbn [negb].
  change conventionalPattern
    with (Cat Bol (Seq (Group 1 (OneOf (List.map Text commit_types))
                          :: val_tail1))).
  rewrite search_bol. unfold match_here. rewrite exec_Cat, exec_Bol.
  now destruct (exec _ true text [] _) as [[post caps] |].
Qed.

End RoundTripMessage.

(** A title that starts with a line break, and a scope that holds one:
    the type is one of the eleven tags and the title is not empty, and
    the formatted text is refused. *)
Lemma format_then_validate_fails :
  let m1 := {| title := NL :: lit "add parser"; body := None;
               type := Some (lit "feat"); scope := None; breaking := None;
               footer := None |} in
  let m2 := {| title := lit "add parser"; body := None;
               type := Some (lit "feat");
               scope := Some (lit "core" ++ NL :: lit "api");
               breaking := None; footer := None |} in
  In (lit "feat") commit_types /\
  title m1 <> [] /\
  validateCommitMessage (formatCommitMessage m1 conventional) conventional
    = false /\
  title m2 <> [] /\
  validateCommitMessage (formatCommitMessage m2 conventional) conventional
    = false.
Proof.
  cbv zeta. split; [left; reflexivity |].
  split; [discriminate |]. split; [vm_compute; reflexivity |].
  split; [discriminate | vm_compute; reflexivity].
Qed.

(** C6, amended. A message whose type is one of the eleven tags, whose
    title is not empty and does not start with a line terminator, and
    whose scope, if any, holds no line terminator, is formatted under
    the conventional style into a text that the validator accepts. *)
Theorem format_then_validate (m : CommitMessage) (t : jsstring) :
  type m = Some t -> In t commit_types ->
  (exists c rest, title m = c :: rest /\ is_line_terminator c = false) ->
  (forall s, scope m = Some s ->
             Forall (fun c => is_line_terminator c = false) s) ->
  validateCommitMessage (formatCommitMessage m conventional) conventional
  = true.
Proof.
  intros Ht Hin (c & rest & Htitle & Hc) Hscope.
  rewrite (@format_with_type m t Ht (@commit_type_truthy t Hin)).
  rewrite validate_conventional_test by (now apply commit_type_not_blank).
  rewrite Htitle. cbn [app].
  assert (match scope_shown m with
          | Some s => s <> [] /\ forallb dot s = true
          | None => True
          end) as Hsc.
  { unfold scope_shown. destruct (scope m) as [s |]; [| exact I].
    destruct s as [| x s]; [exact I |]. cbn [truthy].
    split; [discriminate |]. apply forallb_forall. intros y Hy.
    specialize (Hscope _ eq_refl). rewrite Forall_forall in Hscope.
    unfold dot. now rewrite (Hscope y Hy). }
  assert (dot c = true) as Hd by (unfold dot; now rewrite Hc).
  pose proof (@conventionalPattern_some (fun _ s' caps => Some (s', caps))
                (fun _ _ _ => eq_refl) t (scope_shown m) (breaking_shown m) c
                (rest ++ trailing_section (body m)
                   ++ trailing_section (footer m)) Hin Hsc Hd) as Hsome.
  destruct (exec _ true _ [] _); [reflexivity | congruence].
Qed.

Lemma format_then_validate_witness :
  validateCommitMessage
    (formatCommitMessage
       {| title := lit "handle edge case"; body := Some (lit "Details here.");
          type := Some (lit "fix"); scope := Some (lit "parser");
          breaking := Some true; footer := None |} conventional)
    conventional = true.
Proof.
  apply (@format_then_validate _ (lit "fix")).
  - reflexivity.
  - right; left; reflexivity.
  - exists 104%N, (lit "andle edge case"). split; reflexivity.
  - intros s H. injection H as <-. repeat constructor.
Defined.

(** ** The command-line flow *)

Section Flow.

Lemma service_trace (config : AIConfig) (context : AIPromptContext)
    (r : ProviderReply) :
  fst (AIService_generateCommitMessage config context r)
  = [ProviderCall (request_of config context)].
Proof.
  unfold AIService_generateCommitMessage.
  destruct r as [msg | | [c |]]; try reflexivity.
  destruct (truthy c); [| reflexivity].
  destruct (parseAIResponse c (style context)) as [[] | g]; reflexivity.
Qed.

Lemma no_commit_split (l pre post : list Event) (m : jsstring) :
  no_commit l = true -> l <> pre ++ GitCommit m :: post.
Proof.
  intros Hl H. unfold no_commit in Hl. rewrite H, forallb_app in Hl.
  apply andb_prop in Hl. destruct Hl as [_ Hl]. discriminate.
Qed.

Lemma prefix_split (l e pre post : list Event) (m : jsstring) :
  no_commit l = true ->
  l ++ e = pre ++ GitCommit m :: post ->
  exists pre2, pre = l ++ pre2 /\ e = pre2 ++ GitCommit m :: post.
Proof.
  revert pre. induction l as [| a l IH]; intros pre Hl H.
  - now exists pre.
  - cbn [no_commit forallb] in Hl. apply andb_prop in Hl.
    destruct Hl as [Ha Hl]. destruct pre as [| a' pre].
    + injection H as -> _. discriminate.
    + injection H as <- H. destruct (IH pre Hl H) as (pre2 & -> & ->).
      now exists pre2.
Qed.

Lemma last_commit_split (l pre post : list Event) (t m : jsstring) :
  no_commit l = true ->
  l ++ [GitCommit t] = pre ++ GitCommit m :: post ->
  pre = l /\ m = t /\ post = [].
Proof.
  intros Hl H. destruct (@prefix_split l [GitCommit t] pre post m Hl H) as (pre2 & -> & H2).
  destruct pre2 as [| a pre2].
  - injection H2 as -> <-. now rewrite app_nil_r.
  - injection H2 as _ H2. destruct pre2; discriminate.
Qed.

End Flow.

(** C10. Every commit of the flow comes last in the trace, after the
    display of a generated message [g].  When it follows the display
    directly (automatic mode) or the answer "commit" at the prompt, the
    committed text is exactly the title of [g]: neither the body nor the
    structured fields are added and the formatter is not applied.  The
    only other commit is the one of the edit path, whose text is the
    trimmed input of the user. *)
Theorem commit_text_is_title (config : AppConfig) (world : list Round)
    (options : CLI.Options) (pre post : list Event) (m : jsstring) :
  fst (generateCommitMessage config options world)
    = pre ++ GitCommit m :: post ->
  post = [] /\
  exists before g asked,
    pre = before ++ Generated g :: asked /\
    ((asked = [] \/ asked = [Asked ActCommit]) /\ m = title (message g) \/
     exists input,
       asked = [Asked ActEdit; EditAnswer input] /\
       promptForEdit input = Some m).
Proof.
  revert options pre.
  induction world as [| round later IH]; intros options pre H;
    cbn [generateCommitMessage] in H;
    destruct (getAIConfig config) as [f | aiConfig];
    try (exfalso; revert H; now apply no_commit_split).
  destruct (isValidRepository (repo round));
    [| exfalso; revert H; now apply no_commit_split].
  destruct (hasStagedChanges (repo round));
    [| exfalso; revert H; now apply no_commit_split].
  destruct (getStagedDiff (repo round)) as [d |];
    [| exfalso; revert H; now apply no_commit_split].
  cbn [negb] in H.
  pose proof (service_trace aiConfig
                (promptContext config options (repo round) d) (reply round))
    as Hs.
  destruct (AIService_generateCommitMessage aiConfig
              (promptContext config options (repo round) d) (reply round))
    as [events [failure | g]].
  all: cbn [fst] in Hs; subst events.
  { exfalso. revert H. now apply no_commit_split. }
  destruct (CLI.dryRun options);
    [exfalso; revert H; now apply no_commit_split |].
  destruct (CLI.interactive options || (negb (CLI.commit options) && negb false))%bool.
  - destruct (action round) eqn:Ea; cbn [performCommit fst] in H.
    + apply last_commit_split in H; [| reflexivity].
      destruct H as (-> & -> & ->). split; [reflexivity |].
      exists [ProviderCall (request_of aiConfig
                (promptContext config options (repo round) d))], g,
        [Asked ActCommit].
      split; [reflexivity |]. left. split; [now right | reflexivity].
    + destruct (promptForEdit (editedMessage round)) as [edited |] eqn:Ee;
        cbn [performCommit fst] in H;
        [| exfalso; revert H; now apply no_commit_split].
      apply last_commit_split in H; [| reflexivity].
      destruct H as (-> & -> & ->). split; [reflexivity |].
      exists [ProviderCall (request_of aiConfig
                (promptContext config options (repo round) d))], g,
        [Asked ActEdit; EditAnswer (editedMessage round)].
      split; [reflexivity |]. right. now exists (editedMessage round).
    + destruct (generateCommitMessage config (with_interactive options) later)
        as [e o] eqn:Er.
      cbn [fst] in H. apply prefix_split in H; [| reflexivity].
      destruct H as (pre2 & -> & He).
      specialize (IH (with_interactive options) pre2).
      rewrite Er in IH. destruct (IH He) as (-> & before & g' & asked & -> & Hm).
      split; [reflexivity |].
      exists (([ProviderCall (request_of aiConfig
                  (promptContext config options (repo round) d))]
               ++ [Generated g]) ++ [Asked ActRegenerate] ++ before), g', asked.
      split; [| exact Hm]. now rewrite <- !app_assoc.
    + exfalso. revert H. now apply no_commit_split.
  - destruct (CLI.commit options); cbn [performCommit fst] in H;
      [| exfalso; revert H; now apply no_commit_split].
    apply last_commit_split in H; [| reflexivity].
    destruct H as (-> & -> & ->). split; [reflexivity |].
    exists [ProviderCall (request_of aiConfig
              (promptContext config options (repo round) d))], g, [].
    split; [reflexivity |]. left. split; [now left | reflexivity].
Qed.

Lemma commit_text_is_title_witness :
  @nil Event = [] /\
  exists before g asked,
    removelast
      (fst (generateCommitMessage (sample_config 100 0.7) commit_options
              [sample_round ActCancel]))
    = before ++ Generated g :: asked /\
    ((asked = [] \/ asked = [Asked ActCommit]) /\
     lit "fix(parser)!: handle edge case" = title (message g) \/
     exists input,
       asked = [Asked ActEdit; EditAnswer input] /\
       promptForEdit input = Some (lit "fix(parser)!: handle edge case")).
Proof.
  apply (@commit_text_is_title (sample_config 100 0.7)
           [sample_round ActCancel] commit_options).
  vm_compute. reflexivity.
Defined.

(** The automatic mode on the interpreter's example: the commit holds
    the title alone, where the formatter would have written the header
    a second time and the body. *)
Lemma sample_commit_run :
  exists request g,
    generateCommitMessage (sample_config 100 0.7) commit_options
      [sample_round ActCancel]
    = ([ProviderCall request; Generated g;
        GitCommit (lit "fix(parser)!: handle edge case")], Returned) /\
    body (message g) = Some (lit "Details here.") /\
    formatCommitMessage (message g) conventional
    = lit "fix(parser)!: fix(parser)!: handle edge case" ++ [NL; NL]
        ++ lit "Details here.".
Proof.
  eexists. eexists. split; [vm_compute; reflexivity |].
  split; vm_compute; reflexivity.
Qed.

(** The two paths that commit a generated message, run to their end. *)
Section CommitPaths.

Variables (config : AppConfig) (options : CLI.Options) (round : Round)
  (later : list Round) (d : GitDiff) (g : GeneratedCommit).

Hypothesis has_key : truthy (apiKey (ai config)) = true.
Hypothesis is_repo : isValidRepository (repo round) = true.
Hypothesis is_staged : hasStagedChanges (repo round) = true.
Hypothesis has_diff : getStagedDiff (repo round) = Some d.
Hypothesis generated :
  snd (AIService_generateCommitMessage (ai config)
         (promptContext config options (repo round) d) (reply round))
  = inr g.
Hypothesis not_dry : CLI.dryRun options = false.

Lemma automatic_commit :
  CLI.interactive options = false -> CLI.commit options = true ->
  fst (generateCommitMessage config options (round :: later))
  = [ProviderCall (request_of (ai config)
                     (promptContext config options (repo round) d));
     Generated g; GitCommit (title (message g))].
Proof.
  intros Hi Hc. cbn [generateCommitMessage]. unfold getAIConfig.
  rewrite has_key, is_repo, is_staged, has_diff. cbn [negb].
  pose proof (service_trace (ai config)
                (promptContext config options (repo round) d) (reply round))
    as Ht.
  destruct (AIService_generateCommitMessage (ai config)
              (promptContext config options (repo round) d) (reply round))
    as [events res]. cbn [fst snd] in Ht, generated. subst events res.
  now rewrite not_dry, Hi, Hc.
Qed.

Lemma chosen_commit :
  (CLI.interactive options = true \/ CLI.commit options = false) ->
  action round = ActCommit ->
  fst (generateCommitMessage config options (round :: later))
  = [ProviderCall (request_of (ai config)
                     (promptContext config options (repo round) d));
     Generated g; Asked ActCommit; GitCommit (title (message g))].
Proof.
  intros Hm Ha. cbn [generateCommitMessage]. unfold getAIConfig.
  rewrite has_key, is_repo, is_staged, has_diff. cbn [negb].
  pose proof (service_trace (ai config)
                (promptContext config options (repo round) d) (reply round))
    as Ht.
  destruct (AIService_generateCommitMessage (ai config)
              (promptContext config options (repo round) d) (reply round))
    as [events res]. cbn [fst snd] in Ht, generated. subst events res.
  rewrite not_dry, Ha.
  assert ((CLI.interactive options
           || (negb (CLI.commit options) && negb false))%bool = true) as ->
    by (destruct Hm as [-> | ->]; [reflexivity | apply orb_true_r]).
  reflexivity.
Qed.

End CommitPaths.

(** ** The configuration *)

Section Configuration.

(** [validateConfig] refuses exactly the settings outside the ranges. *)
Lemma validateConfig_ranges (config : AppConfig) :
  truthy (apiKey (ai config)) = true ->
  validateConfig config = inr true <->
  ((maxTokens (ai config) <? 10) || (4000 <? maxTokens (ai config))
   || (temperature (ai config) <? 0) || (2 <? temperature (ai config)))%float
  = false.
Proof.
  intros Hk. unfold validateConfig. rewrite Hk. cbn [negb].
  destruct (maxTokens (ai config) <? 10)%float,
    (4000 <? maxTokens (ai config))%float,
    (temperature (ai config) <? 0)%float,
    (2 <? temperature (ai config))%float; cbn; split; congruence.
Qed.

(** The flow never consults the ranges: with a key, a repository and
    staged changes, the provider is called with the settings as they
    are. *)
Lemma provider_call_unvalidated (config : AppConfig) (options : CLI.Options)
    (round : Round) (later : list Round) (d : GitDiff) :
  truthy (apiKey (ai config)) = true ->
  isValidRepository (repo round) = true ->
  hasStagedChanges (repo round) = true ->
  getStagedDiff (repo round) = Some d ->
  exists rest,
    fst (generateCommitMessage config options (round :: later))
    = ProviderCall (request_of (ai config)
                      (promptContext config options (repo round) d)) :: rest.
Proof.
  intros Hk Hr Hs Hd. cbn [generateCommitMessage]. unfold getAIConfig.
  rewrite Hk, Hr, Hs, Hd. cbn [negb].
  pose proof (service_trace (ai config)
                (promptContext config options (repo round) d) (reply round))
    as Ht.
  destruct (AIService_generateCommitMessage (ai config)
              (promptContext config options (repo round) d) (reply round))
    as [events [failure | g]]; cbn [fst] in Ht; subst events.
  - now exists [].
  - destruct (CLI.dryRun options); [now eexists |].
    destruct (CLI.interactive options || _)%bool.
    + destruct (action round); cbn [performCommit].
      * now eexists.
      * destruct (promptForEdit (editedMessage round)); now eexists.
      * destruct (generateCommitMessage config (with_interactive options) later).
        now eexists.
      * now eexists.
    + destruct (CLI.commit options); now eexists.
Qed.

End Configuration.

(** C8. With 5 as maximum output size and 3 as temperature, settings
    that [validateConfig] refuses, a run in a repository with staged
    changes reports no configuration error: it calls the provider with
    these settings and commits. *)
Theorem out_of_range_config_reaches_provider :
  validateConfig (sample_config 5 3) = inl MaxTokensOutOfRange /\
  validateConfig (sample_config 100 3) = inl TemperatureOutOfRange /\
  exists request g message,
    generateCommitMessage (sample_config 5 3) commit_options
      [sample_round ActCancel]
    = ([ProviderCall request; Generated g; GitCommit message], Returned) /\
    req_max_tokens request = 5%float /\
    req_temperature request = 3%float.
Proof.
  split; [reflexivity |]. split; [reflexivity |].
  eexists. eexists. eexists. split; [vm_compute; reflexivity |].
  split; reflexivity.
Qed.

(** * Further properties of the code *)

(** ** [truncateText] *)

Section TruncateText.

Lemma substring_prefix_Z (s : jsstring) (i : Z) :
  substring s 0 i = firstn (Z.to_nat i) s.
Proof.
  destruct (Z_lt_le_dec i 0) as [H | H].
  - rewrite substring_to_negative by lia.
    replace (Z.to_nat i) with 0 by lia. reflexivity.
  - rewrite <- (Z2Nat.id i) at 1 by lia. apply substring_prefix.
Qed.

Lemma truncateText_long (text : jsstring) (maxLength : nat) :
  maxLength < length text ->
  truncateText text (Z.of_nat maxLength)
  = firstn (maxLength - 3) text ++ lit "...".
Proof.
  intros H. unfold truncateText.
  destruct (Z.of_nat (length text) <=? Z.of_nat maxLength)%Z eqn:E;
    [apply Z.leb_le in E; lia |].
  rewrite substring_prefix_Z. f_equal. f_equal. lia.
Qed.

Lemma truncateText_short (text : jsstring) (maxLength : nat) :
  length text <= maxLength -> truncateText text (Z.of_nat maxLength) = text.
Proof.
  intros H. unfold truncateText.
  destruct (Z.of_nat (length text) <=? Z.of_nat maxLength)%Z eqn:E;
    [reflexivity | apply Z.leb_gt in E; lia].
Qed.

Lemma truncateText_length (text : jsstring) (maxLength : nat) :
  maxLength < length text ->
  length (truncateText text (Z.of_nat maxLength)) = Nat.max maxLength 3.
Proof.
  intros H. rewrite truncateText_long by assumption.
  rewrite length_app, length_firstn. simpl. lia.
Qed.

End TruncateText.

(** X1. A text longer than the maximum is cut to its first
    [maxLength - 3] units followed by three dots, so that the result is
    exactly [maxLength] units long when the maximum is at least 3; below
    3 nothing of the text is kept and the result, the three dots, is
    longer than the maximum.  A text within the maximum is returned
    unchanged. *)
Theorem truncateText_spec (text : jsstring) (maxLength : nat) :
  (length text <= maxLength ->
   truncateText text (Z.of_nat maxLength) = text) /\
  (maxLength < length text ->
   truncateText text (Z.of_nat maxLength)
   = firstn (maxLength - 3) text ++ lit "..." /\
   length (truncateText text (Z.of_nat maxLength)) = Nat.max maxLength 3) /\
  (3 <= maxLength ->
   length (truncateText text (Z.of_nat maxLength)) <= maxLength).
Proof.
  split; [apply truncateText_short |]. split.
  - intros H. split; [now apply truncateText_long |].
    now apply truncateText_length.
  - intros H3. destruct (Nat.le_gt_cases (length text) maxLength) as [H | H].
    + rewrite truncateText_short by assumption. assumption.
    + rewrite truncateText_length by assumption. lia.
Qed.

Lemma truncateText_spec_witness :
  truncateText (lit "fix: handle edge case") (Z.of_nat 10) = lit "fix: ha..." /\
  length (truncateText (lit "fix: handle edge case") (Z.of_nat 2)) = 3.
Proof.
  destruct (proj1 (proj2 (truncateText_spec (lit "fix: handle edge case") 10)))
    as [H1 _]; [simpl; lia |].
  destruct (proj1 (proj2 (truncateText_spec (lit "fix: handle edge case") 2)))
    as [_ H2]; [simpl; lia |].
  split; [exact H1 | exact H2].
Defined.

(** X2. Shortening is idempotent: a text that was shortened to a maximum
    is not changed by shortening it to the same maximum again. *)
Theorem truncateText_idempotent (text : jsstring) (maxLength : nat) :
  truncateText (truncateText text (Z.of_nat maxLength)) (Z.of_nat maxLength)
  = truncateText text (Z.of_nat maxLength).
Proof.
  destruct (Nat.le_gt_cases (length text) maxLength) as [H | H].
  - rewrite (truncateText_short text H). now apply truncateText_short.
  - destruct (Nat.le_gt_cases 3 maxLength) as [H3 | H3].
    + apply truncateText_short. rewrite truncateText_length by assumption. lia.
    + rewrite (truncateText_long text H).
      replace (maxLength - 3) with 0 by lia. cbn [firstn app].
      rewrite truncateText_long by (simpl; lia).
      replace (maxLength - 3) with 0 by lia. reflexivity.
Qed.

(** ** [sanitizeCommitMessage] *)

Section GlobalReplace.

Variable p : code_unit -> bool.

Lemma search_sym (b : bool) (s : jsstring) :
  search (Sym p) b s
  = match s with
    | [] => None
    | c :: s' =>
        if p c then Some ([], s', [])
        else match search (Sym p) false s' with
             | Some (pre, post, caps) => Some (c :: pre, post, caps)
             | None => None
             end
    end.
Proof.
  destruct s as [| c s']; [reflexivity |].
  cbn [search]. unfold match_here. rewrite exec_Sym_cons.
  now destruct (p c).
Qed.

Lemma search_sym_cases (b : bool) (s : jsstring) :
  (search (Sym p) b s = None /\ forallb (fun c => negb (p c)) s = true) \/
  (exists pre c post,
     s = pre ++ c :: post /\ forallb (fun c => negb (p c)) pre = true /\
     p c = true /\ search (Sym p) b s = Some (pre, post, [])).
Proof.
  revert b. induction s as [| c s IH]; intros b; rewrite search_sym.
  - now left.
  - destruct (p c) eqn:E.
    + right. now exists [], c, s.
    + destruct (IH false) as [[-> Hn] | (pre & d & post & -> & Hn & Hd & ->)].
      * left. cbn [forallb]. now rewrite E.
      * right. exists (c :: pre), d, post. cbn [forallb]. now rewrite E.
Qed.

Lemma flat_map_unchanged (f : jsstring -> jsstring) (s : jsstring) :
  forallb (fun c => negb (p c)) s = true ->
  flat_map (fun c => if p c then f [c] else [c]) s = s.
Proof.
  induction s as [| c s IH]; [reflexivity |].
  cbn [forallb flat_map]. intros H. apply andb_prop in H.
  destruct H as [Hc Hs]. destruct (p c); [discriminate |].
  now rewrite IH.
Qed.

(** A global replacement over a class rewrites each unit of the class
    and leaves the others. *)
Lemma replace_all_loop_sym (f : jsstring -> jsstring) (fuel : nat) (b : bool)
    (s : jsstring) :
  length s < fuel ->
  replace_all_loop fuel (Sym p) b s f
  = flat_map (fun c => if p c then f [c] else [c]) s.
Proof.
  revert b s. induction fuel as [| fuel IH]; intros b s Hl; [lia |].
  cbn [replace_all_loop].
  destruct (search_sym_cases b s)
    as [[-> Hn] | (pre & c & post & -> & Hn & Hc & ->)].
  - now rewrite flat_map_unchanged.
  - rewrite length_app. cbn [length].
    replace (length pre + S (length post) - length pre - length post)
      with 1 by lia.
    rewrite skipn_app, Nat.sub_diag, skipn_all. cbn [skipn app firstn].
    rewrite flat_map_app, flat_map_unchanged by assumption.
    cbn [flat_map]. rewrite Hc, IH; [reflexivity |].
    rewrite length_app in Hl. cbn [length] in Hl. lia.
Qed.

Lemma replace_all_sym (f : jsstring -> jsstring) (s : jsstring) :
  replace_all (Sym p) s f
  = flat_map (fun c => if p c then f [c] else [c]) s.
Proof. unfold replace_all. apply replace_all_loop_sym. lia. Qed.

End GlobalReplace.

Section Sanitize.

Lemma escape_unit_space (c : code_unit) :
  forallb is_space (escape_unit c) = is_space c.
Proof.
  unfold escape_unit, shell_special.
  destruct (c =? BACKTICK)%N eqn:E1; [apply N.eqb_eq in E1; now subst |].
  destruct (c =? DOLLAR)%N eqn:E2; [apply N.eqb_eq in E2; now subst |].
  destruct (c =? BACKSLASH)%N eqn:E3; [apply N.eqb_eq in E3; now subst |].
  cbn [orb]. destruct (c =? NL)%N eqn:E4.
  - apply N.eqb_eq in E4. now subst.
  - cbn [forallb]. apply andb_true_r.
Qed.

(** The two replacements, said at once. *)
Lemma sanitize_escape (message : jsstring) :
  replace_all (Unit NL)
    (replace_all (Sym shell_special) message (fun m => BACKSLASH :: m))
    (fun _ => [NL; NL])
  = flat_map escape_unit message.
Proof.
  unfold Unit. rewrite !replace_all_sym.
  induction message as [| c s IH]; [reflexivity |].
  cbn [flat_map]. rewrite flat_map_app, IH. f_equal.
  unfold escape_unit, shell_special.
  destruct (c =? BACKTICK)%N eqn:E1; [apply N.eqb_eq in E1; now subst |].
  destruct (c =? DOLLAR)%N eqn:E2; [apply N.eqb_eq in E2; now subst |].
  destruct (c =? BACKSLASH)%N eqn:E3; [apply N.eqb_eq in E3; now subst |].
  cbn [orb flat_map app]. rewrite N.eqb_sym. now destruct (c =? NL)%N.
Qed.

Lemma escape_unit_head (c : code_unit) :
  is_space c = false ->
  exists x r, escape_unit c = x :: r /\ is_space x = false.
Proof.
  intros H. unfold escape_unit. destruct (shell_special c).
  - now exists BACKSLASH, [c].
  - destruct (c =? NL)%N eqn:E.
    + apply N.eqb_eq in E. subst c. discriminate.
    + now exists c, [].
Qed.

Lemma escape_unit_last (c : code_unit) :
  exists r, escape_unit c = r ++ [c].
Proof.
  unfold escape_unit. destruct (shell_special c).
  - now exists [BACKSLASH].
  - destruct (c =? NL)%N eqn:E.
    + apply N.eqb_eq in E. subst c. now exists [NL].
    + now exists [].
Qed.

Lemma forallb_flat_map_escape (s : jsstring) :
  forallb is_space (flat_map escape_unit s) = forallb is_space s.
Proof.
  induction s as [| c s IH]; [reflexivity |].
  cbn [flat_map forallb]. now rewrite forallb_app, escape_unit_space, IH.
Qed.

Lemma dropWhile_fixed (p : code_unit -> bool) (s : jsstring) :
  match s with c :: _ => p c = false | [] => True end -> dropWhile p s = s.
Proof. destruct s as [| c s]; [reflexivity |]. cbn [dropWhile]. now intros ->. Qed.

Lemma dropWhile_idempotent (p : code_unit -> bool) (s : jsstring) :
  dropWhile p (dropWhile p s) = dropWhile p s.
Proof. apply dropWhile_fixed, dropWhile_head. Qed.

Lemma dropWhileEnd_all (p : code_unit -> bool) (s : jsstring) :
  forallb p s = true -> dropWhileEnd p s = [].
Proof.
  intros H. unfold dropWhileEnd.
  assert (dropWhile p (rev s) = []) as ->
    by (apply dropWhile_nil; now rewrite forallb_rev).
  reflexivity.
Qed.

Lemma dropWhileEnd_app (p : code_unit -> bool) (a b : jsstring) :
  dropWhileEnd p (a ++ b)
  = if forallb p b then dropWhileEnd p a else a ++ dropWhileEnd p b.
Proof.
  unfold dropWhileEnd. rewrite rev_app_distr, dropWhile_app, forallb_rev.
  destruct (forallb p b); [reflexivity |].
  now rewrite rev_app_distr, rev_involutive.
Qed.

Lemma dropWhileEnd_idempotent (p : code_unit -> bool) (s : jsstring) :
  dropWhileEnd p (dropWhileEnd p s) = dropWhileEnd p s.
Proof.
  unfold dropWhileEnd. now rewrite rev_involutive, dropWhile_idempotent.
Qed.

Lemma dropWhile_dropWhileEnd (p : code_unit -> bool) (d : jsstring) :
  match d with c :: _ => p c = false | [] => True end ->
  dropWhile p (dropWhileEnd p d) = dropWhileEnd p d.
Proof.
  destruct d as [| x d]; [reflexivity |]. intros Hx.
  rewrite dropWhileEnd_cons, Hx. cbn [andb dropWhile]. now rewrite Hx.
Qed.

(** Trimming twice is trimming once. *)
Lemma trim_idempotent (s : jsstring) : trim (trim s) = trim s.
Proof.
  unfold trim.
  rewrite dropWhile_dropWhileEnd by apply dropWhile_head.
  apply dropWhileEnd_idempotent.
Qed.

Lemma dropWhile_escape (s : jsstring) :
  dropWhile is_space (flat_map escape_unit s)
  = flat_map escape_unit (dropWhile is_space s).
Proof.
  induction s as [| c s IH]; [reflexivity |].
  cbn [flat_map dropWhile]. destruct (is_space c) eqn:E.
  - now rewrite dropWhile_app, escape_unit_space, E.
  - destruct (escape_unit_head c E) as (x & r & Hx & Hs).
    cbn [flat_map]. rewrite Hx. cbn [app dropWhile]. now rewrite Hs.
Qed.

Lemma dropWhileEnd_escape (s : jsstring) :
  dropWhileEnd is_space (flat_map escape_unit s)
  = flat_map escape_unit (dropWhileEnd is_space s).
Proof.
  induction s as [| c s IH]; [reflexivity |].
  cbn [flat_map]. rewrite dropWhileEnd_app, forallb_flat_map_escape,
    dropWhileEnd_cons.
  destruct (forallb is_space s) eqn:Es.
  - rewrite andb_true_r. destruct (is_space c) eqn:Ec.
    + apply dropWhileEnd_all. now rewrite escape_unit_space.
    + rewrite (dropWhileEnd_all is_space s Es). cbn [flat_map].
      rewrite app_nil_r. destruct (escape_unit_last c) as (r & ->).
      rewrite dropWhileEnd_app. cbn [forallb]. rewrite Ec. cbn [andb].
      f_equal. unfold dropWhileEnd. cbn [rev app dropWhile]. now rewrite Ec.
  - rewrite andb_false_r. cbn [flat_map]. now rewrite IH.
Qed.

(** The sanitized message: the trimmed message, each special unit after
    a backslash and each line break twice. *)
Lemma sanitize_flat_map (message : jsstring) :
  sanitizeCommitMessage message = flat_map escape_unit (trim message).
Proof.
  unfold sanitizeCommitMessage, trim.
  now rewrite sanitize_escape, dropWhile_escape, dropWhileEnd_escape.
Qed.

Lemma unescape_escape (s : jsstring) : unescape (flat_map escape_unit s) = s.
Proof.
  induction s as [| c s IH]; [reflexivity |].
  cbn [flat_map]. unfold escape_unit at 1.
  destruct (shell_special c) eqn:E.
  - cbn [app unescape]. rewrite N.eqb_refl. now rewrite IH.
  - assert ((c =? BACKSLASH)%N = false) as Hb.
    { unfold shell_special in E. apply orb_false_elim in E. tauto. }
    destruct (c =? NL)%N eqn:En.
    + apply N.eqb_eq in En. subst c. cbn [app unescape].
      change (NL =? BACKSLASH)%N with false. cbv iota.
      rewrite N.eqb_refl. now rewrite IH.
    + cbn [app unescape]. now rewrite Hb, En, IH.
Qed.

Lemma escaped_escape (s : jsstring) : escaped (flat_map escape_unit s) = true.
Proof.
  induction s as [| c s IH]; [reflexivity |].
  cbn [flat_map]. unfold escape_unit at 1.
  destruct (shell_special c) eqn:E.
  - cbn [app escaped]. now rewrite N.eqb_refl.
  - assert ((c =? BACKSLASH)%N = false) as Hb.
    { unfold shell_special in E. apply orb_false_elim in E. tauto. }
    destruct (c =? NL)%N eqn:En.
    + apply N.eqb_eq in En. subst c. cbn [app escaped].
      change (NL =? BACKSLASH)%N with false. cbv iota.
      change (shell_special NL) with false. cbn [negb andb].
      exact IH.
    + cbn [app escaped]. now rewrite Hb, E, IH.
Qed.

End Sanitize.

(** X3. In a sanitized message every backtick, dollar sign and backslash
    stands after a backslash that escapes it, every line break of the
    trimmed message has become two, and no white space is left at
    either end. *)
Theorem sanitizeCommitMessage_escaped (message : jsstring) :
  sanitizeCommitMessage message = flat_map escape_unit (trim message) /\
  escaped (sanitizeCommitMessage message) = true /\
  trim (sanitizeCommitMessage message) = sanitizeCommitMessage message.
Proof.
  split; [apply sanitize_flat_map |]. split.
  - rewrite sanitize_flat_map. apply escaped_escape.
  - unfold sanitizeCommitMessage. apply trim_idempotent.
Qed.

(** X4. Sanitizing loses nothing but the white space around the message:
    reading the escapes back gives the trimmed message. *)
Theorem sanitizeCommitMessage_round_trip (message : jsstring) :
  unescape (sanitizeCommitMessage message) = trim message.
Proof. rewrite sanitize_flat_map. apply unescape_escape. Qed.

(** ** What the interpreter returns *)

Section ParsedMessage.

Lemma In_dropWhile (p : code_unit -> bool) (c : code_unit) (s : jsstring) :
  In c (dropWhile p s) -> In c s.
Proof.
  induction s as [| x s IH]; [trivial |].
  cbn [dropWhile]. destruct (p x); [right; now apply IH | trivial].
Qed.

Lemma In_trim (c : code_unit) (s : jsstring) : In c (trim s) -> In c s.
Proof.
  unfold trim, dropWhileEnd. intros H. apply in_rev in H.
  apply In_dropWhile in H. apply in_rev in H. now apply In_dropWhile in H.
Qed.

Lemma dropWhile_suffix (p : code_unit -> bool) (s : jsstring) :
  exists q, s = q ++ dropWhile p s.
Proof.
  induction s as [| x s IH]; [now exists [] |].
  cbn [dropWhile]. destruct (p x); [| now exists []].
  destruct IH as [q Hq]. exists (x :: q). cbn [app]. now rewrite <- Hq.
Qed.

(** A trimmed text sits inside the text. *)
Lemma trim_infix (s : jsstring) : exists a b, s = a ++ trim s ++ b.
Proof.
  unfold trim, dropWhileEnd.
  destruct (dropWhile_suffix is_space s) as [a Ha].
  destruct (dropWhile_suffix is_space (rev (dropWhile is_space s))) as [q Hq].
  exists a, (rev q). rewrite <- rev_app_distr, <- Hq, rev_involutive.
  exact Ha.
Qed.

Lemma has_blank_line_cons (c : code_unit) (s : jsstring) :
  has_blank_line s = true -> has_blank_line (c :: s) = true.
Proof.
  intros H. destruct s as [| b s]; [discriminate |].
  change (has_blank_line (c :: b :: s))
    with (((c =? NL)%N && (b =? NL)%N) || has_blank_line (b :: s)).
  rewrite H. apply orb_true_r.
Qed.

Lemma has_blank_line_app_r (a b : jsstring) :
  has_blank_line b = true -> has_blank_line (a ++ b) = true.
Proof.
  intros H. induction a as [| c a IH]; [exact H |].
  cbn [app]. now apply has_blank_line_cons.
Qed.

Lemma has_blank_line_app_l (a b : jsstring) :
  has_blank_line a = true -> has_blank_line (a ++ b) = true.
Proof.
  induction a as [| c a IH]; [discriminate |].
  destruct a as [| d a]; [discriminate |].
  change (has_blank_line (c :: d :: a))
    with (((c =? NL)%N && (d =? NL)%N) || has_blank_line (d :: a)).
  change (has_blank_line ((c :: d :: a) ++ b))
    with (((c =? NL)%N && (d =? NL)%N) || has_blank_line ((d :: a) ++ b)).
  intros H. apply orb_prop in H. destruct H as [-> | H]; [reflexivity |].
  rewrite (IH H). apply orb_true_r.
Qed.

Lemma has_blank_line_trim (s : jsstring) :
  has_blank_line s = false -> has_blank_line (trim s) = false.
Proof.
  intros H. destruct (has_blank_line (trim s)) eqn:E; [| reflexivity].
  destruct (trim_infix s) as (a & b & Hs). rewrite Hs in H.
  rewrite has_blank_line_app_r in H; [discriminate |].
  now apply has_blank_line_app_l.
Qed.

(** Lines that are not empty and hold no line break, joined by line
    breaks, leave no empty line. *)
Lemma join_no_blank_line (ls : list jsstring) :
  Forall (fun l => l <> [] /\ ~ In NL l) ls ->
  has_blank_line (join [NL] ls) = false /\
  match ls with
  | [] => True
  | _ :: _ => exists c r, join [NL] ls = c :: r /\ c <> NL
  end.
Proof.
  induction 1 as [| l ls [Hne Hnl] Hls [IH1 IH2]]; [now split |].
  assert (forall t, has_blank_line t = false ->
                    match t with c :: _ => c <> NL | [] => True end ->
                    has_blank_line (l ++ NL :: t) = false) as Hcat.
  { intros t Ht Hhd. clear IH1 IH2 Hls Hne.
    induction l as [| x l IHl].
    - cbn [app]. destruct t as [| c t]; [reflexivity |].
      change (has_blank_line (NL :: c :: t))
        with (((NL =? NL)%N && (c =? NL)%N) || has_blank_line (c :: t)).
      rewrite Ht. apply N.eqb_neq in Hhd. now rewrite Hhd.
    - assert (x <> NL) as Hx by (intros ->; apply Hnl; now left).
      assert (~ In NL l) as Hl by (intros Hin; apply Hnl; now right).
      specialize (IHl Hl). cbn [app].
      destruct (l ++ NL :: t) as [| d u] eqn:Eu; [reflexivity |].
      change (has_blank_line (x :: d :: u))
        with (((x =? NL)%N && (d =? NL)%N) || has_blank_line (d :: u)).
      rewrite IHl. apply N.eqb_neq in Hx. now rewrite Hx. }
  assert (exists c r, l = c :: r /\ c <> NL) as (c & r & -> & Hc).
  { destruct l as [| c r]; [congruence |]. exists c, r. split; [reflexivity |].
    intros ->. apply Hnl. now left. }
  destruct ls as [| l' ls].
  - cbn [join]. split; [| now exists c, r].
    clear -Hnl. revert c Hnl. induction r as [| d r IHr]; intros c Hnl;
      [reflexivity |].
    change (has_blank_line (c :: d :: r))
      with (((c =? NL)%N && (d =? NL)%N) || has_blank_line (d :: r)).
    rewrite IHr by (intros Hin; apply Hnl; now right).
    assert (c <> NL) as Hc by (intros ->; apply Hnl; now left).
    apply N.eqb_neq in Hc. now rewrite Hc.
  - change (join [NL] ((c :: r) :: l' :: ls))
      with ((c :: r) ++ NL :: join [NL] (l' :: ls)).
    split; [| now exists c, (r ++ NL :: join [NL] (l' :: ls))].
    apply Hcat; [exact IH1 |].
    destruct IH2 as (c' & r' & -> & Hc'). exact Hc'.
Qed.

Lemma remaining_lines_facts (text : jsstring) :
  Forall (fun l => blank l = false /\ ~ In NL l) (remaining_lines text).
Proof.
  unfold remaining_lines. apply Forall_forall. intros l Hl.
  apply filter_In in Hl. destruct Hl as [Hin Hb]. split.
  - now destruct (blank l).
  - pose proof (split_no_sep NL text) as Hs.
    rewrite Forall_forall in Hs. now apply Hs.
Qed.

(** The fields of a parsed response, under any style. *)
Lemma parse_fields (content : jsstring) (style : CommitStyle)
    (g : GeneratedCommit) :
  parseAIResponse content style = inr g ->
  exists line more,
    remaining_lines (cleanup content) = line :: more /\
    title (message g) = trim line /\
    body (message g)
    = (if truthy (trim (join [NL] more)) then Some (trim (join [NL] more))
       else None) /\
    footer (message g) = None /\
    confidence g = calculateConfidence (title (message g)) (body (message g)) /\
    (exists bk, breaking (message g) = Some bk) /\
    (style <> conventional ->
     type (message g) = None /\ scope (message g) = None /\
     breaking (message g) = Some false).
Proof.
  unfold parseAIResponse.
  rewrite cleanContent_cleanup, nonblank_lines_remaining.
  destruct (remaining_lines (cleanup content)) as [| line more];
    [discriminate |].
  intros H. exists line, more. split; [reflexivity |].
  destruct style; [destruct (match_ conventional_re (trim line)) | |];
    injection H as <-; cbn;
    repeat split; try (now eexists); try congruence.
Qed.

Lemma parsed_title (content : jsstring) (style : CommitStyle)
    (g : GeneratedCommit) :
  parseAIResponse content style = inr g ->
  title (message g) <> [] /\
  trim (title (message g)) = title (message g) /\
  ~ In NL (title (message g)).
Proof.
  intros H. apply parse_fields in H.
  destruct H as (line & more & Hl & Ht & _).
  pose proof (remaining_lines_facts (cleanup content)) as Hall.
  rewrite Hl in Hall. inversion Hall as [| ? ? [Hnb Hnl] Hmore]; subst.
  rewrite Ht. split; [| split].
  - intros E. apply trim_nil in E. congruence.
  - apply trim_idempotent.
  - intros Hin. apply Hnl. now apply In_trim.
Qed.

End ParsedMessage.

(** X5. Whatever the response and the style, a parsed message has a
    title that is not empty, has no white space at either end and holds
    no line break; its body, when there is one, is not empty, has no
    white space at either end and holds no empty line (the blank lines
    of the response are gone); it has no footer. *)
Theorem parsed_message_shape (content : jsstring) (style : CommitStyle)
    (g : GeneratedCommit) :
  parseAIResponse content style = inr g ->
  title (message g) <> [] /\
  trim (title (message g)) = title (message g) /\
  ~ In NL (title (message g)) /\
  (forall b, body (message g) = Some b ->
             b <> [] /\ trim b = b /\ has_blank_line b = false) /\
  footer (message g) = None.
Proof.
  intros H. apply parse_fields in H.
  destruct H as (line & more & Hl & Ht & Hb & Hf & _).
  pose proof (remaining_lines_facts (cleanup content)) as Hall.
  rewrite Hl in Hall. inversion Hall as [| ? ? [Hnb Hnl] Hmore]; subst.
  rewrite Ht. split; [| split; [| split; [| split]]].
  - intros E. apply trim_nil in E. congruence.
  - apply trim_idempotent.
  - intros Hin. apply Hnl. now apply In_trim.
  - intros b. rewrite Hb.
    destruct (trim (join [NL] more)) as [| x j] eqn:Ej; [discriminate |].
    cbn [truthy]. intros E. injection E as <-. split; [discriminate |].
    rewrite <- Ej. split; [apply trim_idempotent |].
    apply has_blank_line_trim, join_no_blank_line.
    apply Forall_forall. intros l Hin. rewrite Forall_forall in Hmore.
    destruct (Hmore l Hin) as [Hlb Hln]. split; [| exact Hln].
    intros ->. discriminate.
  - exact Hf.
Qed.

Lemma parsed_message_shape_witness :
  exists g,
    parseAIResponse example_response conventional = inr g /\
    title (message g) <> [] /\ ~ In NL (title (message g)).
Proof.
  eexists. split; [vm_compute; reflexivity |].
  assert (parseAIResponse example_response conventional
          = inr {| message :=
                     {| title := lit "fix(parser)!: handle edge case";
                        body := Some (lit "Details here.");
                        type := Some (lit "fix");
                        scope := Some (lit "parser");
                        breaking := Some true; footer := None |};
                   confidence := 0x1.fffffffffffffp-1 |}) as H
    by (vm_compute; reflexivity).
  destruct (parsed_message_shape _ _ H) as (H1 & _ & H3 & _).
  split; [exact H1 | exact H3].
Defined.

Lemma parse_empty_lines (content : jsstring) (style : CommitStyle) :
  parseAIResponse content style = inl EmptyResponse ->
  remaining_lines (cleanup content) = [].
Proof.
  unfold parseAIResponse.
  rewrite cleanContent_cleanup, nonblank_lines_remaining.
  destruct (remaining_lines (cleanup content)) as [| line more];
    [reflexivity |].
  destruct style; try destruct (match_ _ _); discriminate.
Qed.

(** X6. The style decides the structured fields and nothing else: a
    response fails under one style exactly when it fails under another,
    and otherwise the title, the body and the confidence are the same;
    outside the conventional style the type and the scope are undefined
    and breaking is false. *)
Theorem parse_style_independent (content : jsstring) (s1 s2 : CommitStyle) :
  match parseAIResponse content s1, parseAIResponse content s2 with
  | inl e1, inl e2 => e1 = e2
  | inr g1, inr g2 =>
      title (message g1) = title (message g2) /\
      body (message g1) = body (message g2) /\
      confidence g1 = confidence g2 /\
      (s1 <> conventional ->
       type (message g1) = None /\ scope (message g1) = None /\
       breaking (message g1) = Some false)
  | _, _ => False
  end.
Proof.
  destruct (parseAIResponse content s1) as [[] | g1] eqn:E1;
    destruct (parseAIResponse content s2) as [[] | g2] eqn:E2.
  - reflexivity.
  - apply parse_fields in E2. destruct E2 as (l & m & Hl & _).
    apply parse_empty_lines in E1.
    congruence.
  - apply parse_fields in E1. destruct E1 as (l & m & Hl & _).
    apply parse_empty_lines in E2.
    congruence.
  - apply parse_fields in E1. apply parse_fields in E2.
    destruct E1 as (l1 & m1 & Hl1 & Ht1 & Hb1 & _ & Hc1 & _ & Hs1).
    destruct E2 as (l2 & m2 & Hl2 & Ht2 & Hb2 & _ & Hc2 & _).
    rewrite Hl1 in Hl2. injection Hl2 as <- <-.
    rewrite Hc1, Hc2, Ht1, Ht2, Hb1, Hb2. repeat split; apply Hs1; assumption.
Qed.

Section ConfidenceLevels.

Lemma calculateConfidence_score (t : jsstring) (b : option jsstring) :
  calculateConfidence t b
  = score (title_length_ok t) (starts_lowercase t) (no_final_period t)
      (has_colon t) (long_body b).
Proof.
  unfold calculateConfidence. cbv zeta.
  rewrite test_lowercase, <- (body_condition b).
  unfold title_length_ok, no_final_period, has_colon.
  destruct ((10 <? length t)%nat && (length t <=? 50)%nat)%bool,
    (starts_lowercase t), (negb (endsWith t DOT)), (includes t COLON);
    (destruct b as [b |];
     [destruct (truthy b && (20 <? length b)%nat)%bool |]);
    vm_compute; reflexivity.
Qed.

End ConfidenceLevels.

(** X7. The confidence is never below the base 0.5, and it is 1.0 only
    when all five conditions hold: with the title length and three of
    the other conditions the binary64 sum is 0.9999999999999999, short
    of 1.0. *)
Theorem confidence_levels (t : jsstring) (b : option jsstring) :
  (0.5 <=? calculateConfidence t b)%float = true /\
  (calculateConfidence t b =? 1)%float
  = (title_length_ok t && starts_lowercase t && no_final_period t
     && has_colon t && long_body b)%bool.
Proof.
  rewrite calculateConfidence_score.
  destruct (title_length_ok t), (starts_lowercase t), (no_final_period t),
    (has_colon t), (long_body b);
    split; vm_compute; reflexivity.
Qed.

Section FormatAfterParse.

Lemma format_without_type (m : CommitMessage) :
  type m = None ->
  formatCommitMessage m conventional
  = title m ++ trailing_section (body m) ++ trailing_section (footer m).
Proof.
  intros Ht.
  unfold formatCommitMessage, formatConventionalCommit, trailing_section.
  rewrite Ht.
  destruct (body m) as [b |]; try destruct (truthy b);
    destruct (footer m) as [f |]; try destruct (truthy f);
    same_text.
Qed.

End FormatAfterParse.

(** X8. Formatting a message that the interpreter parsed under the
    conventional style writes its header twice: when the type was read,
    the title still starts with the header [type(scope)!] it was read
    from, and the formatter puts the same header and [: ] before it.
    When no type was read the formatted text is the title and the
    body. *)
Theorem format_after_parse (content : jsstring) (g : GeneratedCommit) :
  parseAIResponse content conventional = inr g ->
  (forall w,
     type (message g) = Some w ->
     exists header rest,
       header = w ++ scope_text (scope (message g))
                  ++ bang_text (breaking_shown (message g)) /\
       title (message g) = header ++ COLON :: rest /\
       formatCommitMessage (message g) conventional
       = header ++ lit ": " ++ title (message g)
           ++ trailing_section (body (message g))) /\
  (type (message g) = None ->
   formatCommitMessage (message g) conventional
   = title (message g) ++ trailing_section (body (message g))).
Proof.
  intros H. pose proof (parse_fields _ _ H) as (_ & _ & _ & _ & _ & Hf & _).
  apply parse_conventional_fields in H.
  destruct H as (line & more & _ & Ht & Hm). split.
  - intros w Hw.
    destruct (match_ conventional_re (trim line)) as [caps |] eqn:E;
      [| destruct Hm as (Hty & _); congruence].
    destruct Hm as (Hty & Hsc & Hbr).
    destruct (conventional_sound _ E)
      as (w0 & sc & bang & (ws & rest & Hd & Hne & _ & Hscope & _) & H1 & H2 & H3).
    rewrite Hty, H1 in Hw. injection Hw as <-.
    assert (truthy w0 = true) as Htr by (destruct w0; [congruence | reflexivity]).
    assert (scope_shown (message g) = scope (message g)) as Hss.
    { unfold scope_shown. rewrite Hsc, H2.
      destruct sc as [[| x s] |]; [destruct Hscope; congruence | |];
        reflexivity. }
    assert (breaking_shown (message g) = bang) as Hbs
      by (unfold breaking_shown; rewrite Hbr, H3; now destruct bang).
    exists (w0 ++ scope_text (scope (message g))
              ++ bang_text (breaking_shown (message g))), (ws ++ rest).
    split; [reflexivity |]. split.
    + rewrite Ht, Hd, Hbs, Hsc, H2. now rewrite <- !app_assoc.
    + rewrite (@format_with_type (message g) w0) by (congruence || assumption).
      rewrite Hf, Hss. cbn [trailing_section]. rewrite app_nil_r.
      now rewrite <- !app_assoc.
  - intros Hn. rewrite format_without_type by assumption.
    rewrite Hf. cbn [trailing_section]. now rewrite app_nil_r.
Qed.

Lemma format_after_parse_witness :
  exists g,
    parseAIResponse example_response conventional = inr g /\
    formatCommitMessage (message g) conventional
    = lit "fix(parser)!: fix(parser)!: handle edge case" ++ [NL; NL]
        ++ lit "Details here.".
Proof.
  assert (parseAIResponse example_response conventional
          = inr {| message :=
                     {| title := lit "fix(parser)!: handle edge case";
                        body := Some (lit "Details here.");
                        type := Some (lit "fix");
                        scope := Some (lit "parser");
                        breaking := Some true; footer := None |};
                   confidence := 0x1.fffffffffffffp-1 |}) as H
    by (vm_compute; reflexivity).
  eexists. split; [exact H |].
  destruct (proj1 (format_after_parse _ H) (lit "fix") eq_refl)
    as (header & rest & -> & _ & ->).
  reflexivity.
Defined.

(** ** The runs of the flow *)

Section FlowCases.

Variable config : AppConfig.

Lemma service_cases (aiConfig : AIConfig) (context : AIPromptContext)
    (r : ProviderReply) :
  (exists f,
     service_failure f /\
     AIService_generateCommitMessage aiConfig context r
     = ([ProviderCall (request_of aiConfig context)], inl f)) \/
  (exists g,
     parsed g /\
     AIService_generateCommitMessage aiConfig context r
     = ([ProviderCall (request_of aiConfig context)], inr g)).
Proof.
  unfold AIService_generateCommitMessage.
  destruct r as [msg | | [c |]]; try (left; eexists; split; [| reflexivity]; exact I).
  destruct (truthy c) eqn:Ec;
    [| left; eexists; split; [| reflexivity]; exact I].
  destruct (parseAIResponse c (style context)) as [[] | g] eqn:Ep.
  - left. eexists. split; [| reflexivity]. exact I.
  - right. exists g. split; [| reflexivity].
    exists c, (style context). split; [| exact Ep].
    intros ->. discriminate.
Qed.

Variable P : CLI.Options -> list Event -> Outcome -> Prop.

Hypothesis setup_required :
  forall options,
    truthy (apiKey (ai config)) = false -> P options [SetupRequired] Returned.
Hypothesis script_over : forall options, P options [] Pending.
Hypothesis repository_failure :
  forall options f,
    f = NotARepository \/ f = NoStagedChanges \/ f = StagedDiffFailed ->
    P options [] (Threw f).
Hypothesis generation_failure :
  forall options r f,
    service_failure f -> P options [ProviderCall r] (Threw f).
Hypothesis dry_run :
  forall options r g,
    CLI.dryRun options = true -> parsed g ->
    P options [ProviderCall r; Generated g] Returned.
Hypothesis chosen :
  forall options r g o,
    CLI.dryRun options = false -> asks options = true -> parsed g ->
    commit_outcome o ->
    P options [ProviderCall r; Generated g; Asked ActCommit;
               GitCommit (title (message g))] o.
Hypothesis edited :
  forall options r g input m o,
    CLI.dryRun options = false -> asks options = true -> parsed g ->
    promptForEdit input = Some m -> commit_outcome o ->
    P options [ProviderCall r; Generated g; Asked ActEdit; EditAnswer input;
               GitCommit m] o.
Hypothesis edit_dropped :
  forall options r g input,
    CLI.dryRun options = false -> asks options = true -> parsed g ->
    promptForEdit input = None ->
    P options [ProviderCall r; Generated g; Asked ActEdit; EditAnswer input]
      Returned.
Hypothesis cancelled :
  forall options r g,
    CLI.dryRun options = false -> asks options = true -> parsed g ->
    P options [ProviderCall r; Generated g; Asked ActCancel] Returned.
Hypothesis regenerated :
  forall options r g e o,
    CLI.dryRun options = false -> asks options = true -> parsed g ->
    P (with_interactive options) e o ->
    P options ([ProviderCall r; Generated g; Asked ActRegenerate] ++ e) o.
Hypothesis automatic :
  forall options r g o,
    CLI.dryRun options = false -> CLI.interactive options = false ->
    CLI.commit options = true -> parsed g -> commit_outcome o ->
    P options [ProviderCall r; Generated g; GitCommit (title (message g))] o.

(** Every run of the flow is one of these. *)
Lemma flow_cases (world : list Round) (options : CLI.Options) :
  P options (fst (generateCommitMessage config options world))
    (snd (generateCommitMessage config options world)).
Proof.
  assert (truthy (apiKey (ai config)) = true \/
          truthy (apiKey (ai config)) = false) as Hk
    by (destruct (truthy (apiKey (ai config))); tauto).
  revert options. induction world as [| round later IH]; intros options;
    cbn [generateCommitMessage]; unfold getAIConfig;
    destruct Hk as [Ek | Ek]; rewrite Ek; cbn [negb];
    try (now apply setup_required); try (now apply script_over).
  destruct (isValidRepository (repo round)); cbn [negb];
    [| apply repository_failure; tauto].
  destruct (hasStagedChanges (repo round)); cbn [negb];
    [| apply repository_failure; tauto].
  destruct (getStagedDiff (repo round)) as [d |];
    [| apply repository_failure; tauto].
  destruct (service_cases (ai config)
              (promptContext config options (repo round) d) (reply round))
    as [(f & Hf & ->) | (g & Hg & ->)].
  { now apply generation_failure. }
  destruct (CLI.dryRun options) eqn:Ed; [now apply dry_run |].
  cbn [negb]. rewrite andb_true_r. fold (asks options).
  assert (forall m, commit_outcome (snd (performCommit (repo round) m)))
    as Hout.
  { intros m. unfold performCommit, commit_outcome. cbn [snd].
    destruct (commitSucceeds (repo round) m); tauto. }
  destruct (asks options) eqn:Ea.
  - destruct (action round).
    + specialize (Hout (title (message g))).
      unfold performCommit in *. cbn [fst snd app] in *. now apply chosen.
    + destruct (promptForEdit (editedMessage round)) as [m |] eqn:Ee.
      * specialize (Hout m). unfold performCommit in *.
        cbn [fst snd app] in *. apply edited; assumption.
      * cbn [fst snd app]. now apply edit_dropped.
    + specialize (IH (with_interactive options)).
      destruct (generateCommitMessage config (with_interactive options) later)
        as [e o].
      cbn [fst snd app] in *. apply regenerated; assumption.
    + cbn [fst snd app]. now apply cancelled.
  - unfold asks in Ea. apply orb_false_elim in Ea. destruct Ea as [Ei Ec].
    apply negb_false_iff in Ec. rewrite Ec.
    specialize (Hout (title (message g))).
    unfold performCommit in *. cbn [fst snd app] in *. now apply automatic.
Qed.

End FlowCases.

(** X9. A dry run neither commits nor asks: whatever the other options
    and the answers of the collaborators, its trace holds no commit and
    no prompt, and at most one provider call. *)
Theorem dry_run_never_commits (config : AppConfig) (options : CLI.Options)
    (world : list Round) :
  CLI.dryRun options = true ->
  no_commit (fst (generateCommitMessage config options world)) = true /\
  forallb (fun e => negb (is_prompt e))
    (fst (generateCommitMessage config options world)) = true /\
  count_calls (fst (generateCommitMessage config options world)) <= 1.
Proof.
  apply (@flow_cases config
           (fun options tr _ =>
              CLI.dryRun options = true ->
              no_commit tr = true /\
              forallb (fun e => negb (is_prompt e)) tr = true /\
              count_calls tr <= 1));
    clear; intros; try congruence; repeat split; cbn; lia.
Qed.

Lemma dry_run_never_commits_witness :
  no_commit (fst (generateCommitMessage (sample_config 100 0.7) dry_options
                    [sample_round ActCommit])) = true.
Proof.
  apply (@dry_run_never_commits (sample_config 100 0.7) dry_options
           [sample_round ActCommit]).
  reflexivity.
Defined.

(** X10. Nothing is committed by a run that fails before the commit
    itself: when the run throws anything but the failure of the commit,
    its trace holds no commit. *)
Theorem failure_commits_nothing (config : AppConfig) (options : CLI.Options)
    (world : list Round) (f : Failure) :
  snd (generateCommitMessage config options world) = Threw f ->
  f <> CommitFailed ->
  no_commit (fst (generateCommitMessage config options world)) = true.
Proof.
  revert f.
  apply (@flow_cases config
           (fun _ tr o =>
              forall f, o = Threw f -> f <> CommitFailed ->
                        no_commit tr = true));
    clear; intros; try reflexivity.
  - destruct H2 as [-> | ->]; [discriminate | congruence].
  - destruct H3 as [-> | ->]; [discriminate | congruence].
  - cbn. eauto.
  - destruct H3 as [-> | ->]; [discriminate | congruence].
Qed.

Lemma failure_commits_nothing_witness :
  no_commit
    (fst (generateCommitMessage (sample_config 100 0.7) commit_options
            [{| repo := sample_backend; reply := ReplyContent (Some (lit "  "));
                action := ActCommit; editedMessage := [] |}])) = true.
Proof.
  apply (@failure_commits_nothing (sample_config 100 0.7) commit_options _
           (GenerationFailed EmptyResponseFromAI)).
  - vm_compute. reflexivity.
  - discriminate.
Defined.

(** X11. A commit that follows the display of the message directly,
    without a prompt in between, happens only with [--commit], without
    [--interactive] and outside a dry run; in particular never after a
    regeneration. *)
Theorem unasked_commit_needs_commit_flag (config : AppConfig)
    (options : CLI.Options) (world : list Round) (before post : list Event)
    (g : GeneratedCommit) (m : jsstring) :
  fst (generateCommitMessage config options world)
    = before ++ Generated g :: GitCommit m :: post ->
  CLI.commit options = true /\ CLI.interactive options = false /\
  CLI.dryRun options = false /\
  exists r, before = [ProviderCall r].
Proof.
  revert before.
  apply (@flow_cases config
           (fun options tr _ =>
              forall before,
                tr = before ++ Generated g :: GitCommit m :: post ->
                CLI.commit options = true /\ CLI.interactive options = false /\
                CLI.dryRun options = false /\
                exists r, before = [ProviderCall r]));
    clear; intros;
    repeat match goal with
           | H : _ = ?b ++ Generated _ :: GitCommit _ :: _ |- _ =>
               destruct b; try discriminate H;
               cbn [app] in H; injection H as ? H; subst
           end;
    try discriminate.
  - destruct (H2 _ eq_refl) as (_ & Hi & _). discriminate.
  - repeat split; try assumption. now eexists.
Qed.

Lemma unasked_commit_needs_commit_flag_witness :
  CLI.commit commit_options = true /\ CLI.interactive commit_options = false /\
  CLI.dryRun commit_options = false /\
  exists r, [ProviderCall sample_request] = [ProviderCall r].
Proof.
  apply (@unasked_commit_needs_commit_flag (sample_config 100 0.7)
           commit_options [sample_round ActCancel]
           [ProviderCall sample_request] [] sample_generated
           (lit "fix(parser)!: handle edge case")).
  vm_compute. reflexivity.
Defined.

(** X12. No run commits an empty or an untrimmed text: every text passed
    to the commit is not blank and has no white space at either end,
    whether it is the title of a generated message or the input of the
    edit prompt. *)
Theorem committed_text_shape (config : AppConfig) (options : CLI.Options)
    (world : list Round) (m : jsstring) :
  In (GitCommit m) (fst (generateCommitMessage config options world)) ->
  blank m = false /\ trim m = m.
Proof.
  assert (forall t, t <> [] -> trim t = t -> blank t = false /\ trim t = t)
    as Hshape.
  { intros t Hne Ht. split; [| exact Ht].
    destruct (blank t) eqn:E; [| reflexivity].
    apply trim_nil in E. congruence. }
  assert (forall g, parsed g ->
                    blank (title (message g)) = false /\
                    trim (title (message g)) = title (message g)) as Htitle.
  { intros g (c & s & _ & Hp). apply parsed_title in Hp.
    apply Hshape; tauto. }
  apply (@flow_cases config
           (fun _ tr _ => In (GitCommit m) tr -> blank m = false /\ trim m = m));
    intros; cbn [app] in *;
    repeat match goal with
           | H : In _ (_ :: _) |- _ => destruct H as [H | H]; try discriminate H
           | H : In _ [] |- _ => destruct H
           | H : GitCommit _ = GitCommit _ |- _ => injection H as <-
           end;
    auto.
  unfold promptForEdit in H2.
  destruct (truthy (trim input)) eqn:E; [| discriminate]. cbn [negb] in H2.
  injection H2 as <-. apply Hshape; [| apply trim_idempotent].
  intros E'. rewrite E' in E. discriminate.
Qed.

Lemma committed_text_shape_witness :
  blank (lit "fix(parser)!: handle edge case") = false /\
  trim (lit "fix(parser)!: handle edge case")
  = lit "fix(parser)!: handle edge case".
Proof.
  apply (@committed_text_shape (sample_config 100 0.7) commit_options
           [sample_round ActCancel]).
  vm_compute. right. right. left. reflexivity.
Defined.

(** X13. Without an API key the run ends at once and normally: it asks
    for the setup, returns without throwing, and neither looks at the
    repository nor calls the provider, whatever the options. *)
Theorem missing_key_returns (config : AppConfig) (options : CLI.Options)
    (world : list Round) :
  apiKey (ai config) = [] ->
  generateCommitMessage config options world = ([SetupRequired], Returned) /\
  getAIConfig config = inl ApiKeyNotFound /\
  validateConfig config = inr false.
Proof.
  intros H. unfold getAIConfig, validateConfig. rewrite H.
  destruct world; cbn [generateCommitMessage]; unfold getAIConfig;
    rewrite H; repeat split.
Qed.

Lemma missing_key_returns_witness :
  generateCommitMessage
    {| ai := {| apiKey := []; model := lit "gpt-4o-mini"; maxTokens := 100;
                temperature := 0.7; organization := None |};
       git := {| defaultStyle := detailed; maxDiffSize := 50000;
                 excludeFiles := [] |} |}
    commit_options [sample_round ActCommit]
  = ([SetupRequired], Returned).
Proof.
  apply (@missing_key_returns
           {| ai := {| apiKey := []; model := lit "gpt-4o-mini";
                       maxTokens := 100; temperature := 0.7;
                       organization := None |};
              git := {| defaultStyle := detailed; maxDiffSize := 50000;
                        excludeFiles := [] |} |}
           commit_options [sample_round ActCommit]).
  reflexivity.
Defined.


(** ** The size of the prompt *)

Section PromptSize.

Lemma buildPrompt_parts (context : AIPromptContext) :
  buildPrompt context
  = task_header (style context)
      ++ repository_line (repoName context)
      ++ branch_line (branch context)
      ++ files_section (diff context)
      ++ commits_section (previousCommits context)
      ++ diff_block (truncateDiff (raw (diff context)) 3000)
      ++ closing_instruction (style context).
Proof.
  unfold buildPrompt, task_header, repository_line, branch_line,
    files_section, commits_section, diff_block, closing_instruction, slice0.
  cbv zeta. rewrite fold_file_line.
  destruct (repoName context) as [r |]; [destruct (truthy r) |];
    (destruct (branch context) as [b |]; [destruct (truthy b) |]);
    (destruct (previousCommits context) as [[| c cs] |];
     [| rewrite fold_commit_line |]);
    same_text.
Qed.

Lemma diff_block_length (e : jsstring) :
  length (diff_block e) = length (diff_block []) + length e.
Proof.
  unfold diff_block. rewrite !length_app. cbn [length]. lia.
Qed.

End PromptSize.

(** X15. The raw diff adds at most 3000 units and the truncation marker
    to the prompt: however long the raw diff is, the prompt is at most
    that much longer than the prompt of the same context with an empty
    raw diff. *)
Theorem prompt_size_bounded (context : AIPromptContext) :
  length (buildPrompt context)
  <= length (buildPrompt (with_raw context [])) + 3000
     + length truncation_marker.
Proof.
  rewrite !buildPrompt_parts. cbn [with_raw diff style repoName branch
    previousCommits raw files summary].
  unfold files_section. cbn [files summary].
  rewrite !length_app, (diff_block_length (truncateDiff (raw (diff context)) 3000)).
  pose proof (truncateDiff_length (raw (diff context)) 3000) as Ht.
  change (truncateDiff [] 3000) with (@nil code_unit).
  change (Z.of_nat 3000) with 3000%Z in Ht. lia.
Qed.

(** X16. Of the prior commits only the first three reach the prompt: a
    context with a list of prior commits gives the prompt of the same
    context with the first three of them. *)
Theorem prompt_first_three_commits (context : AIPromptContext)
    (cs : list jsstring) :
  buildPrompt (with_commits context cs)
  = buildPrompt (with_commits context (firstn 3 cs)).
Proof.
  rewrite !buildPrompt_parts. cbn [with_commits diff style repoName branch
    previousCommits].
  do 4 f_equal. f_equal.
  destruct cs as [| a [| b [| c cs]]]; reflexivity.
Qed.

(** ** The grammar of the validator *)

Section ValidatorGrammar.

Variable k : cont.
Hypothesis k_done : forall b s caps, k b s caps = Some (s, caps).

Lemma text_elim (t s : jsstring) (b : bool) (caps : captures) (k' : cont)
    (y : outcome) :
  exec (Text t) b s caps k' = Some y ->
  exists r, s = t ++ r /\ k' (after b t) r caps = Some y.
Proof.
  unfold Text. revert b s. induction t as [| c t IH]; intros b s;
    cbn [List.map].
  - rewrite exec_Seq_nil. intros H. now exists s.
  - rewrite exec_Seq_cons. destruct s as [| x s]; [discriminate |].
    rewrite exec_Unit_cons. destruct (c =? x)%N eqn:E; [| discriminate].
    apply N.eqb_eq in E. subst x. intros H. apply IH in H.
    destruct H as (r & -> & H). exists r. split; [reflexivity |].
    now destruct t.
Qed.

Lemma oneof_elim (rs : list regex) (b : bool) (s : jsstring) (caps : captures)
    (k' : cont) (y : outcome) :
  exec (OneOf rs) b s caps k' = Some y ->
  exists r, In r rs /\ exec r b s caps k' = Some y.
Proof.
  induction rs as [| r0 rs IH].
  { cbn [OneOf]. destruct s; [rewrite exec_Sym_nil | rewrite exec_Sym_cons];
      discriminate. }
  destruct rs as [| r1 rs].
  - intros H. exists r0. split; [now left | exact H].
  - change (OneOf (r0 :: r1 :: rs)) with (Alt r0 (OneOf (r1 :: rs))).
    rewrite exec_Alt. intros H. apply or_else_some in H.
    destruct H as [H | [_ H]].
    + exists r0. split; [now left | exact H].
    + destruct (IH H) as (r & Hin & Hr). exists r. split; [now right | exact Hr].
Qed.

Lemma plus_elim (p : code_unit -> bool) (b : bool) (s : jsstring)
    (caps : captures) (k' : cont) (y : outcome) :
  exec (Plus true (Sym p)) b s caps k' = Some y ->
  exists x r, s = x ++ r /\ x <> [] /\ forallb p x = true /\
              k' false r caps = Some y.
Proof.
  rewrite exec_Plus. destruct s as [| c s]; [discriminate |].
  rewrite exec_Sym_cons. destruct (p c) eqn:E; [| discriminate].
  intros H. apply star_elim in H. destruct H as (w & r & -> & Hw & Hk).
  exists (c :: w), r. repeat split; [discriminate | |].
  - cbn [forallb]. now rewrite E, Hw.
  - now destruct w.
Qed.

Lemma val3_elim (b : bool) (s : jsstring) (caps : captures) (y : outcome) :
  exec (Seq val_tail3) b s caps k = Some y ->
  exists ws c rest,
    s = COLON :: ws :: c :: rest /\ is_space ws = true /\ dot c = true.
Proof.
  unfold val_tail3. rewrite exec_Seq_cons.
  destruct s as [| x s]; [discriminate |].
  rewrite exec_Unit_cons. destruct (COLON =? x)%N eqn:E; [| discriminate].
  apply N.eqb_eq in E. subst x. rewrite exec_Seq_cons.
  destruct s as [| ws s]; [discriminate |].
  rewrite exec_Sym_cons. destruct (is_space ws) eqn:Ews; [| discriminate].
  rewrite exec_Seq_cons. intros H. apply plus_elim in H.
  destruct H as (x & r & -> & Hx & Hd & _).
  destruct x as [| c x]; [congruence |].
  cbn [forallb] in Hd. apply andb_prop in Hd. destruct Hd as [Hc _].
  now exists ws, c, (x ++ r).
Qed.

Lemma val3_accepts (b : bool) (ws c : code_unit) (rest : jsstring)
    (caps : captures) :
  is_space ws = true -> dot c = true ->
  exec (Seq val_tail3) b (COLON :: ws :: c :: rest) caps k <> None.
Proof.
  intros Hws Hc. unfold val_tail3.
  rewrite exec_Seq_cons, exec_Unit_cons, N.eqb_refl, exec_Seq_cons,
    exec_Sym_cons, Hws, exec_Seq_cons, exec_Plus, exec_Sym_cons, Hc.
  apply (@star_some dot true false [] rest caps); [reflexivity |].
  cbn [after]. rewrite exec_Seq_nil, k_done. discriminate.
Qed.

Lemma val2_elim (b : bool) (s : jsstring) (caps : captures) (y : outcome) :
  exec (Seq val_tail2) b s caps k = Some y ->
  exists bang ws c rest,
    s = bang_text bang ++ COLON :: ws :: c :: rest /\
    is_space ws = true /\ dot c = true.
Proof.
  unfold val_tail2. rewrite exec_Seq_cons, exec_Opt. intros H.
  apply or_else_some in H. destruct H as [H | [_ H]].
  - destruct s as [| x s]; [discriminate |]. rewrite exec_Unit_cons in H.
    destruct (BANG =? x)%N eqn:E; [| discriminate].
    apply N.eqb_eq in E. subst x. apply val3_elim in H.
    destruct H as (ws & c & rest & -> & Hws & Hc).
    now exists true, ws, c, rest.
  - apply val3_elim in H. destruct H as (ws & c & rest & -> & Hws & Hc).
    now exists false, ws, c, rest.
Qed.

Lemma val2_accepts (b bang : bool) (ws c : code_unit) (rest : jsstring)
    (caps : captures) :
  is_space ws = true -> dot c = true ->
  exec (Seq val_tail2) b (bang_text bang ++ COLON :: ws :: c :: rest) caps k
  <> None.
Proof.
  intros Hws Hc. unfold val_tail2. rewrite exec_Seq_cons, exec_Opt.
  destruct bang; cbn [bang_text app].
  - apply or_else_l. rewrite exec_Unit_cons, N.eqb_refl.
    now apply val3_accepts.
  - apply or_else_r. now apply val3_accepts.
Qed.

Lemma val1_elim (b : bool) (s : jsstring) (caps : captures) (y : outcome) :
  exec (Seq val_tail1) b s caps k = Some y ->
  exists sc bang ws c rest,
    s = scope_text sc ++ bang_text bang ++ COLON :: ws :: c :: rest /\
    match sc with
    | Some x => x <> [] /\ forallb dot x = true
    | None => True
    end /\
    is_space ws = true /\ dot c = true.
Proof.
  unfold val_tail1. rewrite exec_Seq_cons, exec_Opt. intros H.
  apply or_else_some in H. destruct H as [H | [_ H]].
  - rewrite exec_Group, exec_Seq_cons in H.
    destruct s as [| x s]; [discriminate |]. rewrite exec_Unit_cons in H.
    destruct (LPAREN =? x)%N eqn:E; [| discriminate].
    apply N.eqb_eq in E. subst x. rewrite exec_Seq_cons in H.
    apply plus_elim in H. destruct H as (x & r & -> & Hx & Hd & H).
    rewrite exec_Seq_cons in H. destruct r as [| z r]; [discriminate |].
    rewrite exec_Unit_cons in H.
    destruct (RPAREN =? z)%N eqn:E; [| discriminate].
    apply N.eqb_eq in E. subst z. rewrite exec_Seq_nil in H.
    apply val2_elim in H.
    destruct H as (bang & ws & c & rest & -> & Hws & Hc).
    exists (Some x), bang, ws, c, rest. cbn [scope_text app].
    rewrite <- app_assoc. now repeat split.
  - apply val2_elim in H.
    destruct H as (bang & ws & c & rest & -> & Hws & Hc).
    now exists None, bang, ws, c, rest.
Qed.

Lemma val1_accepts (b : bool) (sc : option jsstring) (bang : bool)
    (ws c : code_unit) (rest : jsstring) (caps : captures) :
  match sc with
  | Some s => s <> [] /\ forallb dot s = true
  | None => True
  end ->
  is_space ws = true -> dot c = true ->
  exec (Seq val_tail1) b
    (scope_text sc ++ bang_text bang ++ COLON :: ws :: c :: rest) caps k
  <> None.
Proof.
  intros Hsc Hws Hc. unfold val_tail1. rewrite exec_Seq_cons, exec_Opt.
  destruct sc as [s |]; cbn [scope_text app].
  - destruct Hsc as [Hs Hd]. apply or_else_l.
    rewrite exec_Group, exec_Seq_cons, exec_Unit_cons, N.eqb_refl,
      exec_Seq_cons, exec_Plus.
    destruct s as [| x s]; [congruence |].
    cbn [forallb] in Hd. apply andb_prop in Hd. destruct Hd as [Hx Hd].
    rewrite <- app_assoc. cbn [app]. rewrite exec_Sym_cons, Hx.
    apply star_some; [exact Hd |].
    cbn [app]. rewrite exec_Seq_cons, exec_Unit_cons, N.eqb_refl, exec_Seq_nil.
    now apply val2_accepts.
  - apply or_else_r. now apply val2_accepts.
Qed.

Lemma pattern_elim (s : jsstring) (y : outcome) :
  exec (Seq (Group 1 (OneOf (List.map Text commit_types)) :: val_tail1)) true
    s [] k = Some y ->
  exists t sc bang ws c rest,
    s = t ++ scope_text sc ++ bang_text bang ++ COLON :: ws :: c :: rest /\
    In t commit_types /\
    match sc with
    | Some x => x <> [] /\ forallb dot x = true
    | None => True
    end /\
    is_space ws = true /\ dot c = true.
Proof.
  rewrite exec_Seq_cons, exec_Group. intros H.
  apply oneof_elim in H. destruct H as (r & Hin & H).
  apply in_map_iff in Hin. destruct Hin as (t & <- & Hin).
  apply text_elim in H. destruct H as (r & -> & H).
  apply val1_elim in H.
  destruct H as (sc & bang & ws & c & rest & -> & Hsc & Hws & Hc).
  now exists t, sc, bang, ws, c, rest.
Qed.

Lemma pattern_accepts (t : jsstring) (sc : option jsstring) (bang : bool)
    (ws c : code_unit) (rest : jsstring) :
  In t commit_types ->
  match sc with
  | Some s => s <> [] /\ forallb dot s = true
  | None => True
  end ->
  is_space ws = true -> dot c = true ->
  exec (Seq (Group 1 (OneOf (List.map Text commit_types)) :: val_tail1)) true
    (t ++ scope_text sc ++ bang_text bang ++ COLON :: ws :: c :: rest) [] k
  <> None.
Proof.
  intros Ht Hsc Hws Hc. rewrite exec_Seq_cons, exec_Group.
  apply (@oneof_some (Text t)); [now apply in_map |].
  rewrite text_exact. now apply val1_accepts.
Qed.

End ValidatorGrammar.

(** X17. The validator accepts, under the conventional style, exactly
    the texts that start with one of the eleven tags, then a scope in
    parentheses (not empty, without line terminator) or nothing, then
    [!] or nothing, then a colon, one white space unit and one more unit
    that is no line terminator.  What follows is not looked at: neither
    the length of the first line nor the lines after it; and the white
    space after the colon may be a line break. *)
Theorem validator_grammar (text : jsstring) :
  validateCommitMessage text conventional = true <->
  exists t sc bang ws c rest,
    text = t ++ scope_text sc ++ bang_text bang ++ COLON :: ws :: c :: rest /\
    In t commit_types /\
    match sc with
    | Some x => x <> [] /\ forallb dot x = true
    | None => True
    end /\
    is_space ws = true /\ is_line_terminator c = false.
Proof.
  split.
  - intros H.
    assert (blank text = false) as Hb.
    { unfold validateCommitMessage in H. rewrite truthy_trim in H.
      destruct (blank text); [discriminate | reflexivity]. }
    rewrite validate_conventional_test in H by assumption.
    destruct (exec _ true text [] _) as [y |] eqn:E; [| discriminate].
    apply pattern_elim in E.
    destruct E as (t & sc & bang & ws & c & rest & -> & Ht & Hsc & Hws & Hc).
    exists t, sc, bang, ws, c, rest. repeat split; try assumption.
    unfold dot in Hc. now destruct (is_line_terminator c).
  - intros (t & sc & bang & ws & c & rest & -> & Ht & Hsc & Hws & Hc).
    rewrite validate_conventional_test by (now apply commit_type_not_blank).
    assert (dot c = true) as Hd by (unfold dot; now rewrite Hc).
    pose proof (@pattern_accepts (fun _ s' caps => Some (s', caps))
                  (fun _ _ _ => eq_refl) t sc bang ws c rest Ht Hsc Hws Hd)
      as Hsome.
    destruct (exec _ true _ [] _); [reflexivity | congruence].
Qed.

(** ** [git.ts] *)

Section StagedDiff.

Lemma parseGitFiles_map (git : GitAnswers) (diffSummary : DiffResult) :
  parseGitFiles git diffSummary
  = List.map (parseGitFile git) (result_files diffSummary).
Proof.
  unfold parseGitFiles.
  assert (forall l acc,
            fold_left (fun files file => files ++ [parseGitFile git file]) l acc
            = acc ++ List.map (parseGitFile git) l) as H.
  { induction l as [| e l IH]; intros acc; cbn [fold_left List.map].
    - now rewrite app_nil_r.
    - rewrite IH, <- app_assoc. reflexivity. }
  apply H.
Qed.

Lemma parseGitFile_facts (git : GitAnswers) (e : DiffEntry) :
  path (parseGitFile git e) = entry_file e /\
  status (parseGitFile git e) <> copied /\
  oldPath (parseGitFile git e) = None /\
  (forall f b a, e = BinaryFile f b a ->
     insertions (parseGitFile git e) = 0%N /\
     deletions (parseGitFile git e) = 0%N /\
     (status (parseGitFile git e) = modified \/
      status (parseGitFile git e) = renamed)).
Proof.
  unfold parseGitFile. cbv zeta. cbn [path status oldPath insertions deletions].
  destruct (includesText _ (lit "similarity index")
            || includesText _ (lit "rename from"))%bool;
    destruct e as [f c i d | f b a];
    (split; [reflexivity |]); (split; [| split; [reflexivity |]]);
    try (intros ? ? ? E; discriminate E);
    try (intros ? ? ? _; repeat split; tauto);
    try discriminate;
    destruct ((0 <? i) && (d =? 0))%N; try discriminate;
    destruct ((i =? 0) && (0 <? d))%N; discriminate.
Qed.

End StagedDiff.

(** X18. When the staged diff is obtained, the directory is a repository
    with staged paths, the raw diff is not blank, the count of changed
    files is the number of files listed, and the files are those of
    git's summary, one each and in its order; none has the status
    "copied" or an old path, and a binary file has zero insertions and
    deletions and is "modified" or "renamed". *)
Theorem getStagedDiff_result (git : GitAnswers) (d : GitDiff) :
  GitService_getStagedDiff git = inr d ->
  checkIsRepo git = true /\ stagedPaths git <> [] /\
  raw d = stagedDiffText git /\ blank (raw d) = false /\
  filesChanged (summary d) = N.of_nat (length (files d)) /\
  Forall2
    (fun e f =>
       path f = entry_file e /\ status f <> copied /\ oldPath f = None /\
       (forall p b a, e = BinaryFile p b a ->
          insertions f = 0%N /\ deletions f = 0%N /\
          (status f = modified \/ status f = renamed)))
    (result_files (stagedSummary git)) (files d).
Proof.
  unfold GitService_getStagedDiff.
  destruct (checkIsRepo git); [| discriminate]. cbn [negb].
  destruct (stagedPaths git) as [| p ps]; [discriminate |].
  rewrite truthy_trim, negb_involutive.
  destruct (blank (stagedDiffText git)) eqn:Eb; [discriminate |].
  intros H. injection H as <-. cbn [raw summary filesChanged files].
  rewrite parseGitFiles_map, length_map.
  repeat split; try assumption; try discriminate.
  induction (result_files (stagedSummary git)) as [| e l IH];
    cbn [List.map]; constructor; [apply parseGitFile_facts | exact IH].
Qed.

Lemma getStagedDiff_result_witness :
  match
    GitService_getStagedDiff
      {| checkIsRepo := true; stagedPaths := [lit "logo.png"];
         stagedDiffText := lit "diff --git a/logo.png b/logo.png";
         stagedSummary :=
           {| result_files := [BinaryFile (lit "logo.png") 0 2048];
              result_insertions := 0; result_deletions := 0 |};
         diffOfFile := fun _ => lit "Binary files differ" |}
  with
  | inr d => filesChanged (summary d) = N.of_nat (length (files d))
  | inl _ => False
  end.
Proof.
  match goal with
  | |- match ?call with _ => _ end => destruct call as [e | d] eqn:E
  end.
  - vm_compute in E. discriminate E.
  - exact (proj1 (proj2 (proj2 (proj2 (proj2
             (@getStagedDiff_result _ _ E)))))).
Defined.


Section RepoName.

Lemma search_elim (r : regex) (s : jsstring) :
  forall (b : bool) (pre post : jsstring) (caps : captures),
    search r b s = Some (pre, post, caps) ->
    exists t, s = pre ++ t /\ match_here r (after b pre) t = Some (post, caps).
Proof.
  induction s as [| c s IH]; intros b pre post caps; cbn [search].
  - destruct (match_here r b []) as [[post' caps'] |] eqn:E; [| discriminate].
    intros H. injection H as <- <- <-. exists []. split; [reflexivity | exact E].
  - destruct (match_here r b (c :: s)) as [[post' caps'] |] eqn:E.
    + intros H. injection H as <- <- <-. exists (c :: s).
      split; [reflexivity | exact E].
    + destruct (search r false s) as [[[pre' post'] caps'] |] eqn:Es;
        [| discriminate].
      intros H. injection H as <- <- <-.
      destruct (IH _ _ _ _ Es) as (t & -> & Ht). exists t.
      split; [reflexivity |]. cbn [after].
      destruct pre'; exact Ht.
Qed.

Lemma search_found (r : regex) (pre t : jsstring) :
  forall b, match_here r (after b pre) t <> None ->
            search r b (pre ++ t) <> None.
Proof.
  induction pre as [| c pre IH]; intros b H; cbn [app].
  - cbn [after] in H. destruct t as [| c t]; cbn [search];
      destruct (match_here r b _) as [[post caps] |]; congruence.
  - cbn [search].
    destruct (match_here r b (c :: pre ++ t)) as [[post caps] |];
      [discriminate |].
    assert (search r false (pre ++ t) <> None) as Hs.
    { apply IH. destruct pre; exact H. }
    destruct (search r false (pre ++ t)) as [[[pre' post'] caps'] |];
      congruence.
Qed.

Lemma exec_Seq_Eol (b : bool) (s : jsstring) (caps : captures) (k : cont) :
  exec (Seq [Eol]) b s caps k
  = match s with [] => k b [] caps | _ :: _ => None end.
Proof. destruct s; reflexivity. Qed.

(** The pattern matches at a position exactly when what remains there is
    a slash, a name without a slash and '.git'. *)
Lemma repo_name_here_elim (b : bool) (s post : jsstring) (caps : captures) :
  match_here repo_name_re b s = Some (post, caps) ->
  exists name, s = SLASH :: name ++ lit ".git" /\ name <> [] /\
               forallb not_slash name = true /\ caps = [(1, name)].
Proof.
  unfold match_here, repo_name_re. rewrite exec_Seq_cons.
  unfold Unit at 1. destruct s as [| c s]; [rewrite exec_Sym_nil; discriminate |].
  rewrite exec_Sym_cons. destruct (SLASH =? c)%N eqn:Ec; [| discriminate].
  apply N.eqb_eq in Ec. subst c. rewrite exec_Seq_cons. intros H.
  apply group_plus_elim in H. destruct H as (x & r & -> & Hx & Hp & H).
  rewrite exec_Seq_cons in H. unfold Unit at 1 in H.
  destruct r as [| c r]; [rewrite exec_Sym_nil in H; discriminate |].
  rewrite exec_Sym_cons in H. destruct (DOT =? c)%N eqn:Ed; [| discriminate].
  apply N.eqb_eq in Ed. subst c. rewrite exec_Seq_cons in H.
  apply text_elim in H. destruct H as (r' & -> & H).
  rewrite exec_Seq_Eol in H.
  destruct r' as [| c r']; [| discriminate].
  injection H as <- <-. exists x. repeat split; try assumption.
Qed.

Lemma repo_name_here_some (b : bool) (name : jsstring) :
  name <> [] -> forallb not_slash name = true ->
  match_here repo_name_re b (SLASH :: name ++ lit ".git") <> None.
Proof.
  intros Hn Hp. unfold match_here, repo_name_re. rewrite exec_Seq_cons.
  unfold Unit at 1. rewrite exec_Sym_cons, N.eqb_refl, exec_Seq_cons.
  apply group_plus_some; [exact Hn | exact Hp |].
  rewrite exec_Seq_cons. unfold Unit at 1.
  change (lit ".git") with (DOT :: lit "git" ++ []).
  rewrite exec_Sym_cons, N.eqb_refl, exec_Seq_cons, text_exact.
  rewrite exec_Seq_Eol. discriminate.
Qed.

Lemma forallb_not_slash_app (u v : jsstring) :
  forallb not_slash (u ++ SLASH :: v) = false.
Proof.
  rewrite forallb_app. cbn [forallb]. unfold not_slash at 2.
  rewrite N.eqb_refl. cbn [negb andb]. apply andb_false_r.
Qed.

(** The last segment of a text is unique. *)
Lemma last_segment_unique (pre pre' name name' tail : jsstring) :
  pre ++ SLASH :: name ++ tail = pre' ++ SLASH :: name' ++ tail ->
  forallb not_slash name = true -> forallb not_slash name' = true ->
  name = name'.
Proof.
  revert pre'. induction pre as [| c pre IH]; intros pre' E Hn Hn'.
  - destruct pre' as [| c' pre']; cbn [app] in E.
    + injection E as E. now apply app_inv_tail in E.
    + injection E as _ E. exfalso.
      change (pre' ++ SLASH :: name' ++ tail)
        with (pre' ++ (SLASH :: name') ++ tail) in E.
      rewrite app_assoc in E. apply app_inv_tail in E. subst name.
      rewrite forallb_not_slash_app in Hn. discriminate.
  - destruct pre' as [| c' pre']; cbn [app] in E.
    + injection E as _ E. exfalso.
      change (pre ++ SLASH :: name ++ tail)
        with (pre ++ (SLASH :: name) ++ tail) in E.
      rewrite app_assoc in E. apply app_inv_tail in E. subst name'.
      rewrite forallb_not_slash_app in Hn'. discriminate.
    + injection E as _ E. exact (IH _ E Hn Hn').
Qed.

Lemma match_repo_name (url name : jsstring) :
  (exists m, match_ repo_name_re url = Some m /\ capture 1 m = Some name) <->
  (exists pre, url = pre ++ SLASH :: name ++ lit ".git" /\ name <> [] /\
               forallb not_slash name = true).
Proof.
  unfold match_. split.
  - intros (m & H & Hc).
    destruct (search repo_name_re true url) as [[[pre post] caps] |] eqn:Es;
      [| discriminate].
    injection H as ->. apply search_elim in Es. destruct Es as (t & -> & Ht).
    apply repo_name_here_elim in Ht.
    destruct Ht as (name' & -> & Hn & Hp & ->). cbn in Hc.
    injection Hc as ->. exists pre. repeat split; assumption.
  - intros (pre & -> & Hn & Hp).
    pose proof (@search_found repo_name_re pre (SLASH :: name ++ lit ".git")
                  true (@repo_name_here_some _ name Hn Hp)) as Hs.
    destruct (search repo_name_re true (pre ++ SLASH :: name ++ lit ".git"))
      as [[[pre' post] caps] |] eqn:Es; [| congruence].
    apply search_elim in Es. destruct Es as (t & E & Ht).
    apply repo_name_here_elim in Ht.
    destruct Ht as (name' & -> & Hn' & Hp' & ->).
    apply last_segment_unique in E; [| assumption | assumption]. subst name'.
    eexists. split; [reflexivity |]. cbn. reflexivity.
Qed.

Lemma equal_text_eq (a b : jsstring) : equal_text a b = true <-> a = b.
Proof.
  revert b. induction a as [| x a IH]; intros [| y b]; cbn [equal_text];
    try (split; [discriminate | discriminate]); try tauto.
  rewrite andb_true_iff, N.eqb_eq, IH. split.
  - intros [-> ->]. reflexivity.
  - intros H. injection H as -> ->. split; reflexivity.
Qed.

Lemma find_first (A : Type) (f : A -> bool) (l : list A) (x : A) :
  find f l = Some x <->
  exists before rest, l = before ++ x :: rest /\ f x = true /\
                      Forall (fun y => f y = false) before.
Proof.
  split.
  - induction l as [| y l IH]; cbn [find]; [discriminate |].
    destruct (f y) eqn:Ey.
    + intros H. injection H as ->. exists [], l.
      repeat split; [assumption | constructor].
    + intros H. destruct (IH H) as (before & rest & -> & Hx & Hb).
      exists (y :: before), rest. repeat split; [assumption |].
      constructor; assumption.
  - intros (before & rest & -> & Hx & Hb).
    induction Hb as [| y before Hy Hb IH]; cbn [app find].
    + now rewrite Hx.
    + now rewrite Hy.
Qed.

End RepoName.

(** X20. The repository name is found exactly when the remotes are
    answered, a remote is named 'origin', and the fetch address of the
    first such remote ends in a slash, a non-empty name without a slash
    and '.git'; the name found is then that last segment.  An address
    that does not end in '.git' gives no name. *)
Theorem getRepoName_spec (remotes : option (list Remote)) (name : jsstring) :
  GitService_getRepoName remotes = Some name <->
  exists before origin rest pre,
    remotes = Some (before ++ origin :: rest) /\
    Forall (fun remote => remote_name remote <> lit "origin") before /\
    remote_name origin = lit "origin" /\
    remote_fetch origin = pre ++ SLASH :: name ++ lit ".git" /\
    name <> [] /\ forallb not_slash name = true.
Proof.
  unfold GitService_getRepoName. split.
  - destruct remotes as [rs |]; [| discriminate].
    destruct (find _ rs) as [origin |] eqn:Ef; [| discriminate].
    apply find_first in Ef. destruct Ef as (before & rest & -> & Ho & Hb).
    destruct (truthy (remote_fetch origin)); [| discriminate].
    destruct (match_ repo_name_re (remote_fetch origin)) as [m |] eqn:Em;
      [| discriminate].
    intros Hc.
    destruct (proj1 (match_repo_name (remote_fetch origin) name))
      as (pre & E & Hn & Hp); [exists m; split; assumption |].
    exists before, origin, rest, pre. repeat split; try assumption.
    + eapply Forall_impl; [| exact Hb]. cbv beta. intros r Hr Er.
      apply equal_text_eq in Er. congruence.
    + now apply equal_text_eq.
  - intros (before & origin & rest & pre & -> & Hb & Ho & E & Hn & Hp).
    assert (find (fun remote => equal_text (remote_name remote) (lit "origin"))
              (before ++ origin :: rest) = Some origin) as ->.
    { apply find_first. exists before, rest. repeat split.
      - now apply equal_text_eq.
      - eapply Forall_impl; [| exact Hb]. cbv beta. intros r Hr.
        destruct (equal_text (remote_name r) (lit "origin")) eqn:Er;
          [| reflexivity].
        apply equal_text_eq in Er. contradiction. }
    destruct (proj2 (match_repo_name (remote_fetch origin) name))
      as (m & -> & Hc); [exists pre; repeat split; assumption |].
    rewrite E. destruct pre; exact Hc.
Qed.

(** ** [parseChangedLines] *)

Section HunkHeader.

Lemma digit_space : digit SPACE = false.
Proof. reflexivity. Qed.

Lemma digit_comma : digit COMMA = false.
Proof. reflexivity. Qed.

Lemma range_head (range rest : jsstring) :
  hunk_range range ->
  match range ++ SPACE :: rest with
  | c :: _ => digit c = false
  | [] => True
  end.
Proof. intros [-> | (n & -> & _)]; reflexivity. Qed.

(** [,?\d*] reads a whole range when a space follows it. *)
Lemma range_longest (range rest : jsstring) (rs : list regex) (caps : captures)
    (k : cont) (y : outcome) :
  hunk_range range ->
  exec (Seq rs) false (SPACE :: rest) caps k = Some y ->
  exec (Seq (Opt (Unit COMMA) :: Star true (Sym digit) :: rs)) false
    (range ++ SPACE :: rest) caps k = Some y.
Proof.
  intros [-> | (n & -> & Hn)] H; rewrite exec_Seq_cons, exec_Opt; cbn [app].
  - unfold Unit. rewrite exec_Sym_cons. cbn [or_else].
    change (COMMA =? SPACE)%N with false. cbv iota. cbn [or_else].
    rewrite exec_Seq_cons.
    apply (@star_greedy_longest digit false [] (SPACE :: rest));
      [reflexivity | exact digit_space | exact H].
  - unfold Unit. rewrite exec_Sym_cons, N.eqb_refl, exec_Seq_cons.
    rewrite (@star_greedy_longest digit false n (SPACE :: rest) caps _ y Hn
               digit_space); [reflexivity |].
    destruct n; exact H.
Qed.

Lemma hunk_header_here (a olds c news tail : jsstring) :
  a <> [] -> forallb digit a = true -> hunk_range olds ->
  c <> [] -> forallb digit c = true -> hunk_range news ->
  match_here hunk_re true
    (lit "@@ -" ++ a ++ olds ++ lit " +" ++ c ++ news ++ lit " @@" ++ tail)
  = Some (tail, [(2, c); (1, a)]).
Proof.
  intros Ha Hda Ho Hc Hdc Hn. unfold match_here, hunk_re.
  rewrite exec_Seq_cons, text_exact, exec_Seq_cons.
  apply group_plus_longest; [exact Ha | exact Hda | |].
  { change (lit " +" ++ c ++ news ++ lit " @@" ++ tail)
      with (SPACE :: 43%N :: c ++ news ++ lit " @@" ++ tail).
    now apply range_head. }
  change (lit " +" ++ c ++ news ++ lit " @@" ++ tail)
    with (SPACE :: 43%N :: c ++ news ++ lit " @@" ++ tail).
  apply range_longest; [exact Ho |].
  change (SPACE :: 43%N :: c ++ news ++ lit " @@" ++ tail)
    with (lit " +" ++ c ++ news ++ lit " @@" ++ tail).
  rewrite exec_Seq_cons, text_exact, exec_Seq_cons.
  change (lit " @@" ++ tail) with (SPACE :: 64%N :: 64%N :: tail).
  apply group_plus_longest; [exact Hc | exact Hdc | now apply range_head |].
  apply range_longest; [exact Hn |].
  change (SPACE :: 64%N :: 64%N :: tail) with (lit " @@" ++ tail).
  rewrite exec_Seq_cons, text_exact, exec_Seq_nil. reflexivity.
Qed.

Lemma hunk_header_match (a olds c news tail : jsstring) :
  a <> [] -> forallb digit a = true -> hunk_range olds ->
  c <> [] -> forallb digit c = true -> hunk_range news ->
  match_ hunk_re
    (lit "@@ -" ++ a ++ olds ++ lit " +" ++ c ++ news ++ lit " @@" ++ tail)
  = Some [(2, c); (1, a)].
Proof.
  intros Ha Hda Ho Hc Hdc Hn. unfold match_.
  pose proof (hunk_header_here tail Ha Hda Ho Hc Hdc Hn) as H.
  destruct (lit "@@ -" ++ a ++ olds ++ lit " +" ++ c ++ news ++ lit " @@" ++ tail)
    as [| x s]; cbn [search]; now rewrite H.
Qed.

Lemma hunk_line_kind (line : jsstring) :
  hunk_line line = true ->
  added_line line = false /\ removed_line line = false.
Proof.
  unfold hunk_line, added_line, removed_line.
  destruct line as [| x line]; [discriminate |].
  change (lit "@@") with [64%N; 64%N]. change (lit "+") with [43%N].
  change (lit "-") with [45%N]. cbn [startsWith].
  destruct (x =? 64)%N eqn:E; [| discriminate].
  apply N.eqb_eq in E. subst x. intros _. split; reflexivity.
Qed.

Lemma added_not_removed (line : jsstring) :
  added_line line = true ->
  hunk_line line = false /\ removed_line line = false /\
  startsWith line [BACKSLASH] = false.
Proof.
  unfold hunk_line, added_line, removed_line.
  destruct line as [| x line]; [discriminate |].
  change (lit "@@") with [64%N; 64%N]. change (lit "+") with [43%N].
  change (lit "-") with [45%N]. cbn [startsWith].
  destruct (x =? 43)%N eqn:E; [| discriminate].
  apply N.eqb_eq in E. subst x. intros _. repeat split; reflexivity.
Qed.

End HunkHeader.

Section ChangedLinesFacts.

Variable number : Type.
Variable zero : number.
Variable increment : number -> number.
Variable parseInt : jsstring -> number.

(** One turn of the loop, by the kind of the line. *)
Lemma changed_line_kinds (a r : list number) (n : number) (line : jsstring) :
  exists n',
    changed_line increment parseInt (a, r, n) line
    = (a ++ (if added_line line then [n] else []),
       r ++ (if removed_line line then [n] else []), n') /\
    (hunk_line line = false ->
     n' = if counted_line line then increment n else n).
Proof.
  unfold changed_line.
  fold (hunk_line line). fold (added_line line). fold (removed_line line).
  unfold counted_line.
  destruct (hunk_line line) eqn:Eh.
  - destruct (hunk_line_kind _ Eh) as [-> ->]. rewrite !app_nil_r.
    destruct (match_ hunk_re line); eexists; (split; [reflexivity |]);
      discriminate.
  - destruct (added_line line) eqn:Ea.
    + destruct (added_not_removed _ Ea) as (_ & -> & ->).
      rewrite app_nil_r. eexists. split; [reflexivity |]. reflexivity.
    + destruct (removed_line line).
      * rewrite app_nil_r. eexists. split; [reflexivity |]. reflexivity.
      * rewrite !app_nil_r.
        destruct (startsWith line [BACKSLASH]); eexists;
          (split; [reflexivity |]); reflexivity.
Qed.

Lemma changed_lines_run (lines : list jsstring) :
  forall (a r : list number) (n : number),
  exists a' r' n',
    fold_left (changed_line increment parseInt) lines (a, r, n)
    = (a ++ a', r ++ r', n') /\
    length a' = count_lines added_line lines /\
    length r' = count_lines removed_line lines /\
    (Forall (fun line => hunk_line line = false) lines ->
     n' = Nat.iter (count_lines counted_line lines) increment n).
Proof.
  unfold count_lines.
  induction lines as [| line lines IH]; intros a r n; cbn [fold_left filter].
  - exists [], [], n. rewrite !app_nil_r. repeat split.
  - destruct (changed_line_kinds a r n line) as (n1 & -> & Hn1).
    destruct (IH (a ++ (if added_line line then [n] else []))
                 (r ++ (if removed_line line then [n] else [])) n1)
      as (a' & r' & n' & -> & Ha & Hr & Hn).
    exists ((if added_line line then [n] else []) ++ a'),
           ((if removed_line line then [n] else []) ++ r'), n'.
    rewrite !app_assoc. split; [reflexivity |].
    split; [| split].
    + destruct (added_line line); cbn [app length]; now rewrite Ha.
    + destruct (removed_line line); cbn [app length]; now rewrite Hr.
    + intros Hh. inversion Hh as [| ? ? Hl Hls]; subst.
      rewrite (Hn Hls), (Hn1 Hl).
      destruct (counted_line line); cbn [length]; [| reflexivity].
      now rewrite Nat.iter_succ_r.
Qed.

End ChangedLinesFacts.

Section ChangedLinesNumbers.

Variable number : Type.
Variable zero : number.
Variable increment : number -> number.
Variable parseInt : jsstring -> number.

(** X21. As many line numbers are recorded as added as the diff has
    lines that begin with '+' but not with '+++', and as removed as it
    has lines that begin with '-' but not with '---', whatever the hunk
    headers say: an added line whose text begins with '++' is left
    out. *)
Theorem changed_lines_counts (diff : jsstring) :
  length (addedLines (parseChangedLines zero increment parseInt diff))
  = count_lines added_line (split NL diff) /\
  length (removedLines (parseChangedLines zero increment parseInt diff))
  = count_lines removed_line (split NL diff).
Proof.
  unfold parseChangedLines. cbv zeta.
  destruct (changed_lines_run increment parseInt (split NL diff) [] [] zero)
    as (a & r & n & -> & Ha & Hr & _).
  cbn [app addedLines removedLines]. split; assumption.
Qed.

(** X22. After a hunk header '@@ -a,b +c,d @@' (the ranges ',b' and
    ',d' may be missing) the lines are numbered in the new file from c:
    a line up to the next header is recorded at c advanced once for
    every earlier line of the hunk that is neither removed nor a '\'
    remark.  So a removed line is recorded under the number of the
    line that follows it in the new file. *)
Theorem hunk_numbering (diff : jsstring) (prefix before rest : list jsstring)
    (line a olds c news tail : jsstring) :
  split NL diff
  = prefix
    ++ (lit "@@ -" ++ a ++ olds ++ lit " +" ++ c ++ news ++ lit " @@" ++ tail)
    :: before ++ line :: rest ->
  a <> [] -> forallb digit a = true -> hunk_range olds ->
  c <> [] -> forallb digit c = true -> hunk_range news ->
  Forall (fun l => hunk_line l = false) before ->
  let result := parseChangedLines zero increment parseInt diff in
  let here :=
    Nat.iter (count_lines counted_line before) increment (parseInt c) in
  (added_line line = true ->
   nth_error (addedLines result) (count_lines added_line (prefix ++ before))
   = Some here) /\
  (removed_line line = true ->
   nth_error (removedLines result)
     (count_lines removed_line (prefix ++ before))
   = Some here).
Proof.
  intros Hs Ha Hda Ho Hc Hdc Hn Hb result here.
  assert (exists a0 a1 a3 r0 r1 r3,
             result
             = {| addedLines :=
                    ((a0 ++ a1) ++ (if added_line line then [here] else []))
                    ++ a3;
                  removedLines :=
                    ((r0 ++ r1) ++ (if removed_line line then [here] else []))
                    ++ r3 |} /\
             length a0 = count_lines added_line prefix /\
             length a1 = count_lines added_line before /\
             length r0 = count_lines removed_line prefix /\
             length r1 = count_lines removed_line before) as H.
  { subst result here. unfold parseChangedLines. cbv zeta. rewrite Hs.
    rewrite fold_left_app. cbn [fold_left].
    destruct (changed_lines_run increment parseInt prefix [] [] zero)
      as (a0 & r0 & n0 & -> & Ha0 & Hr0 & _). cbn [app].
    unfold changed_line at 2.
    change (startsWith
              (lit "@@ -" ++ a ++ olds ++ lit " +" ++ c ++ news
               ++ lit " @@" ++ tail) (lit "@@")) with true. cbv iota.
    rewrite (hunk_header_match tail Ha Hda Ho Hc Hdc Hn).
    cbn [capture Nat.eqb]. rewrite fold_left_app.
    destruct (changed_lines_run increment parseInt before a0 r0 (parseInt c))
      as (a1 & r1 & n1 & -> & Ha1 & Hr1 & Hn1).
    specialize (Hn1 Hb). subst n1. cbn [fold_left].
    destruct (changed_line_kinds increment parseInt (a0 ++ a1) (r0 ++ r1)
                (Nat.iter (count_lines counted_line before) increment
                   (parseInt c)) line) as (n2 & -> & _).
    destruct (changed_lines_run increment parseInt rest
                ((a0 ++ a1) ++
                 (if added_line line
                  then [Nat.iter (count_lines counted_line before) increment
                          (parseInt c)] else []))
                ((r0 ++ r1) ++
                 (if removed_line line
                  then [Nat.iter (count_lines counted_line before) increment
                          (parseInt c)] else [])) n2)
      as (a3 & r3 & n3 & -> & _).
    exists a0, a1, a3, r0, r1, r3. repeat split; assumption. }
  destruct H as (a0 & a1 & a3 & r0 & r1 & r3 & -> & Ha0 & Ha1 & Hr0 & Hr1).
  cbn [addedLines removedLines].
  assert (forall p, count_lines p (prefix ++ before)
                    = count_lines p prefix + count_lines p before) as Hcount.
  { intros p. unfold count_lines. now rewrite filter_app, length_app. }
  split; intros ->; rewrite Hcount.
  - rewrite <- Ha0, <- Ha1, <- length_app, <- app_assoc.
    rewrite nth_error_app2, Nat.sub_diag; [reflexivity | lia].
  - rewrite <- Hr0, <- Hr1, <- length_app, <- app_assoc.
    rewrite nth_error_app2, Nat.sub_diag; [reflexivity | lia].
Qed.

End ChangedLinesNumbers.

Lemma hunk_numbering_witness :
  let diff :=
    join [NL] [lit "@@ -1,2 +5,3 @@ main"; lit " kept"; lit "-old";
               lit "+new"] in
  nth_error (addedLines (parseChangedLines 0%N N.succ decimal diff)) 0
  = Some 6%N.
Proof.
  cbv zeta.
  refine (proj1
            (@hunk_numbering N 0%N N.succ decimal _ [] [lit " kept"; lit "-old"]
               [] (lit "+new") (lit "1") (lit ",2") (lit "5") (lit ",3")
               (lit " main") _ _ _ _ _ _ _ _) _).
  - reflexivity.
  - discriminate.
  - reflexivity.
  - right. exists (lit "2"). split; reflexivity.
  - discriminate.
  - reflexivity.
  - right. exists (lit "3"). split; reflexivity.
  - repeat constructor.
  - reflexivity.
Defined.

(** ** [index.ts] over the service of [git.ts] *)

Lemma gitService_diff (git : SimpleGit) (d : GitDiff) :
  getStagedDiff (gitService git) = Some d ->
  checkIsRepo (stagedAnswers git) = true /\
  stagedPaths (stagedAnswers git) <> [] /\
  raw d = stagedDiffText (stagedAnswers git) /\ blank (raw d) = false.
Proof.
  unfold gitService. cbn [getStagedDiff]. unfold GitService_getStagedDiff.
  destruct (checkIsRepo (stagedAnswers git)); [| discriminate]. cbn [negb].
  destruct (stagedPaths (stagedAnswers git)) as [| p ps]; [discriminate |].
  rewrite truthy_trim, negb_involutive.
  destruct (blank (stagedDiffText (stagedAnswers git))) eqn:Eb;
    [discriminate |].
  intros H. injection H as <-. cbn [raw]. repeat split; try assumption.
  discriminate.
Qed.

Lemma calls_nil_index (i : nat) (r : Request) :
  nth_error (@nil Request) i = Some r -> False.
Proof. destruct i; discriminate. Qed.

(** X23. The i-th call to the provider is made in the i-th round, with
    the configured model and limits and the prompt built from the
    staged diff of that round, in a repository that has staged changes:
    a regeneration takes a new round and a round calls the provider at
    most once.  Over the service of [git.ts] the diff sent is the raw
    staged diff, which is not blank. *)
Theorem calls_follow_rounds (config : AppConfig) (world : list Round) :
  forall (options : CLI.Options) (i : nat) (r : Request),
    nth_error (calls (fst (generateCommitMessage config options world))) i
    = Some r ->
    exists round d,
      nth_error world i = Some round /\
      isValidRepository (repo round) = true /\
      hasStagedChanges (repo round) = true /\
      getStagedDiff (repo round) = Some d /\
      r = request_of (ai config)
            (promptContext config options (repo round) d) /\
      (forall git,
         repo round = gitService git ->
         stagedPaths (stagedAnswers git) <> [] /\
         raw d = stagedDiffText (stagedAnswers git) /\
         blank (raw d) = false).
Proof.
  induction world as [| round later IH]; intros options i r;
    cbn [generateCommitMessage]; unfold getAIConfig;
    destruct (truthy (apiKey (ai config))); cbn [negb fst calls flat_map];
    try (intros H; now apply calls_nil_index in H).
  destruct (isValidRepository (repo round)) eqn:Ev; cbn [negb fst];
    [| intros H; now apply calls_nil_index in H].
  destruct (hasStagedChanges (repo round)) eqn:Es; cbn [negb fst];
    [| intros H; now apply calls_nil_index in H].
  destruct (getStagedDiff (repo round)) as [d |] eqn:Ed; cbn [fst];
    [| intros H; now apply calls_nil_index in H].
  assert (forall git,
            repo round = gitService git ->
            stagedPaths (stagedAnswers git) <> [] /\
            raw d = stagedDiffText (stagedAnswers git) /\
            blank (raw d) = false) as Hgit.
  { intros git E. rewrite E in Ed. apply gitService_diff in Ed. tauto. }
  assert (forall (rest : list Request) (j : nat) (q : Request),
            nth_error
              (request_of (ai config)
                 (promptContext config options (repo round) d) :: rest) j
            = Some q ->
            (forall j', nth_error rest j' = Some q ->
               exists round' d',
                 nth_error later j' = Some round' /\
                 isValidRepository (repo round') = true /\
                 hasStagedChanges (repo round') = true /\
                 getStagedDiff (repo round') = Some d' /\
                 q = request_of (ai config)
                       (promptContext config options (repo round') d') /\
                 (forall git,
                    repo round' = gitService git ->
                    stagedPaths (stagedAnswers git) <> [] /\
                    raw d' = stagedDiffText (stagedAnswers git) /\
                    blank (raw d') = false)) ->
            exists round' d',
              nth_error (round :: later) j = Some round' /\
              isValidRepository (repo round') = true /\
              hasStagedChanges (repo round') = true /\
              getStagedDiff (repo round') = Some d' /\
              q = request_of (ai config)
                    (promptContext config options (repo round') d') /\
              (forall git,
                 repo round' = gitService git ->
                 stagedPaths (stagedAnswers git) <> [] /\
                 raw d' = stagedDiffText (stagedAnswers git) /\
                 blank (raw d') = false)) as Hhead.
  { intros rest [| j] q Hq Hrest; cbn [nth_error] in *.
    - injection Hq as <-. exists round, d.
      split; [reflexivity |]. split; [exact Ev |]. split; [exact Es |].
      split; [exact Ed |]. split; [reflexivity | exact Hgit].
    - exact (Hrest j Hq). }
  assert (forall (j' : nat) (q : Request),
            nth_error (@nil Request) j' = Some q ->
            exists round' d',
              nth_error later j' = Some round' /\
              isValidRepository (repo round') = true /\
              hasStagedChanges (repo round') = true /\
              getStagedDiff (repo round') = Some d' /\
              q = request_of (ai config)
                    (promptContext config options (repo round') d') /\
              (forall git,
                 repo round' = gitService git ->
                 stagedPaths (stagedAnswers git) <> [] /\
                 raw d' = stagedDiffText (stagedAnswers git) /\
                 blank (raw d') = false)) as Hnone.
  { intros j' q H. now apply calls_nil_index in H. }
  destruct (service_cases (ai config)
              (promptContext config options (repo round) d) (reply round))
    as [(f & _ & ->) | (g & _ & ->)].
  { cbn [fst calls flat_map app]. intros H.
    apply (Hhead [] i r H). intros j'. apply Hnone. }
  destruct (CLI.dryRun options);
    [cbn [fst calls flat_map app]; intros H; apply (Hhead [] i r H);
     intros j'; apply Hnone |].
  cbn [negb]. rewrite andb_true_r.
  destruct (CLI.interactive options || negb (CLI.commit options))%bool.
  - destruct (action round); unfold performCommit.
    + cbn [fst calls flat_map app]. intros H. apply (Hhead [] i r H).
      intros j'. apply Hnone.
    + destruct (promptForEdit (editedMessage round));
        cbn [fst calls flat_map app]; intros H; apply (Hhead [] i r H);
        intros j'; apply Hnone.
    + specialize (IH (with_interactive options)).
      destruct (generateCommitMessage config (with_interactive options) later)
        as [e o].
      cbn [fst] in *. unfold calls in *. rewrite flat_map_app.
      cbn [flat_map app]. intros H.
      apply (Hhead _ i r H). intros j' Hj. exact (IH j' r Hj).
    + cbn [fst calls flat_map app]. intros H. apply (Hhead [] i r H).
      intros j'. apply Hnone.
  - destruct (CLI.commit options); unfold performCommit;
      cbn [fst calls flat_map app]; intros H; apply (Hhead [] i r H);
      intros j'; apply Hnone.
Qed.

Lemma calls_follow_rounds_witness :
  exists round d,
    nth_error [{| repo := gitService sample_git;
                  reply := ReplyContent (Some example_response);
                  action := ActCancel; editedMessage := [] |}] 0
    = Some round /\
    isValidRepository (repo round) = true /\
    hasStagedChanges (repo round) = true /\
    getStagedDiff (repo round) = Some d /\
    request_of (ai (sample_config 100 0.7))
      (promptContext (sample_config 100 0.7) commit_options
         (gitService sample_git)
         {| files := [{| path := lit "src/parser.ts"; status := modified;
                         insertions := 4; deletions := 1;
                         fileDiff := lit "@@ -1,2 +1,5 @@";
                         oldPath := None |}];
            summary := {| totalInsertions := 4; totalDeletions := 1;
                          filesChanged := 1 |};
            raw := lit "diff --git a/src/parser.ts b/src/parser.ts" |})
    = request_of (ai (sample_config 100 0.7))
        (promptContext (sample_config 100 0.7) commit_options (repo round) d) /\
    (forall git,
       repo round = gitService git ->
       stagedPaths (stagedAnswers git) <> [] /\
       raw d = stagedDiffText (stagedAnswers git) /\
       blank (raw d) = false).
Proof.
  apply (@calls_follow_rounds (sample_config 100 0.7) _ commit_options 0).
  vm_compute. reflexivity.
Defined.

(** ** Parsing, formatting and validation outside the conventional style *)

Section PlainStyles.

Lemma first_line_whole (s : jsstring) : ~ In NL s -> first_line s = s.
Proof.
  induction s as [| x s IH]; intros H; cbn [first_line]; [reflexivity |].
  destruct (x =? NL)%N eqn:E.
  - apply N.eqb_eq in E. subst x. exfalso. apply H. now left.
  - rewrite IH; [reflexivity |]. intros Hin. apply H. now right.
Qed.

Lemma first_line_app (s rest : jsstring) :
  ~ In NL s -> first_line (s ++ NL :: rest) = s.
Proof.
  induction s as [| x s IH]; intros H; cbn [first_line app].
  - now rewrite N.eqb_refl.
  - destruct (x =? NL)%N eqn:E.
    + apply N.eqb_eq in E. subst x. exfalso. apply H. now left.
    + rewrite IH; [reflexivity |]. intros Hin. apply H. now right.
Qed.

Lemma format_plain_first_line (m : CommitMessage) (s : CommitStyle) :
  s <> conventional -> ~ In NL (title m) -> blank (title m) = false ->
  first_line (formatCommitMessage m s) = title m /\
  blank (formatCommitMessage m s) = false.
Proof.
  intros Hs Hnl Hb.
  destruct s; [congruence | |];
    unfold formatCommitMessage, formatStandardCommit, formatDetailedCommit;
    cbv zeta.
  - split; [now apply first_line_whole | exact Hb].
  - destruct (body m) as [b |]; [destruct (truthy b) |];
      try (split; [now apply first_line_whole | exact Hb]).
    cbn [app]. split; [now apply first_line_app |].
    unfold blank in *. rewrite forallb_app, Hb. reflexivity.
Qed.

End PlainStyles.

(** X24. Under the standard and the detailed style the formatted text of
    a parsed message is accepted by the validator exactly when its
    title has at most 50 units and no final period; the body has no
    part in it.  A message parsed with confidence 1.0 is thus always
    accepted. *)
Theorem parsed_plain_valid (content : jsstring) (style s : CommitStyle)
    (g : GeneratedCommit) :
  parseAIResponse content style = inr g ->
  s <> conventional ->
  validateCommitMessage (formatCommitMessage (message g) s) s
  = ((length (title (message g)) <=? 50)%nat
     && no_final_period (title (message g)))%bool /\
  ((confidence g =? 1)%float = true ->
   validateCommitMessage (formatCommitMessage (message g) s) s = true).
Proof.
  intros Hp Hs.
  destruct (parsed_title _ _ Hp) as (Hne & Htrim & Hnl).
  assert (blank (title (message g)) = false) as Hb.
  { destruct (blank (title (message g))) eqn:E; [| reflexivity].
    apply trim_nil in E. congruence. }
  destruct (@format_plain_first_line (message g) s Hs Hnl Hb) as [Hfl Hbl].
  assert (validateCommitMessage (formatCommitMessage (message g) s) s
          = ((length (title (message g)) <=? 50)%nat
             && no_final_period (title (message g)))%bool) as Hv.
  { unfold validateCommitMessage. rewrite truthy_trim, Hbl. cbn [negb].
    destruct s; [congruence | |];
      unfold validateStandardCommit; cbv zeta; rewrite hd_split, Hfl;
      reflexivity. }
  split; [exact Hv |].
  intros Hc. rewrite Hv.
  apply parse_fields in Hp.
  destruct Hp as (_ & _ & _ & _ & _ & _ & Hconf & _).
  rewrite Hconf, calculateConfidence_score in Hc.
  unfold title_length_ok in Hc.
  destruct (10 <? length (title (message g)))%nat,
    (length (title (message g)) <=? 50)%nat,
    (starts_lowercase (title (message g))),
    (no_final_period (title (message g))),
    (has_colon (title (message g))),
    (long_body (body (message g)));
    cbn [andb] in *; try reflexivity; vm_compute in Hc; discriminate Hc.
Qed.

Lemma parsed_plain_valid_witness :
  validateCommitMessage
    (formatCommitMessage (message sample_generated) detailed) detailed
  = ((length (title (message sample_generated)) <=? 50)%nat
     && no_final_period (title (message sample_generated)))%bool /\
  ((confidence sample_generated =? 1)%float = true ->
   validateCommitMessage
     (formatCommitMessage (message sample_generated) detailed) detailed
   = true).
Proof.
  apply (@parsed_plain_valid example_response conventional detailed
           sample_generated).
  - vm_compute. reflexivity.
  - discriminate.
Defined.
